(** * CPU scheduling visualiser: the scheduling engine and the page

    A shallow embedding of the engine of the visualiser: the four policies
    ([scheduleFCFS], [scheduleSJF], [schedulePriority], [scheduleRoundRobin]),
    the tick expander ([segmentsToTicks]) and the metrics calculator
    ([computeMetrics]); and of the page around it: the orchestrator
    ([buildSchedule]), the handlers of the process list, the form and its
    number fields ([clampInt]), the controls, the playback cursor and the
    colours ([colorForPid]).

    Conventions of the embedding.
    - JavaScript numbers are IEEE-754 binary64 values ([spec_float] with 53
      bits of precision).  The numbers of the engine that hold integers
      (arrival, burst, priority, time, start, end) are carried as [Z].  The
      engine is embedded twice.  The definitions of the module [Binary64]
      add and subtract as the code does, in binary64, and keep the totals of
      the metrics as binary64 values.  The definitions outside the module
      add and subtract the integers exactly; the two agree as long as no sum
      passes [2^53 - 1], the largest safe integer ([fcfs_exact],
      [np_run_exact], [rr_run_exact], [computeMetrics_numbers]).
    - Arrays are lists, [push] appends at the tail, [shift] removes the head.
    - [Array.prototype.sort] is the stable sort that ECMAScript 2019 requires.
    - The [Map] of round robin is a finite map keyed by strings.  The object
      [finish] of the metrics is, in [Binary64], the finite map of its own
      properties over the properties that it inherits from
      [Object.prototype]; outside the module it is the finite map alone,
      which is the same for ids that name no inherited property.
    - [while] loops run on fuel; the fuel handed to each loop is shown to be
      enough on well-formed input.
    - The state of a component is a record, a handler a function on it, and
      what the user does a list of events folded over the initial state.
      The timer itself, the rendering and the styles are outside the
      model. *)

From Stdlib Require Import ZArith QArith Qround SpecFloat.
From stdpp Require Import gmap strings list fin_maps sorting.

Local Open Scope Z_scope.

(** ** Data model *)

Record Process : Type := mkProcess
  { id : string; arrival : Z; burst : Z; priority : Z }.

(** A segment [{ pid, start, end }]; [end] is reserved in Rocq, the field is
    [end_]. *)
Record Segment : Type := mkSegment
  { pid : string; start : Z; end_ : Z }.

Definition IDLE : string := "IDLE"%string.

#[global] Instance Process_eq_dec : EqDecision Process.
Proof. solve_decision. Defined.

#[global] Instance Segment_eq_dec : EqDecision Segment.
Proof. solve_decision. Defined.

(** What a loop of the engine can do: finish with a value, throw (a property
    read on [undefined]), compute with [undefined] as a number (the NaN path,
    which the integer model does not follow), or use up its fuel. *)
Inductive outcome (A : Type) : Type :=
  | Done (a : A)
  | Throw
  | NaNPath
  | OutOfFuel.
Arguments Done {A} a.
Arguments Throw {A}.
Arguments NaNPath {A}.
Arguments OutOfFuel {A}.

Definition outcome_map {A B : Type} (f : A -> B) (o : outcome A) : outcome B :=
  match o with
  | Done a => Done (f a)
  | Throw => Throw
  | NaNPath => NaNPath
  | OutOfFuel => OutOfFuel
  end.

(** One round of a loop body: the next state, or the way it fails. *)
Inductive step_result (St : Type) : Type :=
  | Continue (s : St)
  | StepThrow
  | StepNaN.
Arguments Continue {St} s.
Arguments StepThrow {St}.
Arguments StepNaN {St}.

(** [while (cond) body], on fuel. *)
Fixpoint while_loop {St : Type} (cond : St -> bool) (body : St -> step_result St)
    (fuel : nat) (st : St) : outcome St :=
  if cond st then
    match fuel with
    | O => OutOfFuel
    | S fuel' =>
        match body st with
        | Continue st' => while_loop cond body fuel' st'
        | StepThrow => Throw
        | StepNaN => NaNPath
        end
    end
  else Done st.

(** ** Sorting

    [sort_by cmp] is [Array.prototype.sort(cmp)]: a stable sort, written as an
    insertion sort.  An element goes before the first element it does not
    compare greater than, so equal elements keep their order. *)

Section Sort.
Context {A : Type}.
Variable cmp : A -> A -> Z.

Fixpoint sort_insert (x : A) (l : list A) : list A :=
  match l with
  | [] => [x]
  | y :: l' => if cmp x y <=? 0 then x :: y :: l' else y :: sort_insert x l'
  end.

Fixpoint sort_by (l : list A) : list A :=
  match l with
  | [] => []
  | x :: l' => sort_insert x (sort_by l')
  end.
End Sort.

(** [by(k)]: the three-way comparison of the field [k]. *)
Definition by_ (k : Process -> Z) (a b : Process) : Z :=
  if k a =? k b then 0 else if k a <? k b then -1 else 1.

(** The comparator of [schedulePriority]: [||] yields its first non-zero
    operand. *)
Definition cmp_priority (a b : Process) : Z :=
  if negb (priority a - priority b =? 0) then priority a - priority b
  else if negb (arrival a - arrival b =? 0) then arrival a - arrival b
  else burst a - burst b.

(** [deepClone]: a JSON round trip, the identity on records of strings and
    integers. *)
Definition deepClone (processes : list Process) : list Process := processes.

Definition idle_seg (s e : Z) : Segment := mkSegment IDLE s e.
Definition run_seg (p : Process) (s e : Z) : Segment := mkSegment (id p) s e.

(** ** First come, first served *)

(** The body of [for (const p of procs)], on the pair [(time, segments)]. *)
Definition fcfs_body (st : Z * list Segment) (p : Process) : Z * list Segment :=
  let '(time, segments) := st in
  let '(time, segments) :=
    if time <? arrival p
    then (arrival p, segments ++ [idle_seg time (arrival p)])
    else (time, segments) in
  (time + burst p, segments ++ [run_seg p time (time + burst p)]).

Definition scheduleFCFS (processes : list Process) : list Segment :=
  let procs := sort_by (by_ arrival) (deepClone processes) in
  snd (foldl fcfs_body (0, []) procs).

(** ** The arrival scan shared by SJF, priority and round robin

    [while (i < procs.length && procs[i].arrival <= t) { queue.push(procs[i]); i++ }].
    The scan is given [length procs - i] rounds, after which [i] is the
    length and the loop test fails. *)
Fixpoint scan_arrivals (fuel : nat) (procs : list Process) (t : Z)
    (queue : list Process) (i : nat) : list Process * nat :=
  match fuel with
  | O => (queue, i)
  | S fuel' =>
      match procs !! i with
      | Some r =>
          if arrival r <=? t
          then scan_arrivals fuel' procs t (queue ++ [r]) (S i)
          else (queue, i)
      | None => (queue, i)
      end
  end.

Definition enqueueArrivals (procs : list Process) (t : Z)
    (queue : list Process) (i : nat) : list Process * nat :=
  scan_arrivals (length procs - i) procs t queue i.

(** ** Shortest job first and priority (non-preemptive)

    The two functions are the same loop around a different sort of the ready
    list. *)

Record np_state : Type := mkNp
  { np_i : nat; np_ready : list Process; np_time : Z; np_segments : list Segment }.

Section NonPreemptive.
Variable cmp : Process -> Process -> Z.
Variable remaining : list Process.

Definition np_cond (st : np_state) : bool :=
  (np_i st <? length remaining)%nat || (0 <? length (np_ready st))%nat.

(** One round of the outer [while]. *)
Definition np_step (st : np_state) : step_result np_state :=
  let '(ready, i) := enqueueArrivals remaining (np_time st) (np_ready st) (np_i st) in
  let time := np_time st in
  let segments := np_segments st in
  match ready with
  | [] =>
      match remaining !! i with
      | None => StepThrow
      | Some r =>
          let nextArrival := arrival r in
          Continue (mkNp i ready nextArrival (segments ++ [idle_seg time nextArrival]))
      end
  | _ :: _ =>
      match sort_by cmp ready with
      | [] => StepThrow
      | p :: ready' =>
          Continue (mkNp i ready' (time + burst p)
                      (segments ++ [run_seg p time (time + burst p)]))
      end
  end.

Definition np_init : np_state := mkNp 0 [] 0 [].

(** Every round either selects a process or is an idle jump that is
    followed by a selection: twice the number of processes bounds the
    rounds. *)
Definition np_fuel : nat := 2 * length remaining.

Definition np_run : outcome (list Segment) :=
  outcome_map np_segments (while_loop np_cond np_step np_fuel np_init).
End NonPreemptive.

Definition scheduleSJF (processes : list Process) : outcome (list Segment) :=
  let remaining := sort_by (by_ arrival) (deepClone processes) in
  np_run (by_ burst) remaining.

Definition schedulePriority (processes : list Process) : outcome (list Segment) :=
  let remaining := sort_by (by_ arrival) (deepClone processes) in
  np_run cmp_priority remaining.

(** ** Round robin *)

Record rr_state : Type := mkRr
  { rr_queue : list Process;
    rr_i : nat;
    rr_time : Z;
    rr_remainingBurst : gmap string Z;
    rr_segments : list Segment }.

(** [new Map(procs.map(p => [p.id, p.burst]))]: a later entry replaces an
    earlier one with the same key. *)
Definition rr_initial_map (procs : list Process) : gmap string Z :=
  foldl (fun m p => <[id p := burst p]> m) ∅ procs.

Section RoundRobin.
Variable procs : list Process.
Variable q : Z.

Definition rr_cond (st : rr_state) : bool :=
  (0 <? length (rr_queue st))%nat || (rr_i st <? length procs)%nat.

(** One round of [while (queue.length > 0 || i < procs.length)]. *)
Definition rr_step (st : rr_state) : step_result rr_state :=
  let time := rr_time st in
  let segments := rr_segments st in
  match rr_queue st with
  | [] =>
      match procs !! rr_i st with
      | None => StepThrow
      | Some r =>
          let nextArrival := arrival r in
          let segments :=
            if time <? nextArrival
            then segments ++ [idle_seg time nextArrival] else segments in
          let '(queue, i) := enqueueArrivals procs nextArrival [] (rr_i st) in
          Continue (mkRr queue i nextArrival (rr_remainingBurst st) segments)
      end
  | current :: queue =>
      match rr_remainingBurst st !! id current with
      | None => StepNaN
      | Some rem =>
          let slice := Z.min q rem in
          let segments := segments ++ [run_seg current time (time + slice)] in
          let time := time + slice in
          let '(queue, i) := enqueueArrivals procs time queue (rr_i st) in
          let newRem := rem - slice in
          if 0 <? newRem
          then Continue (mkRr (queue ++ [current]) i time
                           (<[id current := newRem]> (rr_remainingBurst st)) segments)
          else Continue (mkRr queue i time
                           (delete (id current) (rr_remainingBurst st)) segments)
      end
  end.

(** The state after [enqueueArrivals(0)]. *)
Definition rr_init : rr_state :=
  let '(queue, i) := enqueueArrivals procs 0 [] 0%nat in
  mkRr queue i 0 (rr_initial_map procs) [].

(** Every round either runs a slice of at least one unit or is an idle
    jump that moves the index. *)
Definition rr_fuel : nat :=
  (length procs + Z.to_nat (foldr Z.add 0%Z (burst <$> procs)))%nat.

Definition rr_run : outcome (list Segment) :=
  outcome_map rr_segments (while_loop rr_cond rr_step rr_fuel rr_init).
End RoundRobin.

Definition scheduleRoundRobin (processes : list Process) (q : Z)
    : outcome (list Segment) :=
  let procs := sort_by (by_ arrival) (deepClone processes) in
  rr_run procs q.

(** ** Tick expander *)

Definition covers (t : Z) (s : Segment) : bool := (start s <=? t) && (t <? end_ s).

Definition segmentsToTicks (segments : list Segment) : list string :=
  let maxT := match last segments with Some s => end_ s | None => 0 end in
  (fun t => match find (covers t) segments with
            | Some seg => pid seg
            | None => IDLE
            end) <$> seqZ 0 maxT.

(** ** Metrics *)

(** Binary64 arithmetic: [Z2F] is the number of an integer (the integer
    itself below [2^53], the nearest number otherwise), [fdiv] the division
    of numbers, rounded to nearest with ties to even. *)
Definition prec : Z := 53.
Definition emax : Z := 1024.
Definition Z2F (z : Z) : spec_float := binary_normalize prec emax z 0 false.
Definition fdiv : spec_float -> spec_float -> spec_float := SFdiv prec emax.

(** The string that [x.toFixed(2)] returns: the decimal [n/100] with a sign,
    where [n] is the integer for which [n/100] is nearest to the magnitude of
    [x] and the larger one when two are as near; or, for NaN, the infinities
    and magnitudes from [10^21] on, the string that reads back as [x]. *)
Inductive fixed_string : Type :=
  | FixedDec (neg : bool) (n : Z)
  | FixedOther (x : spec_float).

Definition fixed2_digits (m : positive) (e : Z) : Z :=
  if 0 <=? e then 100 * (Z.pos m * 2 ^ e)
  else (200 * Z.pos m + 2 ^ (- e)) / (2 * 2 ^ (- e)).

Definition at_least_1e21 (m : positive) (e : Z) : bool :=
  if 0 <=? e then 10 ^ 21 <=? Z.pos m * 2 ^ e
  else 10 ^ 21 * 2 ^ (- e) <=? Z.pos m.

Definition toFixed2 (x : spec_float) : fixed_string :=
  match x with
  | S754_finite s m e =>
      if at_least_1e21 m e then FixedOther x
      else FixedDec s (fixed2_digits m e)
  | S754_zero _ => FixedDec false 0
  | _ => FixedOther x
  end.

(** The number of the decimal [n/100] with a sign, [n] not negative: the
    number nearest to the quotient, with ties to even, whatever the size of
    [n]; the quotient is formed exactly and rounded once.  When the digits
    are all zero the number is the zero of that sign. *)
Definition decimal_to_number (neg : bool) (n : Z) : spec_float :=
  match n with
  | Z.pos m =>
      let '(mz, ez, lz) := SFdiv_core_binary prec emax (Z.pos m) 0 100 0 in
      binary_round_aux prec emax neg mz ez lz
  | _ => S754_zero neg
  end.

(** Unary [+] on the string of [toFixed]. *)
Definition to_number (s : fixed_string) : spec_float :=
  match s with
  | FixedDec neg n => decimal_to_number neg n
  | FixedOther x => x
  end.

Record Metrics : Type := mkMetrics
  { avgWaiting : spec_float; avgTurnaround : spec_float }.

(** The object [finish] after the loop over the segments.  (The object
    [byId] of the source is filled and never read.) *)
Definition finish_map (segments : list Segment) : gmap string Z :=
  foldl (fun finish s =>
           if bool_decide (pid s = IDLE) then finish
           else <[pid s := end_ s]> finish) ∅ segments.

(** The body of the second [forEach], on the pair [(totalWT, totalTAT)]. *)
Definition totals_body (finish : gmap string Z) (acc : Z * Z) (p : Process) : Z * Z :=
  let '(totalWT, totalTAT) := acc in
  let tat := default 0 (finish !! id p) - arrival p in
  let wt := tat - burst p in
  (totalWT + wt, totalTAT + tat).

Definition metric_totals (processes : list Process) (segments : list Segment) : Z * Z :=
  foldl (totals_body (finish_map segments)) (0, 0) processes.

(** [processes.length || 1]. *)
Definition metrics_n (processes : list Process) : Z :=
  if (length processes =? 0)%nat then 1 else Z.of_nat (length processes).

Definition computeMetrics (processes : list Process) (segments : list Segment) : Metrics :=
  let '(totalWT, totalTAT) := metric_totals processes segments in
  let n := metrics_n processes in
  {| avgWaiting := to_number (toFixed2 (fdiv (Z2F totalWT) (Z2F n)));
     avgTurnaround := to_number (toFixed2 (fdiv (Z2F totalTAT) (Z2F n))) |}.

(** ** The scenarios of the visualiser *)

Definition P (name : string) (a b pr : Z) : Process := mkProcess name a b pr.

Definition demo : list Process :=
  [P "P1" 0 4 2; P "P2" 1 3 1; P "P3" 2 6 3].


(** ** Vocabulary of the properties *)

(** A well-formed process set: unique ids, no negative arrival, a burst of at
    least one unit. *)
Definition well_formed (ps : list Process) : Prop :=
  NoDup (id <$> ps) /\ Forall (fun p => 0 <= arrival p /\ 1 <= burst p) ps.

Definition Zsum (l : list Z) : Z := foldr Z.add 0 l.

(** The segments of [segs] that bear the id [k], their number and their total
    duration. *)
Definition segs_of (k : string) (segs : list Segment) : list Segment :=
  filter (fun s => pid s = k) segs.

Definition occ (k : string) (segs : list Segment) : nat := length (segs_of k segs).

Definition dur (k : string) (segs : list Segment) : Z :=
  Zsum ((fun s => end_ s - start s) <$> segs_of k segs).

(** [chain t segs]: the segments follow one another from [t] on, each one
    starting where the previous one ends and ending after it starts. *)
Fixpoint chain (t : Z) (segs : list Segment) : Prop :=
  match segs with
  | [] => True
  | s :: segs' => start s = t /\ start s < end_ s /\ chain (end_ s) segs'
  end.

(** The end of the last segment, [t] when there is none. *)
Definition end_from (t : Z) (segs : list Segment) : Z :=
  match last segs with Some s => end_ s | None => t end.

(** The partition property, as a reader of the segment list sees it. *)
Definition contiguous_partition (segs : list Segment) : Prop :=
  (forall (i j : nat) si sj, (i <= j)%nat ->
      segs !! i = Some si -> segs !! j = Some sj -> start si <= start sj) /\
  (forall (i : nat) s s',
      segs !! i = Some s -> segs !! S i = Some s' -> end_ s = start s') /\
  Forall (fun s => start s < end_ s) segs /\
  (forall s, head segs = Some s -> start s = 0).

(** The run log: which process ran for how long, in the order of the runs.
    [accounts runs segs] relates a segment list to its log; an idle segment
    leaves no entry. *)
Inductive accounts : list (Process * Z) -> list Segment -> Prop :=
  | accounts_nil : accounts [] []
  | accounts_idle runs segs a b :
      accounts runs segs -> accounts runs (segs ++ [idle_seg a b])
  | accounts_run runs segs p a d :
      accounts runs segs ->
      accounts (runs ++ [(p, d)]) (segs ++ [run_seg p a (a + d)]).

Definition runs_of (k : string) (runs : list (Process * Z)) : list (Process * Z) :=
  filter (fun r => id (fst r) = k) runs.

(** The list is in non-decreasing order of the key [k]. *)
Definition sorted_on {A : Type} (k : A -> Z) (l : list A) : Prop :=
  forall (i j : nat) a b, (i <= j)%nat -> l !! i = Some a -> l !! j = Some b -> k a <= k b.

(** The log of a policy that runs every process once, for its whole burst. *)
Definition full_runs (l : list Process) : list (Process * Z) :=
  (fun p => (p, burst p)) <$> l.

(** The invariant of the loop of SJF and priority: the segments are a chain
    from 0 to [time], and every process is done (run once, in full), ready or
    still pending. *)
Definition np_inv (remaining : list Process) (st : np_state) : Prop :=
  (np_i st <= length remaining)%nat /\
  chain 0 (np_segments st) /\
  end_from 0 (np_segments st) = np_time st /\
  exists done,
    accounts (full_runs done) (np_segments st) /\
    done ++ np_ready st ++ drop (np_i st) remaining ≡ₚ remaining.

(** Its variant: two per process that is not done, less one right after an
    idle jump. *)
Definition np_mu (remaining : list Process) (st : np_state) : nat :=
  (2 * (length remaining - np_i st + length (np_ready st))
   - match np_ready st, remaining !! np_i st with
     | [], Some r => if (arrival r <=? np_time st)%Z then 1 else 0
     | _, _ => 0
     end)%nat.

(** The processes of round robin that are not finished: those in the queue
    and those still pending. *)
Definition rr_live (procs : list Process) (st : rr_state) : list Process :=
  rr_queue st ++ drop (rr_i st) procs.

(** What is left of the bursts, summed over the processes. *)
Definition rr_left (procs : list Process) (st : rr_state) : Z :=
  Zsum ((fun p => default 0 (rr_remainingBurst st !! id p)) <$> procs).

(** The invariant of the loop of round robin. *)
Definition rr_inv (procs : list Process) (st : rr_state) : Prop :=
  (rr_i st <= length procs)%nat /\
  chain 0 (rr_segments st) /\
  end_from 0 (rr_segments st) = rr_time st /\
  (forall r, procs !! rr_i st = Some r -> rr_time st < arrival r) /\
  Forall (fun p => arrival p <= rr_time st) (take (rr_i st) procs) /\
  (forall p, p ∈ rr_queue st -> p ∈ procs) /\
  NoDup (id <$> rr_live procs st) /\
  (forall k, is_Some (rr_remainingBurst st !! k) <-> k ∈ id <$> rr_live procs st) /\
  (forall k r, rr_remainingBurst st !! k = Some r -> 1 <= r) /\
  exists runs,
    accounts runs (rr_segments st) /\
    Forall (fun r => fst r ∈ procs) runs /\
    forall p, p ∈ procs ->
      Zsum (snd <$> runs_of (id p) runs)
      + default 0 (rr_remainingBurst st !! id p) = burst p.

(** Its variant: the processes still pending and the burst still left. *)
Definition rr_mu (procs : list Process) (st : rr_state) : nat :=
  (length procs - rr_i st + Z.to_nat (rr_left procs st))%nat.


(** A segment list is the timeline of a process set: a contiguous partition
    that starts at 0 when there is a process, in which every segment is the
    run of a process of the set or an idle segment. *)
Definition timeline_of (ps : list Process) (segs : list Segment) : Prop :=
  contiguous_partition segs /\
  (ps <> [] -> exists s, head segs = Some s /\ start s = 0) /\
  (forall s, s ∈ segs -> pid s = IDLE \/ exists p, p ∈ ps /\ pid s = id p).

(** The process runs as one segment, for its whole burst. *)
Definition single_run (p : Process) (segs : list Segment) : Prop :=
  exists s, segs_of (id p) segs = [s] /\ end_ s - start s = burst p.

(** [every_policy R ps q]: each of the four policies returns a segment list,
    and [R] relates the process set to it. *)
Definition every_policy (R : list Process -> list Segment -> Prop)
    (ps : list Process) (q : Z) : Prop :=
  R ps (scheduleFCFS ps) /\
  (exists segs, scheduleSJF ps = Done segs /\ R ps segs) /\
  (exists segs, schedulePriority ps = Done segs /\ R ps segs) /\
  (exists segs, scheduleRoundRobin ps q = Done segs /\ R ps segs).

(** The same for the three policies that do not preempt. *)
Definition every_nonpreemptive (R : list Process -> list Segment -> Prop)
    (ps : list Process) : Prop :=
  R ps (scheduleFCFS ps) /\
  (exists segs, scheduleSJF ps = Done segs /\ R ps segs) /\
  (exists segs, schedulePriority ps = Done segs /\ R ps segs).

(** Conservation for every process of the set, and for those whose id is not
    the idle sentinel. *)
Definition conserved (ps : list Process) (segs : list Segment) : Prop :=
  forall p, p ∈ ps -> dur (id p) segs = burst p.

Definition conserved_named (ps : list Process) (segs : list Segment) : Prop :=
  forall p, p ∈ ps -> id p <> IDLE -> dur (id p) segs = burst p.

(** No preemption for every process of the set, and for those whose id is not
    the idle sentinel. *)
Definition unpreempted (ps : list Process) (segs : list Segment) : Prop :=
  forall p, p ∈ ps -> (occ (id p) segs <= 1)%nat.

Definition unpreempted_named (ps : list Process) (segs : list Segment) : Prop :=
  forall p, p ∈ ps -> id p <> IDLE ->
    (occ (id p) segs <= 1)%nat /\ single_run p segs.

(** A process set whose only process bears the idle sentinel as its id. *)
Definition idle_named : list Process := [mkProcess "IDLE" 1 1 0].

(** ** Vocabulary of the metrics *)

(** A segment that counts for the finish time of the id [k]: it bears the id
    and is not an idle segment. *)
Definition finishes (k : string) (s : Segment) : Prop := pid s = k /\ pid s <> IDLE.

(** The end of the last such segment of the list, 0 when there is none. *)
Definition finish_last (k : string) (segments : list Segment) : Z :=
  match last (filter (finishes k) segments) with
  | Some s => end_ s
  | None => 0
  end.

(** The highest end among such segments, 0 when there is none. *)
Definition finish_highest (k : string) (segments : list Segment) : Z :=
  match end_ <$> filter (finishes k) segments with
  | [] => 0
  | e :: es => foldr Z.max e es
  end.

(** The totals of waiting and turnaround times for a given finish time. *)
Definition totals_with (finish : string -> Z) (processes : list Process) : Z * Z :=
  (Zsum ((fun p => finish (id p) - arrival p - burst p) <$> processes),
   Zsum ((fun p => finish (id p) - arrival p) <$> processes)).

(** The rational value of a finite number. *)
Definition F2Q (x : spec_float) : Q :=
  match x with
  | S754_finite s m e =>
      if 0 <=? e then inject_Z (cond_Zopp s (Z.pos m * 2 ^ e))
      else Qmake (cond_Zopp s (Z.pos m)) (2 ^ Z.to_pos (- e))
  | _ => 0%Q
  end.






(** One process and two overlapping segments in the order of their starts. *)
Definition overlap_set : list Process := [mkProcess "P1" 0 5 0].
Definition overlap_segments : list Segment :=
  [mkSegment "P1" 0 5; mkSegment "P1" 1 2].

(** The ready processes of equal burst are in the order in which they stand
    in the arrival-sorted array. *)
Definition equal_bursts_in_array_order (remaining : list Process) (st : np_state) : Prop :=
  forall b,
    filter (fun p => burst p = b) (np_ready st)
    `sublist_of` filter (fun p => burst p = b) (take (np_i st) remaining).

(** ** The rest of the visualiser

    The orchestrator ([buildSchedule]), the handlers of the process list,
    the form, the playback cursor and the colour of a process. *)

(** [mergeSamePid]: a copy of every process, no merge. *)
Definition mergeSamePid (l : list Process) : list Process :=
  (fun p => mkProcess (id p) (arrival p) (burst p) (priority p)) <$> l.

(** The [switch (algo)] of [buildSchedule]; round robin is called with
    [Math.max(1, quantum)], an unknown name gives no segment. *)
Definition run_policy (algo : string) (quantum : Z) (sanitized : list Process)
    : outcome (list Segment) :=
  if String.eqb algo "FCFS" then Done (scheduleFCFS sanitized)
  else if String.eqb algo "SJF" then scheduleSJF sanitized
  else if String.eqb algo "PRIORITY" then schedulePriority sanitized
  else if String.eqb algo "RR" then scheduleRoundRobin sanitized (Z.max 1 quantum)
  else Done [].

(** What [buildSchedule] stores: the segments, the ticks, the cursor and the
    running flag. *)
Record Build : Type := mkBuild
  { b_segments : list Segment;
    b_ticks : list string;
    b_currentTime : Z;
    b_running : bool }.

Definition buildSchedule (algo : string) (quantum : Z) (processes : list Process)
    : outcome Build :=
  if (length processes =? 0)%nat then Done (mkBuild [] [] 0 false)
  else
    let sanitized := mergeSamePid processes in
    outcome_map (fun segs => mkBuild segs (segmentsToTicks segs) 0 false)
      (run_policy algo quantum sanitized).

(** [makespan]: the end of the last segment, 0 without segments. *)
Definition makespan (segments : list Segment) : Z :=
  match last segments with Some s => end_ s | None => 0 end.

(** *** The process list *)

(** [onAddProcess]: a process whose id is taken is refused with an alert
    (the flag); otherwise it goes to the end of the list. *)
Definition onAddProcess (processes : list Process) (p : Process)
    : list Process * bool :=
  if existsb (fun x => String.eqb (id x) (id p)) processes
  then (processes, true)
  else (processes ++ [p], false).

Definition onRemoveProcess (processes : list Process) (pid : string) : list Process :=
  filter (fun p => id p <> pid) processes.

Definition onClear : list Process := [].

Definition onLoadDemo : list Process :=
  [mkProcess "P1" 0 7 2; mkProcess "P2" 2 4 1;
   mkProcess "P3" 4 1 3; mkProcess "P4" 5 4 2].

(** *** The form *)

(** The number that [Number(v)] makes of the text of a field: not a number,
    an infinity, or a finite number, which is a rational. *)
Inductive jsnum : Type :=
  | JNaN
  | JInf (neg : bool)
  | JFin (q : Q).

(** [clampInt(v, min, max)]:
    [Math.max(min, Math.min(max, Math.floor(Number(v) || 0)))]; [NaN] and
    zero become 0, and the bounds are integers. *)
Definition clampInt (v : jsnum) (min max : Z) : Z :=
  match v with
  | JNaN => Z.max min (Z.min max 0)
  | JInf false => Z.max min max
  | JInf true => min
  | JFin q => Z.max min (Z.min max (Qfloor q))
  end.

(** The state of [ProcessForm]. *)
Record Form : Type := mkForm
  { f_id : string; f_arrival : Z; f_burst : Z; f_priority : Z }.

Definition form_initial : Form := mkForm "" 0 1 1.

(** The state of the page that the scheduling reads: the process list and
    the form. *)
Record App : Type := mkApp { a_processes : list Process; a_form : Form }.

Definition app_initial : App := mkApp demo form_initial.

(** What the user does to the process list and the form.  A number field
    hands over the number of its text. *)
Inductive event : Type :=
  | TypeId (text : string)
  | TypeArrival (v : jsnum)
  | TypeBurst (v : jsnum)
  | TypePriority (v : jsnum)
  | ClickAdd
  | ClickRemove (pid : string)
  | ClickClear
  | ClickLoadDemo.

Section Page.
(** [String.prototype.trim], which the model leaves open. *)
Variable trim : string -> string.

(** [canAdd]: the button is disabled, and a click on it lost, without it. *)
Definition canAdd (f : Form) : bool :=
  negb (String.eqb (trim (f_id f)) "") && (0 <? f_burst f).

Definition handle (a : App) (e : event) : App :=
  let f := a_form a in
  match e with
  | TypeId text => mkApp (a_processes a) (mkForm text (f_arrival f) (f_burst f) (f_priority f))
  | TypeArrival v =>
      mkApp (a_processes a) (mkForm (f_id f) (clampInt v 0 9999) (f_burst f) (f_priority f))
  | TypeBurst v =>
      mkApp (a_processes a) (mkForm (f_id f) (f_arrival f) (clampInt v 1 9999) (f_priority f))
  | TypePriority v =>
      mkApp (a_processes a) (mkForm (f_id f) (f_arrival f) (f_burst f) (clampInt v 1 9999))
  | ClickAdd =>
      if canAdd f
      then mkApp (fst (onAddProcess (a_processes a)
                         (mkProcess (trim (f_id f)) (f_arrival f) (f_burst f) (f_priority f))))
                 form_initial
      else a
  | ClickRemove pid => mkApp (onRemoveProcess (a_processes a) pid) f
  | ClickClear => mkApp onClear f
  | ClickLoadDemo => mkApp onLoadDemo f
  end.

(** The page after a sequence of events. *)
Definition page_after (events : list event) : App := foldl handle app_initial events.
End Page.

(** *** The playback cursor *)

(** [onStep]: nothing without ticks, else one unit forward, up to the number
    of ticks. *)
Definition onStep (ticks : list string) (currentTime : Z) : Z :=
  if (length ticks =? 0)%nat then currentTime
  else Z.min (currentTime + 1) (Z.of_nat (length ticks)).

(** The update of the timer: the new cursor, and whether the timer stops. *)
Definition timer_tick (ticks : list string) (t : Z) : Z * bool :=
  if Z.of_nat (length ticks) <=? t + 1
  then ((if Z.of_nat (length ticks) <=? t + 1 then Z.of_nat (length ticks) else t + 1), true)
  else (t + 1, false).

Definition onReset : Z := 0.

(** [ticks[currentTime] ?? null]. *)
Definition nowPid (ticks : list string) (currentTime : Z) : option string :=
  if currentTime <? 0 then None else ticks !! Z.to_nat currentTime.

(** *** The colour of a process *)

Definition COLORS : list string :=
  ["#3b82f6"; "#10b981"; "#f59e0b"; "#ef4444"; "#8b5cf6";
   "#06b6d4"; "#84cc16"; "#ec4899"; "#a855f7"; "#14b8a6";
   "#f97316"; "#22c55e"; "#e11d48"; "#0ea5e9"; "#65a30d"]%string.

Definition idle_colour : string := "#9ca3af"%string.

(** [ToInt32]: the integer modulo [2^32] in the signed range. *)
Definition to_int32 (z : Z) : Z := (z + 2 ^ 31) mod 2 ^ 32 - 2 ^ 31.

(** [h << 5]. *)
Definition shl5 (h : Z) : Z := to_int32 (to_int32 h * 2 ^ 5).

(** [pid.charCodeAt(i)], for an id of one-byte characters. *)
Definition charCode (c : Ascii.ascii) : Z := Z.of_nat (Ascii.nat_of_ascii c).

(** The loop [h = ((h << 5) - h) + pid.charCodeAt(i)]; the subtraction and
    the addition are those of numbers, exact far beyond the length of an
    id. *)
Fixpoint hash_from (h : Z) (pid : string) : Z :=
  match pid with
  | EmptyString => h
  | String c rest => hash_from ((shl5 h - h) + charCode c) rest
  end.

(** [colorForPid]; [None] would be [undefined]. *)
Definition colorForPid (pid : string) : option string :=
  if String.eqb pid "IDLE" then Some idle_colour
  else
    let h := hash_from 0 pid in
    let idx := Z.abs h mod Z.of_nat (length COLORS) in
    COLORS !! Z.to_nat idx.

(** *** The process table *)

(** The rows of [ProcessTable]: [processes.slice().sort(by("arrival"))]. *)
Definition table_rows (processes : list Process) : list Process :=
  sort_by (by_ arrival) processes.

(** *** The controls *)

(** The options of the policy selector. *)
Inductive algo_option : Type := OptFCFS | OptSJF | OptPRIORITY | OptRR.

Definition option_value (o : algo_option) : string :=
  match o with
  | OptFCFS => "FCFS"
  | OptSJF => "SJF"
  | OptPRIORITY => "PRIORITY"
  | OptRR => "RR"
  end.

(** The state of the page that [Controls] sets. *)
Record Controls : Type := mkControls { c_algo : string; c_quantum : Z; c_speed : Z }.

Definition controls_initial : Controls := mkControls "FCFS" 2 200.

(** What the user does to the controls: the selector hands over the value
    of an option, the quantum field is clamped to 1..1000 and the speed
    field to 50..2000. *)
Inductive control_event : Type :=
  | SelectAlgo (o : algo_option)
  | TypeQuantum (v : jsnum)
  | TypeSpeed (v : jsnum).

Definition control (c : Controls) (e : control_event) : Controls :=
  match e with
  | SelectAlgo o => mkControls (option_value o) (c_quantum c) (c_speed c)
  | TypeQuantum v => mkControls (c_algo c) (clampInt v 1 1000) (c_speed c)
  | TypeSpeed v => mkControls (c_algo c) (c_quantum c) (clampInt v 50 2000)
  end.

Definition controls_after (events : list control_event) : Controls :=
  foldl control controls_initial events.

(** The period of the timer, [Math.max(50, speed)]. *)
Definition timer_period (speed : Z) : Z := Z.max 50 speed.

(** [canPlay]: there are segments and ticks. *)
Definition canPlay (b : Build) : bool :=
  (0 <? length (b_segments b))%nat && (0 <? length (b_ticks b))%nat.

(** ** Vocabulary of the further properties *)

(** No segment of a process starts before the process arrives. *)
Definition punctual (ps : list Process) (segs : list Segment) : Prop :=
  forall s, s ∈ segs -> pid s <> IDLE ->
    exists p, p ∈ ps /\ pid s = id p /\ arrival p <= start s.

(** Every segment of a process lasts between one unit and the quantum. *)
Definition sliced (q : Z) (segs : list Segment) : Prop :=
  forall s, s ∈ segs -> pid s <> IDLE -> 1 <= end_ s - start s <= q.

(** What the loop of SJF and priority keeps beside [np_inv]: the ready
    processes have arrived, and the segments are punctual. *)
Definition np_arrived (remaining : list Process) (st : np_state) : Prop :=
  (forall p, p ∈ np_ready st -> p ∈ remaining /\ arrival p <= np_time st) /\
  punctual remaining (np_segments st).

(** What the loop of round robin keeps beside [rr_inv]: the queued processes
    have arrived, the segments are punctual and within the quantum. *)
Definition rr_arrived (procs : list Process) (q : Z) (st : rr_state) : Prop :=
  (forall p, p ∈ rr_queue st -> arrival p <= rr_time st) /\
  punctual procs (rr_segments st) /\
  sliced q (rr_segments st).

(** The ticks that a segment list stands for: the id of every segment, as
    many times as the segment lasts. *)
Fixpoint expand (segs : list Segment) : list string :=
  match segs with
  | [] => []
  | s :: segs' => replicate (Z.to_nat (end_ s - start s)) (pid s) ++ expand segs'
  end.


(** A state of round robin in which the loop goes on and every process that
    is not finished has burst left on record. *)
Definition rr_fed (procs : list Process) (st : rr_state) : Prop :=
  rr_cond procs st = true /\
  forall p, p ∈ rr_live procs st ->
    exists r, rr_remainingBurst st !! id p = Some r /\ 1 <= r.

(** A segment of a process that is shorter than the quantum is the last
    segment of that process. *)
Definition short_is_last (q : Z) (segs : list Segment) : Prop :=
  forall (i j : nat) si sj, (i < j)%nat ->
    segs !! i = Some si -> segs !! j = Some sj ->
    pid si <> IDLE -> end_ si - start si < q -> pid sj <> pid si.

(** In the loop of round robin, a process with a segment shorter than the
    quantum is finished. *)
Definition rr_short_done (procs : list Process) (q : Z) (st : rr_state) : Prop :=
  short_is_last q (rr_segments st) /\
  forall s, s ∈ rr_segments st -> pid s <> IDLE -> end_ s - start s < q ->
    pid s ∉ id <$> rr_live procs st.

(** What the four policies have in common on a well-formed process set: the
    segments are a chain from 0 and the timeline of the set, they conserve
    the bursts, and no process runs before it arrives. *)
Definition schedule_of (ps : list Process) (segs : list Segment) : Prop :=
  chain 0 segs /\ timeline_of ps segs /\ conserved_named ps segs /\ punctual ps segs.

(** The finish time of every process, as [computeMetrics] reads it, is no
    earlier than its arrival plus its burst and no later than the makespan. *)
Definition finishes_after_work (ps : list Process) (segs : list Segment) : Prop :=
  forall p, p ∈ ps -> id p <> IDLE ->
    arrival p + burst p <= finish_last (id p) segs <= makespan segs.

(** The order of [schedulePriority]: the priority number, then the arrival,
    then the burst.  [before a b]: [a] goes strictly before [b]. *)
Definition rank (p : Process) : Z * Z * Z := (priority p, arrival p, burst p).

Definition before (a b : Process) : Prop :=
  priority a < priority b \/
  (priority a = priority b /\
   (arrival a < arrival b \/ (arrival a = arrival b /\ burst a < burst b))).

Definition not_after (a b : Process) : Prop := before a b \/ rank a = rank b.

(** The ready processes of equal rank are in the order in which they stand
    in the arrival-sorted array. *)
Definition equal_ranks_in_array_order (remaining : list Process) (st : np_state) : Prop :=
  forall v,
    filter (fun p => rank p = v) (np_ready st)
    `sublist_of` filter (fun p => rank p = v) (take (np_i st) remaining).

(** The names of the four policies, as [buildSchedule] knows them. *)
Definition known_policy (algo : string) : bool :=
  String.eqb algo "FCFS" || String.eqb algo "SJF"
  || String.eqb algo "PRIORITY" || String.eqb algo "RR".

(** What [buildSchedule] stores for a segment list: its ticks are its
    expansion, one per unit of the makespan; the cursor is at 0 and the
    playback stopped. *)
Definition built_from (segs : list Segment) (b : Build) : Prop :=
  b = mkBuild segs (expand segs) 0 false /\
  Z.of_nat (length (expand segs)) = makespan segs.

(** The ids of the segments that are runs, in the order of the segments. *)
Definition service_order (segs : list Segment) : list string :=
  pid <$> filter (fun s => pid s <> IDLE) segs.

(** A process as the form makes it: a non-empty id and numbers within the
    bounds of the fields. *)
Definition in_bounds (p : Process) : Prop :=
  id p <> ""%string /\ 0 <= arrival p <= 9999 /\ 1 <= burst p <= 9999
  /\ 1 <= priority p <= 9999.

Definition form_ok (f : Form) : Prop :=
  0 <= f_arrival f <= 9999 /\ 1 <= f_burst f <= 9999 /\ 1 <= f_priority f <= 9999.

(** The invariant of the page. *)
Definition page_ok (a : App) : Prop :=
  NoDup (id <$> a_processes a) /\ Forall in_bounds (a_processes a) /\ form_ok (a_form a).


(** The makespan is the work and the idle time. *)
Definition work_and_idle (ps : list Process) (segs : list Segment) : Prop :=
  makespan segs = Zsum (burst <$> ps) + dur IDLE segs.

(** The processor idles only when there is nothing to run: an idle segment
    ends at the arrival of a process, and every process that arrives before
    that end has run in full before the segment. *)
Definition idle_when_empty (ps : list Process) (segs : list Segment) : Prop :=
  forall (j : nat) s, segs !! j = Some s -> pid s = IDLE ->
    (exists p, p ∈ ps /\ arrival p = end_ s) /\
    forall p, p ∈ ps -> arrival p < end_ s -> dur (id p) (take j segs) = burst p.

(** The invariant of the controls: one of the four policies is selected,
    and the quantum and the speed are within the bounds of their fields. *)
Definition controls_ok (c : Controls) : Prop :=
  known_policy (c_algo c) = true /\ 1 <= c_quantum c <= 1000 /\ 50 <= c_speed c <= 2000.

(** The time and the segments of first come, first served after the first
    [m] processes of the array. *)
Definition fcfs_after (procs : list Process) (m : nat) : Z * list Segment :=
  foldl fcfs_body (0, []) (take m procs).

(** Round robin in step with first come, first served: the first [m]
    processes have run, in full and as FCFS runs them, the queue holds the
    scanned processes from the [m]-th on, none of which has run; right after
    an idle jump the idle segment that FCFS puts before the [m]-th process
    is there already. *)
Definition rr_as_fcfs (procs : list Process) (st : rr_state) : Prop :=
  exists m : nat,
    (m <= rr_i st)%nat /\
    rr_queue st = drop m (take (rr_i st) procs) /\
    (forall p, p ∈ rr_live procs st -> rr_remainingBurst st !! id p = Some (burst p)) /\
    ((rr_time st, rr_segments st) = fcfs_after procs m \/
     exists r,
       procs !! m = Some r /\ fst (fcfs_after procs m) < arrival r /\
       rr_time st = arrival r /\
       rr_segments st
       = snd (fcfs_after procs m) ++ [idle_seg (fst (fcfs_after procs m)) (arrival r)]).

(** Under round robin a process has as many runs as quanta are needed for
    its burst. *)
Definition slices_counted (q : Z) (ps : list Process) (segs : list Segment) : Prop :=
  forall p, p ∈ ps -> id p <> IDLE ->
    Z.of_nat (occ (id p) segs) = (burst p + q - 1) / q.

(** ** The engine on numbers

    The times of the engine are JavaScript numbers: binary64 values that
    hold integers.  The definitions above add and subtract them as integers,
    which is what the code does as long as no sum passes [2^53 - 1], the
    largest safe integer.  The definitions of [Binary64] follow the code
    number by number: a sum is the binary64 sum of its operands ([SFadd]),
    a difference the binary64 difference ([SFsub]), both rounded to nearest
    with ties to even, and read back as the integer they hold.  Comparisons
    and [Math.min] are exact on numbers and stay as they are. *)

Definition max_safe : Z := 2 ^ 53 - 1.

(** The integer that a number holds.  An infinity is held as [2^1024] with
    its sign, the least power of two that is no number: [Z2F] makes an
    infinity of it again, and it compares with the integers as an infinity
    does with the numbers.  (A number that is not an integer has its
    integral part, and NaN has 0; sums and differences of integers are
    neither.) *)
Definition F2Z (x : spec_float) : Z :=
  match x with
  | S754_finite s m e =>
      cond_Zopp s (if 0 <=? e then Z.pos m * 2 ^ e else Z.pos m / 2 ^ (- e))
  | S754_infinity s => cond_Zopp s (2 ^ emax)
  | _ => 0
  end.

(** [x + y] and [x - y] on numbers. *)
Definition num_add (x y : Z) : Z := F2Z (SFadd prec emax (Z2F x) (Z2F y)).
Definition num_sub (x y : Z) : Z := F2Z (SFsub prec emax (Z2F x) (Z2F y)).

(** [shl v k]: the mantissa [v] with [k] zeros after it. *)
Definition shl (v : positive) (k : Z) : positive :=
  match k with Zpos p => Pos.iter xO v p | _ => v end.

(** The number of a positive integer [v] below [2^53], with the sign [s]:
    its mantissa has 53 bits. *)
Definition canon (s : bool) (v : positive) : spec_float :=
  S754_finite s (shl v (53 - Z.pos (digits2_pos v))) (Z.pos (digits2_pos v) - 53).

(** The names that an object literal inherits from [Object.prototype]. *)
Definition prototype_names : list string :=
  ["__proto__"; "constructor"; "hasOwnProperty"; "isPrototypeOf";
   "propertyIsEnumerable"; "toLocaleString"; "toString"; "valueOf";
   "__defineGetter__"; "__defineSetter__"; "__lookupGetter__";
   "__lookupSetter__"]%string.

Module Binary64.

(** *** First come, first served *)

Definition fcfs_body (st : Z * list Segment) (p : Process) : Z * list Segment :=
  let '(time, segments) := st in
  let '(time, segments) :=
    if time <? arrival p
    then (arrival p, segments ++ [idle_seg time (arrival p)])
    else (time, segments) in
  (num_add time (burst p), segments ++ [run_seg p time (num_add time (burst p))]).

Definition scheduleFCFS (processes : list Process) : list Segment :=
  let procs := sort_by (by_ arrival) (deepClone processes) in
  snd (foldl fcfs_body (0, []) procs).

(** *** Shortest job first and priority *)

Section NonPreemptive.
Variable cmp : Process -> Process -> Z.
Variable remaining : list Process.

Definition np_step (st : np_state) : step_result np_state :=
  let '(ready, i) := enqueueArrivals remaining (np_time st) (np_ready st) (np_i st) in
  let time := np_time st in
  let segments := np_segments st in
  match ready with
  | [] =>
      match remaining !! i with
      | None => StepThrow
      | Some r =>
          let nextArrival := arrival r in
          Continue (mkNp i ready nextArrival (segments ++ [idle_seg time nextArrival]))
      end
  | _ :: _ =>
      match sort_by cmp ready with
      | [] => StepThrow
      | p :: ready' =>
          Continue (mkNp i ready' (num_add time (burst p))
                      (segments ++ [run_seg p time (num_add time (burst p))]))
      end
  end.

Definition np_run : outcome (list Segment) :=
  outcome_map np_segments
    (while_loop (np_cond remaining) np_step (np_fuel remaining) np_init).
End NonPreemptive.

Definition scheduleSJF (processes : list Process) : outcome (list Segment) :=
  let remaining := sort_by (by_ arrival) (deepClone processes) in
  np_run (by_ burst) remaining.

Definition schedulePriority (processes : list Process) : outcome (list Segment) :=
  let remaining := sort_by (by_ arrival) (deepClone processes) in
  np_run cmp_priority remaining.

(** *** Round robin *)

Section RoundRobin.
Variable procs : list Process.
Variable q : Z.

Definition rr_step (st : rr_state) : step_result rr_state :=
  let time := rr_time st in
  let segments := rr_segments st in
  match rr_queue st with
  | [] =>
      match procs !! rr_i st with
      | None => StepThrow
      | Some r =>
          let nextArrival := arrival r in
          let segments :=
            if time <? nextArrival
            then segments ++ [idle_seg time nextArrival] else segments in
          let '(queue, i) := enqueueArrivals procs nextArrival [] (rr_i st) in
          Continue (mkRr queue i nextArrival (rr_remainingBurst st) segments)
      end
  | current :: queue =>
      match rr_remainingBurst st !! id current with
      | None => StepNaN
      | Some rem =>
          let slice := Z.min q rem in
          let segments := segments ++ [run_seg current time (num_add time slice)] in
          let time := num_add time slice in
          let '(queue, i) := enqueueArrivals procs time queue (rr_i st) in
          let newRem := num_sub rem slice in
          if 0 <? newRem
          then Continue (mkRr (queue ++ [current]) i time
                           (<[id current := newRem]> (rr_remainingBurst st)) segments)
          else Continue (mkRr queue i time
                           (delete (id current) (rr_remainingBurst st)) segments)
      end
  end.

Definition rr_run : outcome (list Segment) :=
  outcome_map rr_segments
    (while_loop (rr_cond procs) rr_step (rr_fuel procs) (rr_init procs)).
End RoundRobin.

Definition scheduleRoundRobin (processes : list Process) (q : Z)
    : outcome (list Segment) :=
  let procs := sort_by (by_ arrival) (deepClone processes) in
  rr_run procs q.

(** *** Metrics *)

(** The object [finish]: its own properties, over the properties that it
    inherits.  An assignment of a number to [__proto__] is the inherited
    setter, which ignores it; an assignment to any other name makes an own
    property. *)
Definition finish_write (finish : gmap string Z) (k : string) (v : Z) : gmap string Z :=
  if bool_decide (k = "__proto__"%string) then finish else <[k := v]> finish.

Definition finish_object (segments : list Segment) : gmap string Z :=
  foldl (fun finish s =>
           if bool_decide (pid s = IDLE) then finish
           else finish_write finish (pid s) (end_ s)) ∅ segments.

(** [finish[k] ?? 0] as the subtraction takes it: the own property; without
    one, the inherited object or function, which is no number (NaN);
    without either, 0. *)
Definition finish_read (finish : gmap string Z) (k : string) : spec_float :=
  match finish !! k with
  | Some v => Z2F v
  | None => if bool_decide (k ∈ prototype_names) then S754_nan else Z2F 0
  end.

(** The body of the second [forEach], on the pair [(totalWT, totalTAT)]. *)
Definition totals_body (finish : gmap string Z) (acc : spec_float * spec_float)
    (p : Process) : spec_float * spec_float :=
  let '(totalWT, totalTAT) := acc in
  let tat := SFsub prec emax (finish_read finish (id p)) (Z2F (arrival p)) in
  let wt := SFsub prec emax tat (Z2F (burst p)) in
  (SFadd prec emax totalWT wt, SFadd prec emax totalTAT tat).

Definition metric_totals (processes : list Process) (segments : list Segment)
    : spec_float * spec_float :=
  foldl (totals_body (finish_object segments)) (Z2F 0, Z2F 0) processes.

Definition computeMetrics (processes : list Process) (segments : list Segment) : Metrics :=
  let '(totalWT, totalTAT) := metric_totals processes segments in
  let n := metrics_n processes in
  {| avgWaiting := to_number (toFixed2 (fdiv totalWT (Z2F n)));
     avgTurnaround := to_number (toFixed2 (fdiv totalTAT (Z2F n))) |}.

(** *** The orchestrator *)

Definition run_policy (algo : string) (quantum : Z) (sanitized : list Process)
    : outcome (list Segment) :=
  if String.eqb algo "FCFS" then Done (scheduleFCFS sanitized)
  else if String.eqb algo "SJF" then scheduleSJF sanitized
  else if String.eqb algo "PRIORITY" then schedulePriority sanitized
  else if String.eqb algo "RR" then scheduleRoundRobin sanitized (Z.max 1 quantum)
  else Done [].

Definition buildSchedule (algo : string) (quantum : Z) (processes : list Process)
    : outcome Build :=
  if (length processes =? 0)%nat then Done (mkBuild [] [] 0 false)
  else
    let sanitized := mergeSamePid processes in
    outcome_map (fun segs => mkBuild segs (segmentsToTicks segs) 0 false)
      (run_policy algo quantum sanitized).

End Binary64.

(** ** Vocabulary of the properties on numbers *)

(** The latest arrival of a process set, 0 for the empty set. *)
Definition latest_arrival (ps : list Process) : Z := foldr Z.max 0 (arrival <$> ps).

(** No time of any schedule of the set passes the largest safe integer: the
    latest arrival and all the bursts together stay within it. *)
Definition safe_times (ps : list Process) : Prop :=
  latest_arrival ps + Zsum (burst <$> ps) <= max_safe.

(** No process bears a name that an object inherits. *)
Definition plain_ids (ps : list Process) : Prop :=
  Forall (fun p => id p ∉ prototype_names) ps.

(** The largest magnitude among the ends of the segments and the arrivals
    and bursts of the processes. *)
Definition magnitude (processes : list Process) (segments : list Segment) : Z :=
  foldr Z.max 0
    (Z.abs <$> ((end_ <$> segments) ++ (arrival <$> processes) ++ (burst <$> processes))).

(** No total of the metrics passes the largest safe integer: a waiting time
    is at most three magnitudes, and there is one per process. *)
Definition safe_metrics (processes : list Process) (segments : list Segment) : Prop :=
  3 * magnitude processes segments * Z.of_nat (length processes) <= max_safe.

(** The same for the schedules of the set, whose ends are at most the latest
    arrival and all the bursts together. *)
Definition safe_totals (ps : list Process) : Prop :=
  3 * (latest_arrival ps + Zsum (burst <$> ps)) * Z.max 1 (Z.of_nat (length ps))
  <= max_safe.

(** [run_through cond body st rounds st']: the loop [while (cond) body]
    started in [st] goes through the rounds that start in the states
    [rounds], in this order, and stops in [st']. *)
Inductive run_through {St : Type} (cond : St -> bool) (body : St -> step_result St)
    : St -> list St -> St -> Prop :=
  | run_stop st : cond st = false -> run_through cond body st [] st
  | run_round st st1 rounds st' :
      cond st = true -> body st = Continue st1 ->
      run_through cond body st1 rounds st' ->
      run_through cond body st (st :: rounds) st'.

(** The state before and the state after every round of a run. *)
Definition round_of {St : Type} (states : list St) (st st' : St) : Prop :=
  exists j : nat, states !! j = Some st /\ states !! S j = Some st'.

(** [np_within A remaining st]: in the loop of SJF and priority no ready
    process has a negative burst, and the time, also with the bursts still
    to run, is within the latest arrival [A] and all the bursts together. *)
Definition np_within (A : Z) (remaining : list Process) (st : np_state) : Prop :=
  Forall (fun p => 0 <= burst p) (np_ready st) /\
  0 <= np_time st /\
  np_time st + Zsum (burst <$> (np_ready st ++ drop (np_i st) remaining))
  <= A + Zsum (burst <$> remaining).

(** The same for round robin, with the bursts that are left. *)
Definition rr_within (A : Z) (procs : list Process) (st : rr_state) : Prop :=
  0 <= rr_time st /\
  rr_left procs st <= Zsum (burst <$> procs) /\
  rr_time st + rr_left procs st <= A + Zsum (burst <$> procs).

Module Binary64Spec.

(** [every_policy R ps q]: each of the four policies returns a segment list,
    and [R] relates the process set to it. *)
Definition every_policy (R : list Process -> list Segment -> Prop)
    (ps : list Process) (q : Z) : Prop :=
  R ps (Binary64.scheduleFCFS ps) /\
  (exists segs, Binary64.scheduleSJF ps = Done segs /\ R ps segs) /\
  (exists segs, Binary64.schedulePriority ps = Done segs /\ R ps segs) /\
  (exists segs, Binary64.scheduleRoundRobin ps q = Done segs /\ R ps segs).

(** The same for the three policies that do not preempt. *)
Definition every_nonpreemptive (R : list Process -> list Segment -> Prop)
    (ps : list Process) : Prop :=
  R ps (Binary64.scheduleFCFS ps) /\
  (exists segs, Binary64.scheduleSJF ps = Done segs /\ R ps segs) /\
  (exists segs, Binary64.schedulePriority ps = Done segs /\ R ps segs).


(** The finish time that [computeMetrics] reads for a process is the number
    of an integer that is no earlier than its arrival plus its burst and no
    later than the makespan. *)
Definition finishes_after_work (ps : list Process) (segs : list Segment) : Prop :=
  forall p, p ∈ ps -> id p <> IDLE ->
    exists f,
      Binary64.finish_read (Binary64.finish_object segs) (id p) = Z2F f /\
      arrival p + burst p <= f <= makespan segs.

(** The totals of [computeMetrics] on a schedule are the numbers of safe
    integers: no negative waiting, and the turnaround is the waiting and the
    work. *)
Definition totals_of_work (ps : list Process) (segs : list Segment) : Prop :=
  exists wt tat,
    Binary64.metric_totals ps segs = (Z2F wt, Z2F tat) /\
    0 <= wt /\ tat = wt + Zsum (burst <$> ps) /\ tat <= max_safe.

End Binary64Spec.

(** What a round of the loop of SJF and priority does when all is well:
    the pending index does not move back, the time moves forward and the
    variant goes down. *)
Definition np_progress (remaining : list Process) (st st' : np_state) : Prop :=
  (np_i st <= np_i st')%nat /\ np_time st < np_time st' /\
  (np_mu remaining st' < np_mu remaining st)%nat.

(** The same for a round of round robin. *)
Definition rr_progress (procs : list Process) (st st' : rr_state) : Prop :=
  (rr_i st <= rr_i st')%nat /\ rr_time st < rr_time st' /\
  (rr_mu procs st' < rr_mu procs st)%nat.

(** The loop of SJF and priority terminates with [result]: it has a run,
    [result] is the segment list in which the run stops, the loop gets there
    within its fuel and with any larger fuel, and every round of the run
    makes progress. *)
Definition np_terminates (cmp : Process -> Process -> Z) (remaining : list Process)
    (result : outcome (list Segment)) : Prop :=
  exists rounds st_end,
    run_through (np_cond remaining) (Binary64.np_step cmp remaining)
      np_init rounds st_end /\
    result = Done (np_segments st_end) /\
    (forall fuel, (np_fuel remaining <= fuel)%nat ->
       while_loop (np_cond remaining) (Binary64.np_step cmp remaining) fuel np_init
       = Done st_end) /\
    forall st st', round_of (rounds ++ [st_end]) st st' -> np_progress remaining st st'.

(** The same for the loop of round robin. *)
Definition rr_terminates (procs : list Process) (q : Z)
    (result : outcome (list Segment)) : Prop :=
  exists rounds st_end,
    run_through (rr_cond procs) (Binary64.rr_step procs q)
      (rr_init procs) rounds st_end /\
    result = Done (rr_segments st_end) /\
    (forall fuel, (rr_fuel procs <= fuel)%nat ->
       while_loop (rr_cond procs) (Binary64.rr_step procs q) fuel (rr_init procs)
       = Done st_end) /\
    forall st st', round_of (rounds ++ [st_end]) st st' -> rr_progress procs st st'.

(** Two processes whose bursts add up to [2^53 + 1], which is no number. *)
Definition beyond_safe : list Process := [P "A" 0 (2 ^ 53) 0; P "B" 0 1 0].

(** The same, the second process arriving while the first one runs. *)
Definition beyond_safe_late : list Process := [P "A" 0 (2 ^ 53) 0; P "B" 1 1 0].

(** A process that bears a name that an object inherits, without a segment;
    a process named [__proto__]; and three processes whose waiting times add
    up to [-(2^53) - 2], which is no sum of numbers taken one by one. *)
Definition inherited_name : list Process := [P "toString" 0 4 0].
Definition proto_name : list Process := [P "__proto__" 0 4 0].
Definition beyond_safe_totals : list Process :=
  [P "A" 0 (2 ^ 53) 0; P "B" 0 1 0; P "C" 0 1 0].

(** The exact totals of waiting and turnaround times: the finish time of a
    process is the end of its last segment. *)
Definition exact_totals (processes : list Process) (segments : list Segment) : Z * Z :=
  totals_with (fun k => finish_last k segments) processes.



(** * Scenarios *)

Example scenario1 : scheduleFCFS demo
  = [mkSegment "P1" 0 4; mkSegment "P2" 4 7; mkSegment "P3" 7 13].
Proof. reflexivity. Qed.

Example scenario2 : scheduleSJF demo
  = Done [mkSegment "P1" 0 4; mkSegment "P2" 4 7; mkSegment "P3" 7 13].
Proof. reflexivity. Qed.

Example scenario3 : schedulePriority demo
  = Done [mkSegment "P1" 0 4; mkSegment "P2" 4 7; mkSegment "P3" 7 13].
Proof. reflexivity. Qed.

Example scenario4 : scheduleRoundRobin demo 2
  = Done [mkSegment "P1" 0 2; mkSegment "P2" 2 4; mkSegment "P3" 4 6;
          mkSegment "P1" 6 8; mkSegment "P2" 8 9; mkSegment "P3" 9 11;
          mkSegment "P3" 11 13].
Proof. vm_compute. reflexivity. Qed.

(** A late first arrival and a gap between two processes: both are idle
    segments. *)
Example idle_gaps :
  scheduleRoundRobin [P "A" 2 3 1; P "B" 10 1 1] 2
  = Done [mkSegment "IDLE" 0 2; mkSegment "A" 2 4; mkSegment "A" 4 5;
          mkSegment "IDLE" 5 10; mkSegment "B" 10 11].
Proof. vm_compute. reflexivity. Qed.

(** Priority: the lower value wins among the ready processes, and a process
    that is running is not preempted. *)
Example priority_order :
  schedulePriority [P "A" 0 5 3; P "B" 1 2 2; P "C" 2 1 1]
  = Done [mkSegment "A" 0 5; mkSegment "C" 5 6; mkSegment "B" 6 8].
Proof. reflexivity. Qed.

(** Scenario 5: the metrics of [P1:0-4, P2:4-7]. *)
Example scenario5 :
  computeMetrics [P "P1" 0 4 2; P "P2" 1 3 1] [mkSegment "P1" 0 4; mkSegment "P2" 4 7]
  = mkMetrics (fdiv (Z2F 3) (Z2F 2)) (Z2F 5).
Proof. vm_compute. reflexivity. Qed.

(** * Proofs *)

(** ** The loops *)

Section WhileLoop.
Context {St : Type}.
Variable cond : St -> bool.
Variable body : St -> step_result St.

(** The invariant rule with a variant: a loop whose body keeps [I] and
    lowers [mu] finishes, within [mu] rounds, in a state where [I] holds and
    the test fails. *)
Lemma while_loop_total (I : St -> Prop) (mu : St -> nat) :
  (forall st, I st -> cond st = true ->
     exists st', body st = Continue st' /\ I st' /\ (mu st' < mu st)%nat) ->
  forall fuel st, I st -> (mu st <= fuel)%nat ->
  exists st', while_loop cond body fuel st = Done st' /\ I st' /\ cond st' = false.
Proof.
  intros Hstep fuel. induction fuel as [|fuel IH]; intros st HI Hmu.
  - destruct (cond st) eqn:Hc.
    + destruct (Hstep st HI Hc) as (st' & _ & _ & Hlt). lia.
    + exists st. simpl. rewrite Hc. auto.
  - simpl. destruct (cond st) eqn:Hc.
    + destruct (Hstep st HI Hc) as (st' & Hb & HI' & Hlt).
      rewrite Hb. apply IH; [done | lia].
    + exists st. auto.
Qed.

(** More fuel does not change a result. *)
Lemma while_loop_more_fuel fuel fuel' st r :
  while_loop cond body fuel st = Done r -> (fuel <= fuel')%nat ->
  while_loop cond body fuel' st = Done r.
Proof.
  revert fuel' st. induction fuel as [|fuel IH]; intros fuel' st Hrun Hle.
  - simpl in Hrun. destruct (cond st) eqn:Hc; [discriminate|].
    destruct fuel'; simpl; by rewrite Hc.
  - destruct fuel' as [|fuel']; [lia|].
    simpl in *. destruct (cond st); [|done].
    destruct (body st); try discriminate.
    apply IH; [done | lia].
Qed.
End WhileLoop.

(** ** Sorting *)

Section SortFacts.
Context {A : Type}.
Variable cmp : A -> A -> Z.

Lemma sort_insert_perm x l : sort_insert cmp x l ≡ₚ x :: l.
Proof.
  induction l as [|y l IH]; simpl; [done|].
  destruct (cmp x y <=? 0); [done|].
  rewrite IH. apply Permutation_swap.
Qed.

Lemma sort_by_perm l : sort_by cmp l ≡ₚ l.
Proof.
  induction l as [|x l IH]; simpl; [done|].
  by rewrite sort_insert_perm, IH.
Qed.

Lemma sort_by_length l : length (sort_by cmp l) = length l.
Proof. by rewrite sort_by_perm. Qed.

Lemma sort_by_nil_inv l : sort_by cmp l = [] -> l = [].
Proof.
  intros H. apply (f_equal length) in H. rewrite sort_by_length in H.
  by destruct l.
Qed.
End SortFacts.

Section SortOnKey.
Context (k : Process -> Z).

Lemma by_le a b : by_ k a b <= 0 <-> k a <= k b.
Proof.
  unfold by_. destruct (Z.eqb_spec (k a) (k b)); [lia|].
  destruct (Z.ltb_spec (k a) (k b)); lia.
Qed.

Lemma sort_insert_sorted x l :
  StronglySorted (fun a b => k a <= k b) l ->
  StronglySorted (fun a b => k a <= k b) (sort_insert (by_ k) x l).
Proof.
  induction 1 as [|y l Hl IH Hy]; simpl.
  - repeat constructor.
  - destruct (Z.leb_spec (by_ k x y) 0) as [Hle|Hgt].
    + apply by_le in Hle. constructor; [by constructor|].
      constructor; [done|].
      eapply Forall_impl; [exact Hy|]. simpl. intros; lia.
    + assert (k y < k x) by (pose proof (by_le x y); lia).
      constructor; [done|].
      rewrite sort_insert_perm. constructor; [lia | done].
Qed.

Lemma sort_by_sorted l :
  StronglySorted (fun a b => k a <= k b) (sort_by (by_ k) l).
Proof.
  induction l as [|x l IH]; simpl; [constructor|].
  by apply sort_insert_sorted.
Qed.

Lemma strongly_sorted_on (l : list Process) :
  StronglySorted (fun a b => k a <= k b) l -> sorted_on k l.
Proof.
  induction 1 as [|x l Hl IH Hx]; intros i j a b Hij Hi Hj.
  - by rewrite lookup_nil in Hi.
  - destruct i as [|i], j as [|j]; simpl in *; try lia.
    + simplify_eq. lia.
    + simplify_eq. rewrite Forall_forall in Hx.
      apply Hx. by eapply list_elem_of_lookup_2.
    + eapply IH; [|done..]. lia.
Qed.

Lemma sort_by_sorted_on l : sorted_on k (sort_by (by_ k) l).
Proof. apply strongly_sorted_on, sort_by_sorted. Qed.
End SortOnKey.

(** ** Segment lists *)

Lemma end_from_snoc t segs s : end_from t (segs ++ [s]) = end_ s.
Proof. unfold end_from. by rewrite last_snoc. Qed.

Lemma end_from_nil t : end_from t [] = t.
Proof. done. Qed.

Lemma end_from_cons t s segs : end_from t (s :: segs) = end_from (end_ s) segs.
Proof.
  unfold end_from. destruct segs as [|s' segs]; [by simpl|].
  rewrite last_cons_cons, last_cons. by destruct (last segs).
Qed.

Lemma chain_snoc t segs s :
  chain t segs -> start s = end_from t segs -> start s < end_ s ->
  chain t (segs ++ [s]).
Proof.
  revert t. induction segs as [|s0 segs IH]; intros t Hc Hs Hlt; simpl in *.
  - rewrite end_from_nil in Hs. auto.
  - destruct Hc as (? & ? & Hc). rewrite end_from_cons in Hs.
    repeat split; [done..|]. by apply IH.
Qed.

Lemma chain_start_ge t segs (j : nat) sj :
  chain t segs -> segs !! j = Some sj -> t <= start sj.
Proof.
  revert t j. induction segs as [|s segs IH]; intros t j Hc Hj.
  - by rewrite lookup_nil in Hj.
  - destruct Hc as (Hs & Hlt & Hc). destruct j as [|j]; simpl in Hj.
    + simplify_eq. lia.
    + specialize (IH _ _ Hc Hj). lia.
Qed.

Lemma chain_end_ge t segs : chain t segs -> t <= end_from t segs.
Proof.
  revert t. induction segs as [|s segs IH]; intros t Hc.
  - rewrite end_from_nil. lia.
  - destruct Hc as (Hs & Hlt & Hc). rewrite end_from_cons.
    specialize (IH _ Hc). lia.
Qed.

Lemma chain_positive t segs : chain t segs -> Forall (fun s => start s < end_ s) segs.
Proof.
  revert t. induction segs as [|s segs IH]; intros t Hc; [constructor|].
  destruct Hc as (Hs & Hlt & Hc). constructor; eauto.
Qed.

(** A chain from 0 is a contiguous partition. *)
Lemma chain_partition segs : chain 0 segs -> contiguous_partition segs.
Proof.
  intros Hc. repeat split.
  - revert Hc. generalize 0. induction segs as [|s segs IH]; intros t Hc i j si sj Hij Hi Hj.
    + by rewrite lookup_nil in Hi.
    + destruct Hc as (Hs & Hlt & Hc).
      destruct i as [|i], j as [|j]; simpl in *; try lia.
      * simplify_eq. lia.
      * simplify_eq. pose proof (chain_start_ge _ _ _ _ Hc Hj). lia.
      * eapply (IH _ Hc i j); [lia|done..].
  - revert Hc. generalize 0. induction segs as [|s segs IH]; intros t Hc i s1 s2 H1 H2.
    + by rewrite lookup_nil in H1.
    + destruct Hc as (Hs & Hlt & Hc). destruct i as [|i]; simpl in *.
      * simplify_eq. destruct segs as [|s3 segs]; simplify_eq/=.
        by destruct Hc as (-> & _).
      * by eapply IH.
  - by eapply chain_positive.
  - intros s Hs. destruct segs; simplify_eq/=. by destruct Hc.
Qed.

Lemma Zsum_app l1 l2 : Zsum (l1 ++ l2) = Zsum l1 + Zsum l2.
Proof. unfold Zsum. induction l1; simpl; lia. Qed.

Lemma Zsum_perm l1 l2 : l1 ≡ₚ l2 -> Zsum l1 = Zsum l2.
Proof. unfold Zsum. induction 1; simpl; lia. Qed.

Lemma segs_of_snoc k segs s :
  segs_of k (segs ++ [s]) = segs_of k segs ++ (if decide (pid s = k) then [s] else []).
Proof.
  unfold segs_of. rewrite filter_app. by f_equal.
Qed.

Lemma dur_snoc k segs s :
  dur k (segs ++ [s]) = dur k segs + (if decide (pid s = k) then end_ s - start s else 0).
Proof.
  unfold dur. rewrite segs_of_snoc, fmap_app, Zsum_app.
  destruct (decide (pid s = k)); simpl; lia.
Qed.

Lemma occ_snoc k segs s :
  occ k (segs ++ [s]) = (occ k segs + (if decide (pid s = k) then 1 else 0))%nat.
Proof.
  unfold occ. rewrite segs_of_snoc, length_app.
  by destruct (decide (pid s = k)).
Qed.

Lemma runs_of_snoc k runs r :
  runs_of k (runs ++ [r]) = runs_of k runs ++ (if decide (id (fst r) = k) then [r] else []).
Proof.
  unfold runs_of. rewrite filter_app. by f_equal.
Qed.

(** What the log says about the segments of an id other than the idle
    sentinel: their total duration and their number. *)
Lemma accounts_dur runs segs k :
  accounts runs segs -> k <> IDLE -> dur k segs = Zsum (snd <$> runs_of k runs).
Proof.
  intros Hacc Hk. induction Hacc as [|runs segs a b _ IH|runs segs p a d _ IH].
  - done.
  - rewrite dur_snoc. simpl. destruct (decide (IDLE = k)); [congruence | lia].
  - rewrite dur_snoc, runs_of_snoc, fmap_app, Zsum_app. simpl.
    destruct (decide (id p = k)); simpl; lia.
Qed.

Lemma accounts_occ runs segs k :
  accounts runs segs -> k <> IDLE -> occ k segs = length (runs_of k runs).
Proof.
  intros Hacc Hk. induction Hacc as [|runs segs a b _ IH|runs segs p a d _ IH].
  - done.
  - rewrite occ_snoc. simpl. destruct (decide (IDLE = k)); [congruence | lia].
  - rewrite occ_snoc, runs_of_snoc, length_app. simpl.
    destruct (decide (id p = k)); simpl; lia.
Qed.

(** Every segment is an idle segment or the run of a logged process. *)
Lemma accounts_pid runs segs s :
  accounts runs segs -> s ∈ segs ->
  pid s = IDLE \/ exists r, r ∈ runs /\ pid s = id (fst r).
Proof.
  intros Hacc. induction Hacc as [|runs segs a b _ IH|runs segs p a d _ IH];
    intros Hs.
  - by apply elem_of_nil in Hs.
  - apply elem_of_app in Hs as [Hs|Hs]; [by apply IH|].
    apply list_elem_of_singleton in Hs as ->. by left.
  - apply elem_of_app in Hs as [Hs|Hs].
    + destruct (IH Hs) as [?|(r & Hr & ?)]; [by left|].
      right. exists r. split; [|done]. apply elem_of_app. by left.
    + apply list_elem_of_singleton in Hs as ->. right. exists (p, d).
      split; [|done]. apply elem_of_app. right. by apply list_elem_of_singleton.
Qed.


Lemma runs_of_full k l :
  runs_of k (full_runs l) = full_runs (filter (fun p => id p = k) l).
Proof.
  unfold runs_of, full_runs. induction l as [|p l IH]; [done|].
  rewrite fmap_cons, !filter_cons. simpl.
  destruct (decide (id p = k)); simpl; by rewrite IH.
Qed.

Lemma filter_id_none (ps : list Process) k :
  k ∉ id <$> ps -> filter (fun p' => id p' = k) ps = [].
Proof.
  induction ps as [|p0 ps IH]; intros Hk; [done|].
  rewrite fmap_cons in Hk. apply not_elem_of_cons in Hk as [Hne Hk].
  rewrite filter_cons. destruct (decide (id p0 = k)); [congruence|]. by apply IH.
Qed.

Lemma filter_id_unique (ps : list Process) p :
  NoDup (id <$> ps) -> p ∈ ps -> filter (fun p' => id p' = id p) ps = [p].
Proof.
  induction ps as [|p0 ps IH]; intros Hnd Hp.
  - by apply elem_of_nil in Hp.
  - rewrite fmap_cons in Hnd. apply NoDup_cons in Hnd as [Hnotin Hnd].
    rewrite filter_cons. apply elem_of_cons in Hp as [->|Hp].
    + destruct (decide (id p0 = id p0)); [|done]. f_equal.
      by apply filter_id_none.
    + destruct (decide (id p0 = id p)) as [Heq|Hne]; [|by apply IH].
      exfalso. apply Hnotin. rewrite Heq. by apply list_elem_of_fmap_2.
Qed.

(** A log that runs each process of a set with unique ids once and in full
    gives every id other than the idle sentinel one segment, as long as the
    burst. *)
Lemma full_runs_account ps procs segs p :
  NoDup (id <$> ps) -> procs ≡ₚ ps -> accounts (full_runs procs) segs ->
  p ∈ ps -> id p <> IDLE ->
  dur (id p) segs = burst p /\ occ (id p) segs = 1%nat.
Proof.
  intros Hnd Hperm Hacc Hp Hne.
  assert (Hf : filter (fun p' => id p' = id p) procs = [p]).
  { apply filter_id_unique; [by rewrite Hperm | by rewrite Hperm]. }
  split.
  - rewrite (accounts_dur _ _ _ Hacc Hne), runs_of_full, Hf. simpl. lia.
  - by rewrite (accounts_occ _ _ _ Hacc Hne), runs_of_full, Hf.
Qed.

(** ** First come, first served *)

Lemma full_runs_snoc l p : full_runs (l ++ [p]) = full_runs l ++ [(p, burst p)].
Proof. unfold full_runs. by rewrite fmap_app. Qed.

Lemma accounts_length runs segs : accounts runs segs -> (length runs <= length segs)%nat.
Proof. induction 1; rewrite ?length_app; simpl in *; lia. Qed.

Lemma fcfs_fold procs : forall t segs done,
  Forall (fun p => 1 <= burst p) procs ->
  chain 0 segs -> end_from 0 segs = t -> accounts (full_runs done) segs ->
  chain 0 (snd (foldl fcfs_body (t, segs) procs)) /\
  end_from 0 (snd (foldl fcfs_body (t, segs) procs)) = fst (foldl fcfs_body (t, segs) procs) /\
  accounts (full_runs (done ++ procs)) (snd (foldl fcfs_body (t, segs) procs)).
Proof.
  induction procs as [|p procs IH]; intros t segs done Hb Hc He Ha.
  - simpl. by rewrite app_nil_r.
  - apply Forall_cons in Hb as [Hp Hb]. simpl.
    replace (done ++ p :: procs) with ((done ++ [p]) ++ procs)
      by (by rewrite <- app_assoc).
    destruct (Z.ltb_spec t (arrival p)) as [Hlt|Hge].
    + apply IH; [done| | |].
      * apply chain_snoc; [|by rewrite end_from_snoc|simpl; lia].
        apply chain_snoc; [done|simpl; lia|simpl; lia].
      * by rewrite end_from_snoc.
      * rewrite full_runs_snoc. apply accounts_run. by apply accounts_idle.
    + apply IH; [done| | |].
      * apply chain_snoc; [done|simpl; lia|simpl; lia].
      * by rewrite end_from_snoc.
      * rewrite full_runs_snoc. by apply accounts_run.
Qed.

Lemma fcfs_spec ps :
  Forall (fun p => 1 <= burst p) ps ->
  chain 0 (scheduleFCFS ps) /\
  accounts (full_runs (sort_by (by_ arrival) ps)) (scheduleFCFS ps).
Proof.
  intros Hb. unfold scheduleFCFS, deepClone.
  destruct (fcfs_fold (sort_by (by_ arrival) ps) 0 [] []) as (Hc & _ & Ha);
    [by rewrite sort_by_perm|done|done|constructor|].
  done.
Qed.

(** ** The arrival scan *)

Lemma scan_arrivals_spec fuel procs t : forall queue (i : nat),
  (length procs - i <= fuel)%nat ->
  exists n : nat,
    scan_arrivals fuel procs t queue i = (queue ++ take n (drop i procs), (i + n)%nat) /\
    length (take n (drop i procs)) = n /\
    Forall (fun p => arrival p <= t) (take n (drop i procs)) /\
    (forall r, procs !! (i + n)%nat = Some r -> t < arrival r).
Proof.
  induction fuel as [|fuel IH]; intros queue i Hfuel.
  - exists 0%nat. simpl. rewrite take_0, app_nil_r, Nat.add_0_r.
    repeat split; [constructor|].
    intros r Hr. apply lookup_lt_Some in Hr. lia.
  - simpl. destruct (procs !! i) as [r|] eqn:Hi.
    + destruct (Z.leb_spec (arrival r) t) as [Hle|Hgt].
      * destruct (IH (queue ++ [r]) (S i)) as (n & Hscan & Hlen & Hall & Hstop); [lia|].
        exists (S n). rewrite Hscan, (drop_S _ _ _ Hi). simpl.
        rewrite <- app_assoc. simpl. replace (i + S n)%nat with (S i + n)%nat by lia.
        repeat split; [by rewrite Hlen | by constructor | done].
      * exists 0%nat. rewrite take_0, app_nil_r, Nat.add_0_r.
        repeat split; [constructor|]. intros r' Hr'. by simplify_eq.
    + exists 0%nat. rewrite take_0, app_nil_r, Nat.add_0_r.
      repeat split; [constructor|]. intros r' Hr'. by simplify_eq.
Qed.

Lemma enqueueArrivals_spec procs t queue (i : nat) :
  exists n : nat,
    enqueueArrivals procs t queue i = (queue ++ take n (drop i procs), (i + n)%nat) /\
    length (take n (drop i procs)) = n /\
    Forall (fun p => arrival p <= t) (take n (drop i procs)) /\
    (forall r, procs !! (i + n)%nat = Some r -> t < arrival r).
Proof. by apply scan_arrivals_spec. Qed.

(** Scanned processes leave the pending part and nothing else moves. *)
Lemma drop_take_drop {A : Type} (l : list A) (i n : nat) :
  drop i l = take n (drop i l) ++ drop (i + n) l.
Proof. by rewrite <- drop_drop, take_drop. Qed.

Lemma scanned_in_range {A : Type} (l : list A) (i n : nat) :
  (i <= length l)%nat -> length (take n (drop i l)) = n -> (i + n <= length l)%nat.
Proof. rewrite length_take, length_drop. lia. Qed.

(** ** Shortest job first and priority *)

Section NonPreemptiveFacts.
Variable cmp : Process -> Process -> Z.
Variable remaining : list Process.
Hypothesis bursts : Forall (fun p => 1 <= burst p) remaining.

Lemma np_init_inv : np_inv remaining np_init.
Proof.
  unfold np_inv, np_init. simpl. repeat split; [lia|].
  exists []. split; [constructor|]. by rewrite drop_0.
Qed.

Lemma np_init_mu : (np_mu remaining np_init <= np_fuel remaining)%nat.
Proof. unfold np_mu, np_fuel, np_init. simpl. lia. Qed.

(** One round: the body does not fail, keeps the invariant, lowers the
    variant, never moves the index back and moves the time forward. *)
Lemma np_step_spec st :
  np_inv remaining st -> np_cond remaining st = true ->
  exists st',
    np_step cmp remaining st = Continue st' /\
    np_inv remaining st' /\
    (np_mu remaining st' < np_mu remaining st)%nat /\
    (np_i st <= np_i st')%nat /\
    np_time st < np_time st' /\
    exists s, np_segments st' = np_segments st ++ [s].
Proof.
  destruct st as [i ready time segs].
  intros (Hi & Hc & He & done & Ha & Hperm) Hcond. simpl in *.
  unfold np_step, np_cond in *. simpl in *.
  destruct (enqueueArrivals_spec remaining time ready i)
    as (n & -> & Hlen & Harr & Hstop).
  pose proof (scanned_in_range _ _ _ Hi Hlen) as Hin.
  destruct (ready ++ take n (drop i remaining)) as [|x ready'] eqn:Hready.
  - (* nothing is ready: the idle jump *)
    apply app_eq_nil in Hready as [-> Hnil].
    rewrite Hnil in Hlen. simpl in Hlen. subst n. rewrite Nat.add_0_r in *.
    simpl in Hcond. rewrite orb_false_r in Hcond. apply Nat.ltb_lt in Hcond.
    destruct (lookup_lt_is_Some_2 remaining i Hcond) as [r Hr].
    rewrite Hr. specialize (Hstop r Hr).
    eexists. split; [reflexivity|]. unfold np_inv, np_mu. simpl.
    rewrite Hr. rewrite end_from_snoc. simpl.
    destruct (Z.leb_spec (arrival r) time); [lia|].
    rewrite Z.leb_refl.
    repeat split; [lia| | |lia|lia|lia|by eexists].
    + apply chain_snoc; [done|simpl; lia|simpl; lia].
    + exists done. split; [by apply accounts_idle | done].
  - (* a process is selected and runs its whole burst *)
    assert (Hsort : sort_by cmp (x :: ready') ≡ₚ x :: ready') by apply sort_by_perm.
    destruct (sort_by cmp (x :: ready')) as [|p rest] eqn:Hs.
    { by apply Permutation_nil_cons in Hsort. }
    assert (Hall : done ++ (p :: rest) ++ drop (i + n) remaining ≡ₚ remaining).
    { rewrite Hsort, <- Hready, <- app_assoc, <- drop_take_drop. done. }
    assert (Hp : 1 <= burst p).
    { rewrite Forall_forall in bursts. apply bursts. rewrite <- Hall.
      apply elem_of_app. right. by left. }
    assert (Hlr : length (x :: ready') = S (length rest)).
    { by rewrite <- Hsort. }
    assert (Hlr' : (length ready + n = length (x :: ready'))%nat).
    { by rewrite <- Hready, length_app, Hlen. }
    eexists. split; [reflexivity|]. unfold np_inv, np_mu. simpl.
    rewrite end_from_snoc. simpl in *.
    repeat split; [lia| | | |lia|lia|by eexists].
    + apply chain_snoc; [done|simpl; lia|simpl; lia].
    + exists (done ++ [p]). split.
      * rewrite full_runs_snoc. by apply accounts_run.
      * etrans; [|exact Hall]. by rewrite <- app_assoc.
    + destruct rest, ready; simpl in *;
        repeat match goal with |- context [match ?o with _ => _ end] => destruct o end; lia.
Qed.

(** The loop finishes within its fuel, and with any larger fuel, in a chain
    of segments from 0 that runs every process once and in full. *)
Lemma np_run_spec :
  exists segs done,
    (forall fuel, (np_fuel remaining <= fuel)%nat ->
       outcome_map np_segments
         (while_loop (np_cond remaining) (np_step cmp remaining) fuel np_init)
       = Done segs) /\
    chain 0 segs /\ accounts (full_runs done) segs /\ done ≡ₚ remaining.
Proof.
  destruct (while_loop_total (np_cond remaining) (np_step cmp remaining)
              (np_inv remaining) (np_mu remaining)) with
    (fuel := np_fuel remaining) (st := np_init)
    as (st' & Hrun & (Hi & Hc & He & done & Ha & Hperm) & Hcond).
  - intros st HI Hcond. destruct (np_step_spec st HI Hcond) as (st' & ? & ? & ? & _).
    by exists st'.
  - apply np_init_inv.
  - apply np_init_mu.
  - exists (np_segments st'), done. repeat split; [|done..|].
    + intros fuel Hfuel. by rewrite (while_loop_more_fuel _ _ _ _ _ _ Hrun Hfuel).
    + unfold np_cond in Hcond. apply orb_false_elim in Hcond as [H1 H2].
      apply Nat.ltb_ge in H1, H2.
      destruct (np_ready st'); [|simpl in H2; lia].
      rewrite drop_ge in Hperm by done. by rewrite !app_nil_r in Hperm.
Qed.
End NonPreemptiveFacts.

(** ** Round robin *)

Lemma rr_initial_map_snoc procs p :
  rr_initial_map (procs ++ [p]) = <[id p := burst p]> (rr_initial_map procs).
Proof. unfold rr_initial_map. by rewrite foldl_app. Qed.

Lemma rr_initial_map_dom procs k :
  is_Some (rr_initial_map procs !! k) <-> k ∈ id <$> procs.
Proof.
  induction procs as [|p procs IH] using rev_ind.
  - unfold rr_initial_map. simpl. rewrite lookup_empty, elem_of_nil.
    split; [by intros [? ?]|done].
  - rewrite rr_initial_map_snoc, fmap_app, elem_of_app, <- IH. simpl.
    rewrite list_elem_of_singleton.
    destruct (decide (id p = k)) as [->|Hne].
    + rewrite lookup_insert_eq. split; [by right|by eexists].
    + rewrite lookup_insert_ne by done. split; [by left|by intros [?|?]].
Qed.

Lemma rr_initial_map_lookup procs p :
  NoDup (id <$> procs) -> p ∈ procs -> rr_initial_map procs !! id p = Some (burst p).
Proof.
  induction procs as [|p0 procs IH] using rev_ind; intros Hnd Hp.
  - by apply elem_of_nil in Hp.
  - rewrite fmap_app in Hnd. apply NoDup_app in Hnd as (Hnd & Hnotin & _).
    rewrite rr_initial_map_snoc.
    apply elem_of_app in Hp as [Hp|Hp].
    + rewrite lookup_insert_ne; [by apply IH|].
      intros Heq. apply (Hnotin (id p)); [by apply list_elem_of_fmap_2|].
      rewrite <- Heq. simpl. by left.
    + apply list_elem_of_singleton in Hp as ->. by rewrite lookup_insert_eq.
Qed.

Lemma rr_initial_map_positive procs k r :
  Forall (fun p => 1 <= burst p) procs -> rr_initial_map procs !! k = Some r -> 1 <= r.
Proof.
  induction procs as [|p0 procs IH] using rev_ind; intros Hb Hk.
  - unfold rr_initial_map in Hk. simpl in Hk. by rewrite lookup_empty in Hk.
  - apply Forall_app in Hb as [Hb Hp0]. rewrite Forall_singleton in Hp0.
    rewrite rr_initial_map_snoc in Hk.
    destruct (decide (id p0 = k)) as [<-|Hne].
    + rewrite lookup_insert_eq in Hk. simplify_eq/=. lia.
    + rewrite lookup_insert_ne in Hk by done. by apply IH.
Qed.

Lemma Zsum_cons x l : Zsum (x :: l) = x + Zsum l.
Proof. done. Qed.

Lemma Zsum_fmap_ext {A : Type} (f g : A -> Z) (l : list A) :
  (forall x, x ∈ l -> f x = g x) -> Zsum (f <$> l) = Zsum (g <$> l).
Proof.
  induction l as [|x l IH]; intros H; [done|].
  rewrite !fmap_cons, !Zsum_cons, (H x) by (by left).
  rewrite IH; [done|]. intros y Hy. apply H. by right.
Qed.

Lemma Zsum_fmap_le {A : Type} (f g : A -> Z) (l : list A) :
  (forall x, x ∈ l -> g x <= f x) -> Zsum (g <$> l) <= Zsum (f <$> l).
Proof.
  induction l as [|x l IH]; intros H; [done|].
  rewrite !fmap_cons, !Zsum_cons.
  pose proof (H x ltac:(by left)).
  assert (Zsum (g <$> l) <= Zsum (f <$> l)); [|lia].
  apply IH. intros y Hy. apply H. by right.
Qed.

Lemma Zsum_fmap_lt {A : Type} (f g : A -> Z) (l : list A) x :
  (forall y, y ∈ l -> g y <= f y) -> x ∈ l -> g x < f x ->
  Zsum (g <$> l) < Zsum (f <$> l).
Proof.
  induction l as [|y l IH]; intros H Hx Hlt.
  - by apply elem_of_nil in Hx.
  - rewrite !fmap_cons, !Zsum_cons. pose proof (H y ltac:(by left)).
    assert (Hl : forall z, z ∈ l -> g z <= f z) by (intros z Hz; apply H; by right).
    apply elem_of_cons in Hx as [->|Hx].
    + pose proof (Zsum_fmap_le f g l Hl). lia.
    + pose proof (IH Hl Hx Hlt). lia.
Qed.

Lemma Zsum_fmap_nonneg {A : Type} (f : A -> Z) (l : list A) :
  (forall x, x ∈ l -> 0 <= f x) -> 0 <= Zsum (f <$> l).
Proof.
  induction l as [|x l IH]; intros H; [done|].
  rewrite !fmap_cons, !Zsum_cons.
  pose proof (H x ltac:(by left)).
  assert (0 <= Zsum (f <$> l)); [|lia].
  apply IH. intros y Hy. apply H. by right.
Qed.

Lemma elem_of_take_drop {A : Type} (l : list A) (i n : nat) x :
  x ∈ take n (drop i l) -> x ∈ l.
Proof.
  intros Hx. apply elem_of_take in Hx as (j & Hj & _).
  rewrite lookup_drop in Hj. by eapply list_elem_of_lookup_2.
Qed.

Section RoundRobinFacts.
Variable procs : list Process.
Variable q : Z.
Hypothesis ids : NoDup (id <$> procs).
Hypothesis bursts : Forall (fun p => 1 <= burst p) procs.
Hypothesis quantum : 1 <= q.

Lemma rr_init_inv : rr_inv procs (rr_init procs).
Proof.
  unfold rr_init.
  destruct (enqueueArrivals_spec procs 0 [] 0) as (n & -> & Hlen & Harr & Hstop).
  rewrite drop_0 in *. simpl in *.
  assert (Hlive : rr_live procs (mkRr (take n procs) n 0 (rr_initial_map procs) []) = procs).
  { unfold rr_live. simpl. apply take_drop. }
  unfold rr_inv. rewrite Hlive. simpl.
  split_and!; try done.
  - rewrite length_take in Hlen. lia.
  - intros p Hp. apply elem_of_take in Hp as (j & Hj & _).
    by eapply list_elem_of_lookup_2.
  - intros k. apply rr_initial_map_dom.
  - intros k r. by apply rr_initial_map_positive.
  - exists []. split; [constructor|]. split; [constructor|]. intros p Hp.
    rewrite rr_initial_map_lookup by done. simpl. lia.
Qed.

Lemma rr_init_mu : (rr_mu procs (rr_init procs) <= rr_fuel procs)%nat.
Proof.
  unfold rr_mu, rr_fuel, rr_left, rr_init.
  destruct (enqueueArrivals_spec procs 0 [] 0) as (n & -> & _). simpl.
  rewrite (Zsum_fmap_ext _ burst).
  - unfold Zsum. lia.
  - intros p Hp. by rewrite rr_initial_map_lookup.
Qed.

(** The idle jump: the queue is empty and a process is pending. *)
Lemma rr_step_idle st :
  rr_inv procs st -> rr_queue st = [] -> (rr_i st < length procs)%nat ->
  exists r (n : nat),
    procs !! rr_i st = Some r /\ (1 <= n)%nat /\
    rr_step procs q st
    = Continue (mkRr (take n (drop (rr_i st) procs)) (rr_i st + n) (arrival r)
                  (rr_remainingBurst st)
                  (rr_segments st ++ [idle_seg (rr_time st) (arrival r)])) /\
    rr_inv procs (mkRr (take n (drop (rr_i st) procs)) (rr_i st + n) (arrival r)
                  (rr_remainingBurst st)
                  (rr_segments st ++ [idle_seg (rr_time st) (arrival r)])).
Proof.
  destruct st as [queue i time rem segs]. simpl.
  intros (Hi & Hc & He & Hnext & Hpast & Hq & Hnd & Hdom & Hpos & runs & Ha & Hruns & Hsum)
    -> Hlt.
  unfold rr_live in *. simpl in *.
  destruct (lookup_lt_is_Some_2 procs i Hlt) as [r Hr].
  specialize (Hnext r Hr).
  destruct (enqueueArrivals_spec procs (arrival r) [] i)
    as (n & Hscan & Hlen & Harr & Hstop).
  pose proof (scanned_in_range _ _ _ Hi Hlen) as Hin.
  assert (Hn : (1 <= n)%nat).
  { destruct n; [|lia]. rewrite Nat.add_0_r in Hstop. specialize (Hstop r Hr). lia. }
  exists r, n. split; [done|]. split; [done|]. split.
  - unfold rr_step. simpl. rewrite Hr, Hscan.
    destruct (Z.ltb_spec time (arrival r)); [done|lia].
  - unfold rr_inv, rr_live. simpl.
    rewrite end_from_snoc, <- drop_take_drop. simpl.
    split_and!; try done.
    + apply chain_snoc; [done|simpl; lia|simpl; lia].
    + rewrite <- take_take_drop. apply Forall_app. split; [|done].
      eapply Forall_impl; [exact Hpast|]. simpl. intros; lia.
    + intros p Hp. by eapply elem_of_take_drop.
    + exists runs. split; [by apply accounts_idle|done].
Qed.

(** A slice: the head of the queue runs for [min q rem] units, the arrivals
    up to the new time join the queue, and the process goes back to the tail
    when burst is left. *)
Lemma rr_step_run st current rest :
  rr_inv procs st -> rr_queue st = current :: rest ->
  exists st' rem (n : nat),
    rr_remainingBurst st !! id current = Some rem /\ 1 <= rem /\
    rr_step procs q st = Continue st' /\
    rr_inv procs st' /\
    rr_time st' = rr_time st + Z.min q rem /\
    rr_i st' = (rr_i st + n)%nat /\
    length (take n (drop (rr_i st) procs)) = n /\
    (forall r, procs !! (rr_i st + n)%nat = Some r -> rr_time st' < arrival r) /\
    rr_queue st' = rest ++ take n (drop (rr_i st) procs)
                     ++ (if 0 <? rem - Z.min q rem then [current] else []) /\
    rr_remainingBurst st'
    = (if 0 <? rem - Z.min q rem
       then <[id current := rem - Z.min q rem]> (rr_remainingBurst st)
       else delete (id current) (rr_remainingBurst st)) /\
    rr_segments st'
    = rr_segments st ++ [run_seg current (rr_time st) (rr_time st + Z.min q rem)].
Proof.
  destruct st as [queue i time rem segs]. simpl.
  intros (Hi & Hc & He & Hnext & Hpast & Hq & Hnd & Hdom & Hpos & runs & Ha & Hruns & Hsum) ->.
  unfold rr_live in *. cbn [rr_queue rr_i rr_time rr_remainingBurst rr_segments app] in *.
  rewrite fmap_cons in Hnd. setoid_rewrite fmap_cons in Hdom.
  assert (Hcur : is_Some (rem !! id current)).
  { apply Hdom. by left. }
  destruct Hcur as [r Hr]. pose proof (Hpos _ _ Hr) as Hr1.
  set (slice := Z.min q r). assert (Hslice : 1 <= slice <= r) by (unfold slice; lia).
  destruct (enqueueArrivals_spec procs (time + slice) rest i)
    as (n & Hscan & Hlen & Harr & Hstop).
  pose proof (scanned_in_range _ _ _ Hi Hlen) as Hin.
  assert (Hcurp : current ∈ procs) by (apply Hq; by left).
  apply NoDup_cons in Hnd as [Hfresh Hnd].
  assert (Hrest : rest ++ take n (drop i procs) ++ drop (i + n) procs
                  = rest ++ drop i procs).
  { by rewrite <- drop_take_drop. }
  assert (Hchain : chain 0 (segs ++ [run_seg current time (time + slice)])).
  { apply chain_snoc; [done|simpl; lia|simpl; lia]. }
  assert (Hpast' : Forall (fun p => arrival p <= time + slice) (take (i + n) procs)).
  { rewrite <- take_take_drop. apply Forall_app. split; [|done].
    eapply Forall_impl; [exact Hpast|]. simpl. intros; lia. }
  assert (Hq' : forall p, p ∈ rest ++ take n (drop i procs) -> p ∈ procs).
  { intros p Hp. apply elem_of_app in Hp as [Hp|Hp].
    - apply Hq. by right.
    - by eapply elem_of_take_drop. }
  unfold rr_step. simpl. rewrite Hr. fold slice. rewrite Hscan.
  destruct (0 <? r - slice) eqn:Hb;
    [assert (Hmore : 0 < r - slice) by by apply Z.ltb_lt
    |assert (Hdone : r - slice <= 0) by by apply Z.ltb_ge].
  - (* burst is left: back to the tail *)
    eexists _, r, n. split; [done|]. split; [done|]. split; [reflexivity|].
    cbn [rr_queue rr_i rr_time rr_remainingBurst rr_segments]. fold slice.
    rewrite Hb. split_and!; try done; [|by rewrite <- app_assoc].
    unfold rr_inv, rr_live. simpl. rewrite end_from_snoc. simpl.
    assert (Hperm : ((rest ++ take n (drop i procs)) ++ [current]) ++ drop (i + n) procs
                    ≡ₚ current :: rest ++ drop i procs).
    { rewrite <- Hrest, <- (app_assoc _ [current]). simpl.
      symmetry. apply Permutation_cons_app. by rewrite app_assoc. }
    split_and!; try done.
    + intros p Hp. apply elem_of_app in Hp as [Hp|Hp]; [by apply Hq'|].
      by apply list_elem_of_singleton in Hp as ->.
    + rewrite Hperm, fmap_cons. by apply NoDup_cons.
    + intros k. rewrite Hperm, lookup_insert_is_Some, Hdom, fmap_cons. split.
      * intros [<-|[_ Hk]]; [by left|done].
      * intros Hk. destruct (decide (id current = k)); [by left|by right].
    + intros k r'. destruct (decide (id current = k)) as [<-|Hne].
      * rewrite lookup_insert_eq. intros; simplify_eq. lia.
      * rewrite lookup_insert_ne by done. apply Hpos.
    + exists (runs ++ [(current, slice)]). split; [by apply accounts_run|].
      split; [apply Forall_app; split; [done|by constructor]|].
      intros p Hp. specialize (Hsum p Hp).
      rewrite runs_of_snoc, fmap_app, Zsum_app. simpl.
      destruct (decide (id current = id p)) as [Heq|Hne].
      * rewrite <- Heq, lookup_insert_eq. rewrite <- Heq, Hr in Hsum.
        simpl in *. lia.
      * rewrite lookup_insert_ne by done. simpl. lia.
  - (* the burst is used up: the process leaves *)
    assert (slice = r) by lia.
    eexists _, r, n. split; [done|]. split; [done|]. split; [reflexivity|].
    cbn [rr_queue rr_i rr_time rr_remainingBurst rr_segments]. fold slice.
    rewrite Hb. split_and!; try done; [|by rewrite app_nil_r].
    unfold rr_inv, rr_live. simpl. rewrite end_from_snoc. simpl.
    rewrite <- app_assoc, Hrest.
    split_and!; try done.
    + intros k. rewrite lookup_delete_is_Some, Hdom, elem_of_cons. split.
      * intros [Hne [Heq|Hk]]; [congruence|done].
      * intros Hk. split; [by intros <-|by right].
    + intros k r'. destruct (decide (id current = k)) as [<-|Hne].
      * by rewrite lookup_delete_eq.
      * rewrite lookup_delete_ne by done. apply Hpos.
    + exists (runs ++ [(current, slice)]). split; [by apply accounts_run|].
      split; [apply Forall_app; split; [done|by constructor]|].
      intros p Hp. specialize (Hsum p Hp).
      rewrite runs_of_snoc, fmap_app, Zsum_app. simpl.
      destruct (decide (id current = id p)) as [Heq|Hne].
      * rewrite <- Heq, lookup_delete_eq. rewrite <- Heq, Hr in Hsum.
        simpl in *. lia.
      * rewrite lookup_delete_ne by done. simpl. lia.
Qed.

(** One round of round robin: the body does not fail, keeps the invariant,
    lowers the variant, never moves the index back, moves the time forward,
    emits one segment, and brings no finished process back. *)
Lemma rr_step_spec st :
  rr_inv procs st -> rr_cond procs st = true ->
  exists st',
    rr_step procs q st = Continue st' /\
    rr_inv procs st' /\
    (rr_mu procs st' < rr_mu procs st)%nat /\
    (rr_i st <= rr_i st')%nat /\
    rr_time st < rr_time st' /\
    (exists s, rr_segments st' = rr_segments st ++ [s]) /\
    (forall k, k ∈ id <$> rr_live procs st' -> k ∈ id <$> rr_live procs st).
Proof.
  intros Hinv Hcond. destruct (rr_queue st) as [|current rest] eqn:Hqueue.
  - unfold rr_cond in Hcond. rewrite Hqueue in Hcond. simpl in Hcond.
    apply Nat.ltb_lt in Hcond.
    destruct (rr_step_idle st Hinv Hqueue Hcond) as (r & n & Hr & Hn & Hstep & Hinv').
    eexists. split; [exact Hstep|]. split; [done|].
    destruct Hinv as (Hi & _ & _ & Hnext & _).
    destruct Hinv' as (Hi' & _). unfold rr_mu, rr_left, rr_live in *.
    cbn [rr_queue rr_i rr_time rr_remainingBurst rr_segments] in *.
    specialize (Hnext r Hr). rewrite Hqueue. 
    split_and!; [lia|lia|done|by eexists|].
    intros k. by rewrite <- drop_take_drop.
  - destruct (rr_step_run st current rest Hinv Hqueue)
      as (st' & rem & n & Hrem & Hrem1 & Hstep & Hinv' & Htime & Hidx & _ & _ & _ & Hmap & Hsegs).
    exists st'. split; [done|]. split; [done|].
    pose proof Hinv as (Hi & _ & _ & _ & _ & Hq & _ & Hdom & Hpos & _).
    pose proof Hinv' as (Hi' & _ & _ & _ & _ & _ & _ & Hdom' & Hpos' & _).
    assert (Hcur : current ∈ procs) by (apply Hq; rewrite Hqueue; by left).
    assert (Hsub : forall k, is_Some (rr_remainingBurst st' !! k) ->
                             is_Some (rr_remainingBurst st !! k)).
    { intros k. rewrite Hmap. destruct (0 <? rem - Z.min q rem).
      - rewrite lookup_insert_is_Some. intros [<-|[_ ?]]; [by eexists|done].
      - rewrite lookup_delete_is_Some. by intros [_ ?]. }
    assert (Hle : forall p, p ∈ procs ->
              0 <= default 0 (rr_remainingBurst st' !! id p)
                <= default 0 (rr_remainingBurst st !! id p)).
    { intros p _. split.
      - destruct (rr_remainingBurst st' !! id p) as [v|] eqn:Hv; [|done].
        specialize (Hpos' _ _ Hv). simpl. lia.
      - rewrite Hmap. destruct (0 <? rem - Z.min q rem).
        + destruct (decide (id current = id p)) as [Heq|Hne].
          * rewrite <- Heq, lookup_insert_eq, Hrem. simpl. lia.
          * by rewrite lookup_insert_ne.
        + destruct (decide (id current = id p)) as [Heq|Hne].
          * rewrite <- Heq, lookup_delete_eq, Hrem. simpl. lia.
          * by rewrite lookup_delete_ne. }
    assert (Hlt : default 0 (rr_remainingBurst st' !! id current)
                  < default 0 (rr_remainingBurst st !! id current)).
    { rewrite Hmap, Hrem. destruct (0 <? rem - Z.min q rem).
      - rewrite lookup_insert_eq. simpl. lia.
      - rewrite lookup_delete_eq. simpl. lia. }
    assert (Hleft : 0 <= rr_left procs st' < rr_left procs st).
    { unfold rr_left. split.
      - apply Zsum_fmap_nonneg. intros p Hp. by apply Hle.
      - eapply Zsum_fmap_lt; [|exact Hcur|exact Hlt].
        intros p Hp. by apply Hle. }
    unfold rr_mu. rewrite Hidx, Htime, Hsegs.
    split_and!; [lia|lia|lia|by eexists|].
    intros k Hk. apply Hdom, Hsub, Hdom', Hk.
Qed.

(** The loop finishes within its fuel, and with any larger fuel, in a chain
    of segments from 0 whose log gives every process its burst. *)
Lemma rr_run_spec :
  exists segs runs,
    (forall fuel, (rr_fuel procs <= fuel)%nat ->
       outcome_map rr_segments
         (while_loop (rr_cond procs) (rr_step procs q) fuel (rr_init procs))
       = Done segs) /\
    chain 0 segs /\ accounts runs segs /\
    Forall (fun r => fst r ∈ procs) runs /\
    forall p, p ∈ procs -> Zsum (snd <$> runs_of (id p) runs) = burst p.
Proof.
  destruct (while_loop_total (rr_cond procs) (rr_step procs q)
              (rr_inv procs) (rr_mu procs)) with
    (fuel := rr_fuel procs) (st := rr_init procs)
    as (st' & Hrun & Hinv & Hcond).
  - intros st HI Hcond. destruct (rr_step_spec st HI Hcond) as (st' & ? & ? & ? & _).
    by exists st'.
  - apply rr_init_inv.
  - apply rr_init_mu.
  - destruct Hinv as (Hi & Hc & _ & _ & _ & _ & _ & Hdom & _ & runs & Ha & Hruns & Hsum).
    exists (rr_segments st'), runs. split_and!; try done.
    + intros fuel Hfuel. by rewrite (while_loop_more_fuel _ _ _ _ _ _ Hrun Hfuel).
    + intros p Hp. specialize (Hsum p Hp).
      unfold rr_cond in Hcond. apply orb_false_elim in Hcond as [H1 H2].
      apply Nat.ltb_ge in H1, H2.
      assert (Hnone : rr_remainingBurst st' !! id p = None).
      { apply eq_None_not_Some. rewrite Hdom. unfold rr_live.
        destruct (rr_queue st'); [|simpl in H1; lia].
        rewrite drop_ge by done. simpl. apply not_elem_of_nil. }
      rewrite Hnone in Hsum. simpl in Hsum. lia.
Qed.

End RoundRobinFacts.

(** ** The arrivals of a slice *)

Lemma filter_all {A : Type} (P : A -> Prop) `{!forall x, Decision (P x)} (l : list A) :
  Forall P l -> filter P l = l.
Proof.
  induction 1 as [|x l Hx _ IH]; [done|].
  rewrite filter_cons. destruct (decide (P x)); [by f_equal|done].
Qed.

Lemma filter_none {A : Type} (P : A -> Prop) `{!forall x, Decision (P x)} (l : list A) :
  Forall (fun x => ~ P x) l -> filter P l = [].
Proof.
  induction 1 as [|x l Hx _ IH]; [done|].
  rewrite filter_cons. by destruct (decide (P x)).
Qed.



(** ** The four policies on a well-formed process set *)

Lemma chain_timeline ps segs runs :
  chain 0 segs -> accounts runs segs ->
  Forall (fun r => fst r ∈ ps) runs -> (ps <> [] -> runs <> []) ->
  timeline_of ps segs.
Proof.
  intros Hc Ha Hruns Hne. split_and!.
  - by apply chain_partition.
  - intros Hps. specialize (Hne Hps). pose proof (accounts_length _ _ Ha) as Hlen.
    destruct segs as [|s segs].
    + destruct runs; [done|simpl in Hlen; lia].
    + exists s. split; [done|]. by destruct Hc.
  - intros s Hs. destruct (accounts_pid _ _ _ Ha Hs) as [?|(r & Hr & ?)]; [by left|].
    right. exists (fst r). split; [|done].
    rewrite Forall_forall in Hruns. by apply Hruns.
Qed.

Lemma occ_one_single p segs :
  occ (id p) segs = 1%nat -> dur (id p) segs = burst p -> single_run p segs.
Proof.
  unfold occ, dur, single_run. intros Hocc Hdur.
  destruct (segs_of (id p) segs) as [|s [|s' l]]; simplify_eq/=.
  exists s. split; [done|]. unfold Zsum in Hdur. simpl in Hdur. lia.
Qed.

Lemma well_formed_sorted ps :
  well_formed ps ->
  NoDup (id <$> sort_by (by_ arrival) ps) /\
  Forall (fun p => 1 <= burst p) (sort_by (by_ arrival) ps).
Proof.
  intros [Hnd Hall]. split.
  - by rewrite sort_by_perm.
  - rewrite sort_by_perm. eapply Forall_impl; [exact Hall|]. by intros p [_ ?].
Qed.

Lemma full_runs_timeline ps done segs :
  done ≡ₚ ps -> chain 0 segs -> accounts (full_runs done) segs -> timeline_of ps segs.
Proof.
  intros Hperm Hc Ha. eapply chain_timeline; [done..| |].
  - apply Forall_forall. intros r Hr. unfold full_runs in Hr.
    apply list_elem_of_fmap in Hr as (p & -> & Hp). simpl. by rewrite <- Hperm.
  - intros Hps Hnil. apply fmap_nil_inv in Hnil. subst done.
    apply Permutation_nil_l in Hperm. by subst.
Qed.

(** First come, first served. *)
Lemma fcfs_correct ps :
  well_formed ps ->
  timeline_of ps (scheduleFCFS ps) /\
  forall p, p ∈ ps -> id p <> IDLE ->
    dur (id p) (scheduleFCFS ps) = burst p /\ occ (id p) (scheduleFCFS ps) = 1%nat.
Proof.
  intros Hwf. destruct (well_formed_sorted ps Hwf) as [Hnd Hb].
  destruct (fcfs_spec ps) as [Hc Ha].
  { destruct Hwf as [_ Hall]. eapply Forall_impl; [exact Hall|]. by intros p [_ ?]. }
  split.
  - eapply full_runs_timeline; [apply sort_by_perm|done..].
  - intros p Hp Hne. eapply full_runs_account; [|apply sort_by_perm|done..].
    by destruct Hwf.
Qed.

(** Shortest job first and priority, for any comparator of the ready list. *)
Lemma np_correct cmp ps :
  well_formed ps ->
  exists segs,
    (forall fuel, (np_fuel (sort_by (by_ arrival) ps) <= fuel)%nat ->
       outcome_map np_segments
         (while_loop (np_cond (sort_by (by_ arrival) ps))
            (np_step cmp (sort_by (by_ arrival) ps)) fuel np_init) = Done segs) /\
    timeline_of ps segs /\
    forall p, p ∈ ps -> id p <> IDLE ->
      dur (id p) segs = burst p /\ occ (id p) segs = 1%nat.
Proof.
  intros Hwf. destruct (well_formed_sorted ps Hwf) as [Hnd Hb].
  destruct (np_run_spec cmp _ Hb) as (segs & done & Hrun & Hc & Ha & Hperm).
  assert (Hperm' : done ≡ₚ ps) by (by rewrite Hperm, sort_by_perm).
  exists segs. split; [done|]. split.
  - by eapply full_runs_timeline.
  - intros p Hp Hne. eapply full_runs_account; [|exact Hperm'|done..].
    by destruct Hwf.
Qed.

(** Round robin. *)
Lemma rr_correct ps q :
  well_formed ps -> 1 <= q ->
  exists segs,
    (forall fuel, (rr_fuel (sort_by (by_ arrival) ps) <= fuel)%nat ->
       outcome_map rr_segments
         (while_loop (rr_cond (sort_by (by_ arrival) ps))
            (rr_step (sort_by (by_ arrival) ps) q) fuel
            (rr_init (sort_by (by_ arrival) ps))) = Done segs) /\
    timeline_of ps segs /\
    forall p, p ∈ ps -> id p <> IDLE -> dur (id p) segs = burst p.
Proof.
  intros Hwf Hq. destruct (well_formed_sorted ps Hwf) as [Hnd Hb].
  destruct (rr_run_spec _ q Hnd Hb Hq) as (segs & runs & Hrun & Hc & Ha & Hruns & Hsum).
  exists segs. split; [done|]. split.
  - eapply chain_timeline; [done..| |].
    + eapply Forall_impl; [exact Hruns|]. simpl. intros r Hr.
      by rewrite sort_by_perm in Hr.
    + intros Hps ->. destruct ps as [|p ps]; [done|].
      assert (Hp : p ∈ sort_by (by_ arrival) (p :: ps)).
      { rewrite sort_by_perm. by left. }
      specialize (Hsum p Hp). rewrite Forall_forall in Hb. specialize (Hb p Hp).
      simpl in *. unfold Zsum in Hsum. simpl in Hsum. lia.
  - intros p Hp Hne. rewrite (accounts_dur _ _ _ Ha Hne). apply Hsum.
    by rewrite sort_by_perm.
Qed.

(** * Sums and differences of safe integers are exact *)

(** A positive number of [d] bits lies between [2^(d-1)] and [2^d]. *)
Lemma digits2_pos_bounds (v : positive) :
  2 ^ (Z.pos (digits2_pos v) - 1) <= Z.pos v < 2 ^ Z.pos (digits2_pos v).
Proof.
  induction v as [v IH|v IH|]; simpl digits2_pos.
  - rewrite Pos2Z.inj_succ. replace (Z.succ (Z.pos (digits2_pos v)) - 1) with (Z.pos (digits2_pos v)) by lia.
    rewrite Z.pow_succ_r by lia.
    replace (Z.pos (digits2_pos v)) with (Z.succ (Z.pos (digits2_pos v) - 1)) at 1 by lia.
    rewrite Z.pow_succ_r by lia. lia.
  - rewrite Pos2Z.inj_succ. replace (Z.succ (Z.pos (digits2_pos v)) - 1) with (Z.pos (digits2_pos v)) by lia.
    rewrite Z.pow_succ_r by lia.
    replace (Z.pos (digits2_pos v)) with (Z.succ (Z.pos (digits2_pos v) - 1)) at 1 by lia.
    rewrite Z.pow_succ_r by lia. lia.
  - simpl. lia.
Qed.

Lemma digits2_pos_le (v : positive) (n : Z) :
  Z.pos v < 2 ^ n -> Z.pos (digits2_pos v) <= n.
Proof.
  intros Hv. pose proof (digits2_pos_bounds v) as [Hlo _].
  destruct (Z.le_gt_cases (Z.pos (digits2_pos v)) n) as [?|Hgt]; [done|].
  assert (2 ^ n <= 2 ^ (Z.pos (digits2_pos v) - 1)); [|lia].
  apply Z.pow_le_mono_r; lia.
Qed.


Lemma iter_xO_Z (v p : positive) : Z.pos (Pos.iter xO v p) = Z.pos v * 2 ^ Z.pos p.
Proof.
  rewrite (Pos.iter_swap_gen _ _ Z.pos xO (Z.mul 2)) by reflexivity.
  change (Pos.iter (Z.mul 2) (Z.pos v) p) with (Z.shiftl (Z.pos v) (Z.pos p)).
  apply Z.shiftl_mul_pow2. lia.
Qed.

Lemma shl_Z (v : positive) (k : Z) : 0 <= k -> Z.pos (shl v k) = Z.pos v * 2 ^ k.
Proof.
  intros Hk. destruct k as [|p|p]; simpl; [lia| |lia]. apply iter_xO_Z.
Qed.

Lemma shl_shl (v : positive) (k c : Z) : 0 <= k -> 0 <= c -> shl (shl v k) c = shl v (k + c).
Proof.
  intros Hk Hc. apply Pos2Z.inj. rewrite !shl_Z by lia.
  rewrite Z.pow_add_r by lia. lia.
Qed.

Lemma digits2_pos_iter (v p : positive) :
  digits2_pos (Pos.iter xO v p) = (digits2_pos v + p)%positive.
Proof.
  rewrite (Pos.iter_swap_gen _ _ digits2_pos xO Pos.succ) by reflexivity.
  induction p as [|p IH] using Pos.peano_ind.
  - simpl. lia.
  - rewrite Pos.iter_succ, IH. lia.
Qed.

Lemma digits2_pos_shl (v : positive) (k : Z) :
  0 <= k -> Z.pos (digits2_pos (shl v k)) = Z.pos (digits2_pos v) + k.
Proof.
  intros Hk. destruct k as [|p|p]; simpl; [lia| |lia].
  rewrite digits2_pos_iter. lia.
Qed.

(** Shifting out zeros is exact. *)
Lemma shr_exact (p m : positive) :
  SpecFloat.iter_pos shr_1 p {| shr_m := Z.pos (Pos.iter xO m p); shr_r := false; shr_s := false |}
  = {| shr_m := Z.pos m; shr_r := false; shr_s := false |}.
Proof.
  revert m. induction p as [p IH|p IH|]; intros m; simpl.
  - by rewrite !IH.
  - by rewrite !IH.
  - reflexivity.
Qed.



Lemma round_aux_canon (s : bool) (v : positive) :
  Z.pos v < 2 ^ 53 ->
  binary_round_aux prec emax s (Z.pos (shl v (53 - Z.pos (digits2_pos v))))
    (Z.pos (digits2_pos v) - 53) loc_Exact
  = canon s v.
Proof.
  intros Hv. pose proof (digits2_pos_le v 53 Hv) as Hd.
  set (d := Z.pos (digits2_pos v)) in *.
  assert (Hd1 : 1 <= d) by (unfold d; lia).
  unfold binary_round_aux, shr_fexp, fexp, emin, prec, emax. cbn [Zdigits2].
  rewrite digits2_pos_shl by lia. fold d.
  replace (Z.max (d + (53 - d) + (d - 53) - 53) (3 - 1024 - 53) - (d - 53)) with 0 by lia.
  cbn [shr shr_record_of_loc shr_m loc_of_shr_record round_nearest_even Zdigits2].
  rewrite digits2_pos_shl by lia. fold d.
  replace (Z.max (d + (53 - d) + (d - 53) - 53) (3 - 1024 - 53) - (d - 53)) with 0 by lia.
  cbn [shr shr_m].
  destruct (Z.leb_spec (d - 53) (1024 - 53)); [done|lia].
Qed.

Lemma binary_round_exact (s : bool) (v : positive) (k : Z) :
  0 <= k -> Z.pos v < 2 ^ 53 ->
  binary_round prec emax s (shl v k) (- k) = canon s v.
Proof.
  intros Hk Hv. pose proof (digits2_pos_le v 53 Hv) as Hd.
  pose proof (round_aux_canon s v Hv) as Haux.
  set (d := Z.pos (digits2_pos v)) in *.
  assert (Hd1 : 1 <= d) by (unfold d; lia).
  unfold binary_round, fexp, emin.
  rewrite digits2_pos_shl by lia. fold d.
  replace (Z.max (d + k + - k - prec) (3 - emax - prec)) with (d - 53)
    by (unfold prec, emax; lia).
  unfold shl_align.
  destruct (d - 53 - - k) as [|c|c] eqn:Hc.
  - assert (k = 53 - d) as -> by lia. by replace (- (53 - d)) with (d - 53) by lia.
  - (* the mantissa is too long: zeros are shifted out *)
    assert (Hk' : k = (53 - d) + Z.pos c) by lia.
    assert (E : SpecFloat.iter_pos shr_1 c
                  {| shr_m := Z.pos (shl v k); shr_r := false; shr_s := false |}
                = {| shr_m := Z.pos (shl v (53 - d)); shr_r := false; shr_s := false |}).
    { rewrite Hk', <- shl_shl by lia. cbn [shl]. apply shr_exact. }
    unfold binary_round_aux, shr_fexp, fexp, emin. cbn [Zdigits2].
    rewrite digits2_pos_shl by lia. fold d.
    replace (Z.max (d + k + - k - prec) (3 - emax - prec) - - k) with (Z.pos c)
      by (unfold prec, emax; lia).
    cbn [shr shr_record_of_loc]. rewrite E.
    cbn [shr_m loc_of_shr_record round_nearest_even Zdigits2].
    rewrite digits2_pos_shl by lia. fold d.
    replace (Z.max (d + (53 - d) + (- k + Z.pos c) - prec) (3 - emax - prec)
             - (- k + Z.pos c)) with 0 by (unfold prec, emax; lia).
    cbn [shr shr_m].
    replace (- k + Z.pos c) with (d - 53) by lia.
    destruct (Z.leb_spec (d - 53) (emax - prec)); [done|unfold prec, emax in *; lia].
  - (* the mantissa is too short: zeros are shifted in *)
    assert (Hk' : 53 - d = k + Z.pos c) by lia.
    rewrite <- Haux, Hk', <- shl_shl by lia. reflexivity.
Qed.


Lemma Z2F_pos (v : positive) : Z.pos v < 2 ^ 53 -> Z2F (Z.pos v) = canon false v.
Proof. intros Hv. apply (binary_round_exact false v 0); [lia|done]. Qed.

Lemma Z2F_neg (v : positive) : Z.pos v < 2 ^ 53 -> Z2F (Z.neg v) = canon true v.
Proof. intros Hv. apply (binary_round_exact true v 0); [lia|done]. Qed.

Lemma F2Z_canon (s : bool) (v : positive) :
  Z.pos v < 2 ^ 53 -> F2Z (canon s v) = cond_Zopp s (Z.pos v).
Proof.
  intros Hv. pose proof (digits2_pos_le v 53 Hv) as Hd.
  unfold canon, F2Z. set (d := Z.pos (digits2_pos v)) in *.
  f_equal. rewrite shl_Z by lia.
  destruct (Z.leb_spec 0 (d - 53)).
  - replace (d - 53) with 0 by lia. replace (53 - d) with 0 by lia. simpl. lia.
  - replace (- (d - 53)) with (53 - d) by lia. apply Z.div_mul.
    apply Z.pow_nonzero; lia.
Qed.

(** An integer below [2^53] in magnitude is a number. *)
Lemma F2Z_Z2F (z : Z) : Z.abs z <= max_safe -> F2Z (Z2F z) = z.
Proof.
  unfold max_safe. intros Hz. destruct z as [|v|v].
  - reflexivity.
  - rewrite Z2F_pos, F2Z_canon by lia. reflexivity.
  - rewrite Z2F_neg, F2Z_canon by lia. reflexivity.
Qed.

(** Normalising an integer below [2^53] with zeros after it gives its
    number. *)
Lemma normalize_exact (z k : Z) :
  0 <= k -> Z.abs z <= max_safe ->
  binary_normalize prec emax (z * 2 ^ k) (- k) false = Z2F z.
Proof.
  unfold max_safe. intros Hk Hz. destruct z as [|v|v].
  - reflexivity.
  - rewrite Z2F_pos by lia. rewrite <- (shl_Z v k) by lia.
    apply binary_round_exact; lia.
  - rewrite Z2F_neg by lia.
    replace (Z.neg v * 2 ^ k) with (Z.neg (shl v k))
      by (rewrite <- Pos2Z.opp_pos, shl_Z by lia; lia).
    apply binary_round_exact; lia.
Qed.

(** The mantissa of a number, aligned to a lower exponent. *)
Lemma shl_align_fst (m : positive) (e e' : Z) :
  e' <= e -> Z.pos (fst (shl_align m e e')) = Z.pos m * 2 ^ (e - e').
Proof.
  intros He. unfold shl_align. destruct (e' - e) as [|c|c] eqn:Hc; cbn [fst].
  - replace (e - e') with 0 by lia. simpl. lia.
  - lia.
  - rewrite iter_xO_Z. f_equal. f_equal. lia.
Qed.

Lemma aligned_canon (s : bool) (v : positive) (e' : Z) :
  Z.pos v < 2 ^ 53 -> e' <= Z.pos (digits2_pos v) - 53 ->
  cond_Zopp s (Z.pos (fst (shl_align (shl v (53 - Z.pos (digits2_pos v)))
                             (Z.pos (digits2_pos v) - 53) e')))
  = cond_Zopp s (Z.pos v) * 2 ^ (- e').
Proof.
  intros Hv He. pose proof (digits2_pos_le v 53 Hv) as Hd.
  rewrite shl_align_fst by done. rewrite shl_Z by lia.
  rewrite <- Z.mul_assoc, <- Z.pow_add_r by lia.
  replace (53 - Z.pos (digits2_pos v) + (Z.pos (digits2_pos v) - 53 - e')) with (- e') by lia.
  destruct s; cbn [cond_Zopp]; [by rewrite Z.mul_opp_l|done].
Qed.

Lemma SFadd_canon (sx sy : bool) (vx vy : positive) :
  Z.pos vx < 2 ^ 53 -> Z.pos vy < 2 ^ 53 ->
  Z.abs (cond_Zopp sx (Z.pos vx) + cond_Zopp sy (Z.pos vy)) <= max_safe ->
  SFadd prec emax (canon sx vx) (canon sy vy)
  = Z2F (cond_Zopp sx (Z.pos vx) + cond_Zopp sy (Z.pos vy)).
Proof.
  intros Hx Hy Hsum.
  pose proof (digits2_pos_le vx 53 Hx). pose proof (digits2_pos_le vy 53 Hy).
  unfold canon, SFadd.
  set (ez := Z.min (Z.pos (digits2_pos vx) - 53) (Z.pos (digits2_pos vy) - 53)).
  rewrite !aligned_canon by (done || unfold ez; lia).
  rewrite <- Z.mul_add_distr_r.
  pose proof (normalize_exact (cond_Zopp sx (Z.pos vx) + cond_Zopp sy (Z.pos vy)) (- ez)
                ltac:(unfold ez; lia) Hsum) as Hn.
  by rewrite Z.opp_involutive in Hn.
Qed.

Lemma SFsub_canon (sx sy : bool) (vx vy : positive) :
  Z.pos vx < 2 ^ 53 -> Z.pos vy < 2 ^ 53 ->
  Z.abs (cond_Zopp sx (Z.pos vx) - cond_Zopp sy (Z.pos vy)) <= max_safe ->
  SFsub prec emax (canon sx vx) (canon sy vy)
  = Z2F (cond_Zopp sx (Z.pos vx) - cond_Zopp sy (Z.pos vy)).
Proof.
  intros Hx Hy Hsum.
  pose proof (digits2_pos_le vx 53 Hx). pose proof (digits2_pos_le vy 53 Hy).
  unfold canon, SFsub.
  set (ez := Z.min (Z.pos (digits2_pos vx) - 53) (Z.pos (digits2_pos vy) - 53)).
  rewrite !aligned_canon by (done || unfold ez; lia).
  rewrite <- Z.mul_sub_distr_r.
  pose proof (normalize_exact (cond_Zopp sx (Z.pos vx) - cond_Zopp sy (Z.pos vy)) (- ez)
                ltac:(unfold ez; lia) Hsum) as Hn.
  by rewrite Z.opp_involutive in Hn.
Qed.

(** Addition and subtraction are exact on safe integers. *)
Lemma SFadd_safe (x y : Z) :
  Z.abs x <= max_safe -> Z.abs y <= max_safe -> Z.abs (x + y) <= max_safe ->
  SFadd prec emax (Z2F x) (Z2F y) = Z2F (x + y).
Proof.
  unfold max_safe. intros Hx Hy Hxy.
  destruct x as [|vx|vx].
  - rewrite Z.add_0_l. change (Z2F 0) with (S754_zero false).
    destruct y as [|vy|vy]; [reflexivity|rewrite Z2F_pos by lia|rewrite Z2F_neg by lia];
      reflexivity.
  - destruct y as [|vy|vy].
    + rewrite Z.add_0_r. change (Z2F 0) with (S754_zero false).
      rewrite Z2F_pos by lia. reflexivity.
    + rewrite (Z2F_pos vx), (Z2F_pos vy) by lia.
      apply (SFadd_canon false false); unfold max_safe; cbn [cond_Zopp]; lia.
    + rewrite (Z2F_pos vx), (Z2F_neg vy) by lia.
      apply (SFadd_canon false true); unfold max_safe; cbn [cond_Zopp]; lia.
  - destruct y as [|vy|vy].
    + rewrite Z.add_0_r. change (Z2F 0) with (S754_zero false).
      rewrite Z2F_neg by lia. reflexivity.
    + rewrite (Z2F_neg vx), (Z2F_pos vy) by lia.
      apply (SFadd_canon true false); unfold max_safe; cbn [cond_Zopp]; lia.
    + rewrite (Z2F_neg vx), (Z2F_neg vy) by lia.
      apply (SFadd_canon true true); unfold max_safe; cbn [cond_Zopp]; lia.
Qed.

Lemma SFsub_safe (x y : Z) :
  Z.abs x <= max_safe -> Z.abs y <= max_safe -> Z.abs (x - y) <= max_safe ->
  SFsub prec emax (Z2F x) (Z2F y) = Z2F (x - y).
Proof.
  unfold max_safe. intros Hx Hy Hxy.
  destruct x as [|vx|vx].
  - change (Z2F 0) with (S754_zero false).
    destruct y as [|vy|vy]; [reflexivity| |].
    + change (0 - Z.pos vy) with (Z.neg vy).
      rewrite Z2F_pos, Z2F_neg by lia. reflexivity.
    + change (0 - Z.neg vy) with (Z.pos vy).
      rewrite Z2F_pos, Z2F_neg by lia. reflexivity.
  - destruct y as [|vy|vy].
    + rewrite Z.sub_0_r. change (Z2F 0) with (S754_zero false).
      rewrite Z2F_pos by lia. reflexivity.
    + rewrite (Z2F_pos vx), (Z2F_pos vy) by lia.
      apply (SFsub_canon false false); unfold max_safe; cbn [cond_Zopp]; lia.
    + rewrite (Z2F_pos vx), (Z2F_neg vy) by lia.
      apply (SFsub_canon false true); unfold max_safe; cbn [cond_Zopp]; lia.
  - destruct y as [|vy|vy].
    + rewrite Z.sub_0_r. change (Z2F 0) with (S754_zero false).
      rewrite Z2F_neg by lia. reflexivity.
    + rewrite (Z2F_neg vx), (Z2F_pos vy) by lia.
      apply (SFsub_canon true false); unfold max_safe; cbn [cond_Zopp]; lia.
    + rewrite (Z2F_neg vx), (Z2F_neg vy) by lia.
      apply (SFsub_canon true true); unfold max_safe; cbn [cond_Zopp]; lia.
Qed.

Lemma num_add_safe (x y : Z) :
  Z.abs x <= max_safe -> Z.abs y <= max_safe -> Z.abs (x + y) <= max_safe ->
  num_add x y = x + y.
Proof. intros Hx Hy Hxy. unfold num_add. by rewrite SFadd_safe, F2Z_Z2F. Qed.

Lemma num_sub_safe (x y : Z) :
  Z.abs x <= max_safe -> Z.abs y <= max_safe -> Z.abs (x - y) <= max_safe ->
  num_sub x y = x - y.
Proof. intros Hx Hy Hxy. unfold num_sub. by rewrite SFsub_safe, F2Z_Z2F. Qed.

(** * The engine on numbers and on integers *)

(** ** Loops that agree *)

Section LoopsAgree.
Context {St : Type}.
Variable cond : St -> bool.
Variables body1 body2 : St -> step_result St.
Variable I : St -> Prop.
Hypothesis agree : forall st, I st -> cond st = true -> body1 st = body2 st.
Hypothesis kept : forall st st', I st -> cond st = true -> body2 st = Continue st' -> I st'.

Lemma while_loop_agree fuel : forall st, I st ->
  while_loop cond body1 fuel st = while_loop cond body2 fuel st.
Proof.
  induction fuel as [|fuel IH]; intros st HI; simpl; [done|].
  destruct (cond st) eqn:Hcond; [|done].
  rewrite (agree st HI Hcond).
  destruct (body2 st) as [st1| |] eqn:Hstep; try done.
  apply IH. by eapply kept.
Qed.

Lemma run_through_agree st rounds st' :
  I st -> run_through cond body2 st rounds st' -> run_through cond body1 st rounds st'.
Proof.
  intros HI Hrun. induction Hrun as [st Hc|st st1 rounds st' Hc Hstep Hrun IH].
  - by constructor.
  - econstructor; [done| |].
    + by rewrite (agree st HI Hc).
    + apply IH. by eapply kept.
Qed.
End LoopsAgree.

(** ** The rounds of a loop *)

Section Rounds.
Context {St : Type}.
Variable cond : St -> bool.
Variable body : St -> step_result St.

(** A loop that finishes has a run. *)
Lemma while_loop_run fuel : forall st st',
  while_loop cond body fuel st = Done st' ->
  exists rounds, run_through cond body st rounds st'.
Proof.
  induction fuel as [|fuel IH]; intros st st' Hrun; simpl in Hrun.
  - destruct (cond st) eqn:Hc; [done|]. simplify_eq. exists []. by constructor.
  - destruct (cond st) eqn:Hc.
    + destruct (body st) as [st1| |] eqn:Hstep; try done.
      destruct (IH st1 st' Hrun) as [rounds Hr].
      exists (st :: rounds). by econstructor.
    + simplify_eq. exists []. by constructor.
Qed.

(** A run is the run of the loop, given fuel for its rounds. *)
Lemma run_through_loop st rounds st' :
  run_through cond body st rounds st' ->
  forall fuel, (length rounds <= fuel)%nat -> while_loop cond body fuel st = Done st'.
Proof.
  induction 1 as [st Hc|st st1 rounds st' Hc Hstep Hrun IH]; intros fuel Hfuel.
  - destruct fuel; simpl; by rewrite Hc.
  - destruct fuel as [|fuel]; [simpl in Hfuel; lia|]. simpl. rewrite Hc, Hstep.
    apply IH. simpl in Hfuel. lia.
Qed.

(** The loop stops where the run stops, and goes on in every round. *)
Lemma run_through_cond st rounds st' :
  run_through cond body st rounds st' ->
  cond st' = false /\ Forall (fun s => cond s = true) rounds.
Proof.
  induction 1 as [st Hc|st st1 rounds st' Hc Hstep Hrun [IH1 IH2]]; [done|].
  split; [done|]. by constructor.
Qed.

(** The first state of a run. *)
Lemma run_through_head st rounds st' :
  run_through cond body st rounds st' -> head (rounds ++ [st']) = Some st.
Proof. by destruct 1. Qed.

(** Consecutive states of a run are a round of the body. *)
Lemma run_through_round st rounds st' :
  run_through cond body st rounds st' ->
  forall s s', round_of (rounds ++ [st']) s s' ->
    cond s = true /\ body s = Continue s'.
Proof.
  induction 1 as [st Hc|st st1 rounds st' Hc Hstep Hrun IH]; intros s s' (j & Hj & Hj').
  - destruct j; simpl in *; by simplify_eq.
  - destruct j as [|j]; simpl in *.
    + simplify_eq. pose proof (run_through_head _ _ _ Hrun) as Hh.
      rewrite <- head_lookup in Hj'. by simplify_eq.
    + apply IH. by exists j.
Qed.

(** An invariant of the body holds in every state of a run, and what every
    round of the body does, the rounds of the run do. *)
Lemma run_through_inv (I : St -> Prop) (R : St -> St -> Prop) st rounds st' :
  (forall s s', I s -> cond s = true -> body s = Continue s' -> I s' /\ R s s') ->
  I st -> run_through cond body st rounds st' ->
  Forall I (rounds ++ [st']) /\
  forall s s', round_of (rounds ++ [st']) s s' -> R s s'.
Proof.
  intros Hstep HI Hrun.
  induction Hrun as [st Hc|st st1 rounds st' Hc Hs Hrun IH].
  - split; [by repeat constructor|].
    intros s s' (j & Hj & Hj'). destruct j; simpl in *; by simplify_eq.
  - destruct (Hstep st st1 HI Hc Hs) as [HI1 HR].
    destruct (IH HI1) as [Hall Hrounds].
    split; [by constructor|].
    intros s s' (j & Hj & Hj'). destruct j as [|j]; simpl in *.
    + simplify_eq. pose proof (run_through_head _ _ _ Hrun) as Hh.
      rewrite <- head_lookup in Hj'. by simplify_eq.
    + apply Hrounds. by exists j.
Qed.

(** Every state of a run is the start of every round. *)
Lemma run_through_states st rounds st' (j : nat) s :
  run_through cond body st rounds st' ->
  rounds !! j = Some s ->
  exists s', (rounds ++ [st']) !! S j = Some s' /\ body s = Continue s'.
Proof.
  intros Hrun Hj.
  assert (is_Some ((rounds ++ [st']) !! S j)) as [s' Hs'].
  { apply lookup_lt_is_Some_2. apply lookup_lt_Some in Hj. rewrite length_app. simpl. lia. }
  exists s'. split; [done|].
  apply (run_through_round _ _ _ Hrun). exists j. split; [|done].
  by apply lookup_app_l_Some.
Qed.
End Rounds.

(** ** Bounds *)

Lemma latest_arrival_ge ps p : p ∈ ps -> arrival p <= latest_arrival ps.
Proof.
  unfold latest_arrival. induction ps as [|x ps IH]; intros Hin.
  - by apply elem_of_nil in Hin.
  - rewrite fmap_cons. cbn [foldr].
    apply elem_of_cons in Hin as [->|Hin]; [lia|].
    specialize (IH Hin). lia.
Qed.

Lemma latest_arrival_nonneg ps : 0 <= latest_arrival ps.
Proof.
  unfold latest_arrival. induction ps; [done|]. rewrite fmap_cons. cbn [foldr]. lia.
Qed.

Lemma latest_arrival_max l l' : 
  (forall p, p ∈ l -> p ∈ l') -> latest_arrival l <= latest_arrival l'.
Proof.
  induction l as [|x l IH]; intros Hsub.
  - apply latest_arrival_nonneg.
  - unfold latest_arrival at 1. rewrite fmap_cons. cbn [foldr].
    fold (latest_arrival l). apply Z.max_lub.
    + apply latest_arrival_ge, Hsub. by left.
    + apply IH. intros p Hp. apply Hsub. by right.
Qed.

Lemma latest_arrival_perm l l' : l ≡ₚ l' -> latest_arrival l = latest_arrival l'.
Proof.
  intros Hperm. apply Z.le_antisymm; apply latest_arrival_max; intros p Hp.
  - by rewrite <- Hperm.
  - by rewrite Hperm.
Qed.

Lemma Zsum_elem_le {A : Type} (f : A -> Z) (l : list A) x :
  Forall (fun y => 0 <= f y) l -> x ∈ l -> f x <= Zsum (f <$> l).
Proof.
  induction 1 as [|y l Hy Hl IH]; intros Hin.
  - by apply elem_of_nil in Hin.
  - pose proof (Zsum_fmap_nonneg f l) as Hnn.
    rewrite fmap_cons, Zsum_cons.
    apply elem_of_cons in Hin as [->|Hin].
    + assert (0 <= Zsum (f <$> l)); [|lia]. apply Hnn. by rewrite <- Forall_forall.
    + specialize (IH Hin). lia.
Qed.

(** A safe set after the sort by arrival. *)
Lemma safe_sorted ps :
  well_formed ps -> safe_times ps ->
  let procs := sort_by (by_ arrival) ps in
  Forall (fun p => 0 <= arrival p <= latest_arrival ps /\ 0 <= burst p) procs /\
  latest_arrival ps + Zsum (burst <$> procs) <= max_safe.
Proof.
  intros [_ Hb] Hsafe procs. unfold procs. split.
  - rewrite sort_by_perm. rewrite Forall_forall in Hb |- *.
    intros p Hp. destruct (Hb p Hp). pose proof (latest_arrival_ge ps p Hp). lia.
  - by rewrite (Zsum_perm _ _ (fmap_Permutation burst _ _ (sort_by_perm _ ps))).
Qed.
(** ** First come, first served on numbers *)

Lemma fcfs_fold_agree A procs : forall t segs,
  Forall (fun p => 0 <= arrival p <= A /\ 0 <= burst p) procs ->
  0 <= t -> Z.max t A + Zsum (burst <$> procs) <= max_safe ->
  foldl Binary64.fcfs_body (t, segs) procs = foldl fcfs_body (t, segs) procs /\
  fst (foldl fcfs_body (t, segs) procs) <= Z.max t A + Zsum (burst <$> procs).
Proof.
  induction procs as [|p procs IH]; intros t segs Hall Ht Hsafe.
  - simpl. split; [done|]. rewrite Z.add_0_r. lia.
  - apply Forall_cons in Hall as [(Ha & Hb) Hall].
    rewrite fmap_cons, Zsum_cons in Hsafe |- *.
    pose proof (Zsum_fmap_nonneg burst procs) as Hnn.
    assert (0 <= Zsum (burst <$> procs)) as Hsum.
    { apply Hnn. intros x Hx. rewrite Forall_forall in Hall. by apply Hall. }
    cbn [foldl]. unfold Binary64.fcfs_body at 2, fcfs_body at 2 4.
    destruct (Z.ltb_spec t (arrival p)) as [Hlt|Hge].
    + rewrite num_add_safe by lia.
      destruct (IH (arrival p + burst p)
                  ((segs ++ [idle_seg t (arrival p)])
                   ++ [run_seg p (arrival p) (arrival p + burst p)]) Hall) as [-> Hle];
        [lia|lia|]. split; [done|]. lia.
    + rewrite num_add_safe by lia.
      destruct (IH (t + burst p) (segs ++ [run_seg p t (t + burst p)]) Hall) as [-> Hle];
        [lia|lia|]. split; [done|]. lia.
Qed.

(** Within the safe integers the sums of FCFS are exact, and the last end
    is within the latest arrival and all the bursts together. *)
Lemma fcfs_exact ps :
  well_formed ps -> safe_times ps ->
  Binary64.scheduleFCFS ps = scheduleFCFS ps /\
  end_from 0 (scheduleFCFS ps) <= latest_arrival ps + Zsum (burst <$> ps).
Proof.
  intros Hwf Hsafe. destruct (safe_sorted ps Hwf Hsafe) as [Hall Hsum].
  pose proof (latest_arrival_nonneg ps) as HA.
  destruct (fcfs_fold_agree (latest_arrival ps) (sort_by (by_ arrival) ps) 0 [] Hall)
    as [Heq Hle]; [lia|lia|].
  unfold Binary64.scheduleFCFS, scheduleFCFS, deepClone. rewrite Heq. split; [done|].
  destruct Hwf as [_ Hb].
  destruct (fcfs_fold (sort_by (by_ arrival) ps) 0 [] []) as (_ & -> & _);
    [|done|done|constructor|].
  - rewrite sort_by_perm. eapply Forall_impl; [exact Hb|]. by intros p [_ ?].
  - rewrite (Zsum_perm _ _ (fmap_Permutation burst _ _ (sort_by_perm _ ps))) in Hle. lia.
Qed.

(** ** Shortest job first and priority on numbers *)

Section NonPreemptiveNumbers.
Variable cmp : Process -> Process -> Z.
Variable remaining : list Process.
Variable A : Z.
Hypothesis bounds : Forall (fun p => 0 <= arrival p <= A /\ 0 <= burst p) remaining.
Hypothesis latest : 0 <= A.
Hypothesis safe : A + Zsum (burst <$> remaining) <= max_safe.

Lemma np_pending_nonneg (i : nat) : Forall (fun p => 0 <= burst p) (drop i remaining).
Proof. apply Forall_drop. eapply Forall_impl; [exact bounds|]. by intros p [_ ?]. Qed.

Lemma Zsum_bursts_nonneg (l : list Process) :
  Forall (fun p => 0 <= burst p) l -> 0 <= Zsum (burst <$> l).
Proof. intros Hall. apply Zsum_fmap_nonneg. by rewrite <- Forall_forall. Qed.

Lemma np_pending_le (i : nat) :
  Zsum (burst <$> drop i remaining) <= Zsum (burst <$> remaining).
Proof.
  rewrite <- (take_drop i remaining) at 2. rewrite fmap_app, Zsum_app.
  assert (0 <= Zsum (burst <$> take i remaining)); [|lia].
  apply Zsum_bursts_nonneg, Forall_take.
  eapply Forall_impl; [exact bounds|]. by intros p [_ ?].
Qed.

Lemma np_init_within : np_within A remaining np_init.
Proof.
  unfold np_within, np_init. simpl. rewrite drop_0. split; [constructor|]. lia.
Qed.

(** A round within the bounds computes with exact sums and stays within the
    bounds. *)
Lemma np_step_within st :
  np_within A remaining st ->
  Binary64.np_step cmp remaining st = np_step cmp remaining st /\
  forall st', np_step cmp remaining st = Continue st' -> np_within A remaining st'.
Proof.
  destruct st as [i ready time segs]. unfold np_within. simpl.
  intros (Hready & Ht & Hle). unfold np_step, Binary64.np_step. simpl.
  destruct (enqueueArrivals_spec remaining time ready i)
    as (n & -> & Hlen & Harr & Hstop).
  assert (Hsplit : Zsum (burst <$> (ready ++ drop i remaining))
                   = Zsum (burst <$> (ready ++ take n (drop i remaining)))
                     + Zsum (burst <$> drop (i + n) remaining)).
  { rewrite (drop_take_drop remaining i n) at 1.
    by rewrite app_assoc, fmap_app, Zsum_app. }
  assert (Hscanned : Forall (fun p => 0 <= burst p) (ready ++ take n (drop i remaining))).
  { apply Forall_app. split; [done|]. apply Forall_take, np_pending_nonneg. }
  pose proof (Zsum_bursts_nonneg _ (np_pending_nonneg (i + n))) as Hrest.
  destruct (ready ++ take n (drop i remaining)) as [|x ready'] eqn:Hq.
  - split; [done|].
    destruct (remaining !! (i + n)%nat) as [r|] eqn:Hr; [|done].
    intros st' [= <-]. simpl.
    assert (Hin : r ∈ remaining) by by eapply list_elem_of_lookup_2.
    pose proof bounds as Hb. rewrite Forall_forall in Hb.
    destruct (Hb r Hin) as [Hr1 Hr2].
    pose proof (np_pending_le (i + n)). split_and!; [constructor|lia|lia].
  - assert (Hsort : sort_by cmp (x :: ready') ≡ₚ x :: ready') by apply sort_by_perm.
    destruct (sort_by cmp (x :: ready')) as [|p rest] eqn:Hs; [done|].
    assert (Hall : Forall (fun p => 0 <= burst p) (p :: rest)) by by rewrite Hsort.
    apply Forall_cons in Hall as [Hp Hall].
    assert (Hsum : Zsum (burst <$> x :: ready') = burst p + Zsum (burst <$> rest)).
    { by rewrite <- (Zsum_perm _ _ (fmap_Permutation burst _ _ Hsort)). }
    pose proof (Zsum_bursts_nonneg _ Hall) as Hnn.
    rewrite num_add_safe by lia. split; [done|].
    intros st' [= <-]. simpl.
    split_and!; [done|lia|]. rewrite fmap_app, Zsum_app. lia.
Qed.

(** The loop on numbers is the loop on integers. *)
Lemma np_loop_exact fuel :
  while_loop (np_cond remaining) (Binary64.np_step cmp remaining) fuel np_init
  = while_loop (np_cond remaining) (np_step cmp remaining) fuel np_init.
Proof.
  apply (while_loop_agree _ _ _ (np_within A remaining)).
  - intros st Hw _. by apply np_step_within.
  - intros st st' Hw _ Hstep. by apply (np_step_within st).
  - apply np_init_within.
Qed.

Lemma np_run_exact : Binary64.np_run cmp remaining = np_run cmp remaining.
Proof. unfold Binary64.np_run, np_run. by rewrite np_loop_exact. Qed.
End NonPreemptiveNumbers.
(** ** Round robin on numbers *)

Lemma Zsum_fmap_gap {A : Type} (f g : A -> Z) (l : list A) x d :
  (forall y, y ∈ l -> g y <= f y) -> x ∈ l -> g x + d <= f x ->
  Zsum (g <$> l) + d <= Zsum (f <$> l).
Proof.
  induction l as [|y l IH]; intros H Hx Hlt.
  - by apply elem_of_nil in Hx.
  - rewrite !fmap_cons, !Zsum_cons. pose proof (H y ltac:(by left)).
    assert (Hl : forall z, z ∈ l -> g z <= f z) by (intros z Hz; apply H; by right).
    apply elem_of_cons in Hx as [->|Hx].
    + pose proof (Zsum_fmap_le f g l Hl). lia.
    + pose proof (IH Hl Hx Hlt). lia.
Qed.

Section RoundRobinNumbers.
Variable procs : list Process.
Variable q : Z.
Variable A : Z.
Hypothesis ids : NoDup (id <$> procs).
Hypothesis bursts : Forall (fun p => 1 <= burst p) procs.
Hypothesis quantum : 1 <= q.
Hypothesis arrivals : Forall (fun p => 0 <= arrival p <= A) procs.
Hypothesis latest : 0 <= A.
Hypothesis safe : A + Zsum (burst <$> procs) <= max_safe.

Lemma rr_init_within : rr_within A procs (rr_init procs).
Proof.
  assert (Hleft : rr_left procs (rr_init procs) = Zsum (burst <$> procs)).
  { unfold rr_left, rr_init.
    destruct (enqueueArrivals_spec procs 0 [] 0) as (n & -> & _). simpl.
    apply Zsum_fmap_ext. intros p Hp. by rewrite rr_initial_map_lookup. }
  unfold rr_within. rewrite Hleft. unfold rr_init.
  destruct (enqueueArrivals_spec procs 0 [] 0) as (n & -> & _). simpl. lia.
Qed.

Lemma rr_left_nonneg st : rr_inv procs st -> 0 <= rr_left procs st.
Proof.
  intros (_ & _ & _ & _ & _ & _ & _ & _ & Hpos & _).
  apply Zsum_fmap_nonneg. intros p _.
  destruct (rr_remainingBurst st !! id p) as [v|] eqn:Hv; [|done].
  specialize (Hpos _ _ Hv). simpl. lia.
Qed.

Lemma rr_left_ge st p rem :
  rr_inv procs st -> p ∈ procs -> rr_remainingBurst st !! id p = Some rem ->
  rem <= rr_left procs st.
Proof.
  intros (_ & _ & _ & _ & _ & _ & _ & _ & Hpos & _) Hp Hrem.
  change rem with (default 0 (Some rem)). rewrite <- Hrem.
  apply (Zsum_elem_le (fun p => default 0 (rr_remainingBurst st !! id p))); [|done].
  rewrite Forall_forall. intros x _.
  destruct (rr_remainingBurst st !! id x) as [v|] eqn:Hv; [|done].
  specialize (Hpos _ _ Hv). simpl. lia.
Qed.

(** A round within the bounds computes with exact sums and differences and
    stays within the bounds. *)
Lemma rr_step_within st :
  rr_inv procs st -> rr_within A procs st -> rr_cond procs st = true ->
  Binary64.rr_step procs q st = rr_step procs q st /\
  forall st', rr_step procs q st = Continue st' -> rr_within A procs st'.
Proof.
  intros Hinv (Ht & Hle & Hsum) Hcond.
  pose proof (rr_left_nonneg st Hinv) as Hnn.
  destruct (rr_queue st) as [|current rest] eqn:Hqueue.
  - split.
    { unfold Binary64.rr_step, rr_step. by rewrite Hqueue. }
    unfold rr_cond in Hcond. rewrite Hqueue in Hcond. simpl in Hcond.
    apply Nat.ltb_lt in Hcond.
    destruct (rr_step_idle procs q st Hinv Hqueue Hcond)
      as (r & n & Hr & Hn & Hstep & Hinv').
    intros st'. rewrite Hstep. intros [= <-].
    unfold rr_within, rr_left in *. simpl.
    assert (Hin : r ∈ procs) by by eapply list_elem_of_lookup_2.
    pose proof arrivals as Ha. rewrite Forall_forall in Ha. specialize (Ha r Hin). lia.
  - destruct (rr_step_run procs q quantum st current rest Hinv Hqueue)
      as (st1 & rem & n & Hrem & Hrem1 & Hstep & Hinv' & Htime & Hidx & _ & _ & _ & Hmap & Hsegs).
    pose proof Hinv as (_ & _ & _ & _ & _ & Hq & _ & _ & Hpos & _).
    pose proof Hinv' as (_ & _ & _ & _ & _ & _ & _ & _ & Hpos' & _).
    assert (Hcur : current ∈ procs) by (apply Hq; rewrite Hqueue; by left).
    pose proof (rr_left_ge st current rem Hinv Hcur Hrem) as Hge.
    split.
    { unfold Binary64.rr_step, rr_step. rewrite Hqueue, Hrem.
      rewrite num_add_safe, num_sub_safe by lia. done. }
    intros st'. rewrite Hstep. intros [= <-].
    assert (Hgap : rr_left procs st1 + Z.min q rem <= rr_left procs st).
    { unfold rr_left.
      apply (Zsum_fmap_gap _ _ procs current); [|done|].
      - intros p _. rewrite Hmap. destruct (0 <? rem - Z.min q rem).
        + destruct (decide (id current = id p)) as [Heq|Hne].
          * rewrite <- Heq, lookup_insert_eq, Hrem. simpl. lia.
          * by rewrite lookup_insert_ne.
        + destruct (decide (id current = id p)) as [Heq|Hne].
          * rewrite <- Heq, lookup_delete_eq, Hrem. simpl. lia.
          * by rewrite lookup_delete_ne.
      - rewrite Hmap, Hrem. destruct (0 <? rem - Z.min q rem) eqn:Hb.
        + rewrite lookup_insert_eq. simpl. lia.
        + rewrite lookup_delete_eq. simpl. apply Z.ltb_ge in Hb. lia. }
    unfold rr_within. rewrite Htime. lia.
Qed.

(** The loop on numbers is the loop on integers. *)
Lemma rr_loop_exact fuel :
  while_loop (rr_cond procs) (Binary64.rr_step procs q) fuel (rr_init procs)
  = while_loop (rr_cond procs) (rr_step procs q) fuel (rr_init procs).
Proof.
  apply (while_loop_agree _ _ _ (fun st => rr_inv procs st /\ rr_within A procs st)).
  - intros st [Hinv Hw] Hcond. by apply rr_step_within.
  - intros st st' [Hinv Hw] Hcond Hstep. split.
    + destruct (rr_step_spec procs q quantum st Hinv Hcond)
        as (st'' & Hstep' & Hinv' & _).
      rewrite Hstep in Hstep'. by simplify_eq.
    + by apply (rr_step_within st).
  - split; [by apply rr_init_inv|apply rr_init_within].
Qed.

Lemma rr_run_exact : Binary64.rr_run procs q = rr_run procs q.
Proof. unfold Binary64.rr_run, rr_run. by rewrite rr_loop_exact. Qed.
End RoundRobinNumbers.
(** ** The four policies on numbers *)

Lemma np_policy_exact cmp ps :
  well_formed ps -> safe_times ps ->
  Binary64.np_run cmp (sort_by (by_ arrival) ps) = np_run cmp (sort_by (by_ arrival) ps).
Proof.
  intros Hwf Hsafe. destruct (safe_sorted ps Hwf Hsafe) as [Hall Hsum].
  apply (np_run_exact cmp _ (latest_arrival ps)); [done| |done].
  apply latest_arrival_nonneg.
Qed.

Lemma rr_policy_exact ps q :
  well_formed ps -> 1 <= q -> safe_times ps ->
  Binary64.scheduleRoundRobin ps q = scheduleRoundRobin ps q.
Proof.
  intros Hwf Hq Hsafe. destruct (safe_sorted ps Hwf Hsafe) as [Hall Hsum].
  destruct (well_formed_sorted ps Hwf) as [Hnd Hb].
  apply (rr_run_exact _ q (latest_arrival ps)); try done.
  - eapply Forall_impl; [exact Hall|]. by intros p [? _].
  - apply latest_arrival_nonneg.
Qed.

(** Within the safe integers, what holds of the schedules computed on
    integers holds of the schedules computed on numbers. *)
Lemma every_policy_numbers (R : list Process -> list Segment -> Prop) ps q :
  well_formed ps -> 1 <= q -> safe_times ps ->
  every_policy R ps q -> Binary64Spec.every_policy R ps q.
Proof.
  intros Hwf Hq Hsafe (Hfcfs & Hsjf & Hprio & Hrr).
  unfold Binary64Spec.every_policy, Binary64.scheduleSJF, Binary64.schedulePriority,
    deepClone.
  rewrite (proj1 (fcfs_exact ps Hwf Hsafe)), !np_policy_exact, rr_policy_exact by done.
  done.
Qed.

Lemma every_nonpreemptive_numbers (R : list Process -> list Segment -> Prop) ps :
  well_formed ps -> safe_times ps ->
  every_nonpreemptive R ps -> Binary64Spec.every_nonpreemptive R ps.
Proof.
  intros Hwf Hsafe (Hfcfs & Hsjf & Hprio).
  unfold Binary64Spec.every_nonpreemptive, Binary64.scheduleSJF,
    Binary64.schedulePriority, deepClone.
  rewrite (proj1 (fcfs_exact ps Hwf Hsafe)), !np_policy_exact by done.
  done.
Qed.

(** ** Termination on numbers *)

(** Within the safe integers the run of the loop on numbers is its run on
    integers: every state of it satisfies the invariant, and every round
    makes progress. *)
Lemma np_runs_safe cmp ps :
  well_formed ps -> safe_times ps ->
  let procs := sort_by (by_ arrival) ps in
  exists rounds st_end,
    run_through (np_cond procs) (np_step cmp procs) np_init rounds st_end /\
    Forall (fun st => np_inv procs st /\ np_within (latest_arrival ps) procs st)
      (rounds ++ [st_end]) /\
    run_through (np_cond procs) (Binary64.np_step cmp procs) np_init rounds st_end /\
    Binary64.np_run cmp procs = Done (np_segments st_end) /\
    (forall fuel, (np_fuel procs <= fuel)%nat ->
       while_loop (np_cond procs) (Binary64.np_step cmp procs) fuel np_init
       = Done st_end) /\
    forall st st', round_of (rounds ++ [st_end]) st st' -> np_progress procs st st'.
Proof.
  intros Hwf Hsafe procs.
  destruct (safe_sorted ps Hwf Hsafe) as [Hall Hsum]. fold procs in Hall, Hsum.
  destruct (well_formed_sorted ps Hwf) as [Hnd Hb]. fold procs in Hnd, Hb.
  pose proof (latest_arrival_nonneg ps) as HA.
  set (I := fun st => np_inv procs st /\ np_within (latest_arrival ps) procs st).
  assert (Hstep : forall st, I st -> np_cond procs st = true ->
            exists st', np_step cmp procs st = Continue st' /\ I st' /\
              np_progress procs st st').
  { intros st [Hinv Hw] Hcond.
    destruct (np_step_spec cmp procs Hb st Hinv Hcond)
      as (st' & Hs & Hinv' & Hmu & Hi & Ht & _).
    exists st'. split; [done|]. split; [|done]. split; [done|].
    by apply (np_step_within cmp procs (latest_arrival ps) Hall Hsum st). }
  assert (Hinit : I np_init).
  { split; [apply np_init_inv|by apply np_init_within]. }
  destruct (while_loop_total (np_cond procs) (np_step cmp procs) I (np_mu procs))
    with (fuel := np_fuel procs) (st := np_init) as (st_end & Hrun & _ & _).
  - intros st HI Hcond. destruct (Hstep st HI Hcond) as (st' & ? & ? & _ & _ & ?).
    by exists st'.
  - done.
  - apply np_init_mu.
  - destruct (while_loop_run _ _ _ _ _ Hrun) as [rounds Hrounds].
    assert (Hexact : forall fuel,
              while_loop (np_cond procs) (Binary64.np_step cmp procs) fuel np_init
              = while_loop (np_cond procs) (np_step cmp procs) fuel np_init).
    { intros fuel. by apply (np_loop_exact cmp procs (latest_arrival ps)). }
    exists rounds, st_end. split_and!.
    + done.
    + apply (run_through_inv _ _ I (fun _ _ => True) _ _ _) in Hrounds as [Hall' _];
        [|by (intros s s' HI Hcond Hs; destruct (Hstep s HI Hcond) as (st'' & Hs' & ? & ?);
              rewrite Hs in Hs'; simplify_eq)|done].
      exact Hall'.
    + apply (run_through_agree _ _ (np_step cmp procs) I); try done.
      * intros st [_ Hw] _.
        by apply (np_step_within cmp procs (latest_arrival ps) Hall Hsum st).
      * intros st st' HI Hcond Hs. destruct (Hstep st HI Hcond) as (st'' & Hs' & ? & _).
        rewrite Hs in Hs'. by simplify_eq.
    + unfold Binary64.np_run. by rewrite Hexact, Hrun.
    + intros fuel Hfuel. rewrite Hexact.
      by apply (while_loop_more_fuel _ _ _ _ _ _ Hrun).
    + apply (run_through_inv _ _ I (np_progress procs) _ _ _) in Hrounds as [_ ?];
        [done| |done].
      intros s s' HI Hcond Hs. destruct (Hstep s HI Hcond) as (st'' & Hs' & ? & ?).
      rewrite Hs in Hs'. by simplify_eq.
Qed.

Lemma np_terminates_safe cmp ps :
  well_formed ps -> safe_times ps ->
  np_terminates cmp (sort_by (by_ arrival) ps)
    (Binary64.np_run cmp (sort_by (by_ arrival) ps)).
Proof.
  intros Hwf Hsafe.
  destruct (np_runs_safe cmp ps Hwf Hsafe) as (rounds & st_end & _ & _ & ? & ? & ? & ?).
  by exists rounds, st_end.
Qed.

Lemma rr_runs_safe ps q :
  well_formed ps -> 1 <= q -> safe_times ps ->
  let procs := sort_by (by_ arrival) ps in
  exists rounds st_end,
    run_through (rr_cond procs) (rr_step procs q) (rr_init procs) rounds st_end /\
    Forall (fun st => rr_inv procs st /\ rr_within (latest_arrival ps) procs st)
      (rounds ++ [st_end]) /\
    run_through (rr_cond procs) (Binary64.rr_step procs q) (rr_init procs) rounds st_end /\
    Binary64.rr_run procs q = Done (rr_segments st_end) /\
    (forall fuel, (rr_fuel procs <= fuel)%nat ->
       while_loop (rr_cond procs) (Binary64.rr_step procs q) fuel (rr_init procs)
       = Done st_end) /\
    forall st st', round_of (rounds ++ [st_end]) st st' -> rr_progress procs st st'.
Proof.
  intros Hwf Hq Hsafe procs.
  destruct (safe_sorted ps Hwf Hsafe) as [Hall Hsum]. fold procs in Hall, Hsum.
  destruct (well_formed_sorted ps Hwf) as [Hnd Hb]. fold procs in Hnd, Hb.
  pose proof (latest_arrival_nonneg ps) as HA.
  assert (Harr : Forall (fun p => 0 <= arrival p <= latest_arrival ps) procs).
  { eapply Forall_impl; [exact Hall|]. by intros p [? _]. }
  set (I := fun st => rr_inv procs st /\ rr_within (latest_arrival ps) procs st).
  assert (Hwithin : forall st, I st -> rr_cond procs st = true ->
            Binary64.rr_step procs q st = rr_step procs q st /\
            forall st', rr_step procs q st = Continue st' ->
              rr_within (latest_arrival ps) procs st').
  { intros st [Hinv Hw] Hcond.
    by apply (rr_step_within procs q (latest_arrival ps)). }
  assert (Hstep : forall st, I st -> rr_cond procs st = true ->
            exists st', rr_step procs q st = Continue st' /\ I st' /\
              rr_progress procs st st').
  { intros st HI Hcond. pose proof HI as [Hinv Hw].
    destruct (rr_step_spec procs q Hq st Hinv Hcond)
      as (st' & Hs & Hinv' & Hmu & Hi & Ht & _).
    exists st'. split; [done|]. split; [|done]. split; [done|].
    by apply (Hwithin st HI Hcond). }
  assert (Hinit : I (rr_init procs)).
  { split; [by apply rr_init_inv|by apply rr_init_within]. }
  destruct (while_loop_total (rr_cond procs) (rr_step procs q) I (rr_mu procs))
    with (fuel := rr_fuel procs) (st := rr_init procs) as (st_end & Hrun & _ & _).
  - intros st HI Hcond. destruct (Hstep st HI Hcond) as (st' & ? & ? & _ & _ & ?).
    by exists st'.
  - done.
  - by apply rr_init_mu.
  - destruct (while_loop_run _ _ _ _ _ Hrun) as [rounds Hrounds].
    assert (Hexact : forall fuel,
              while_loop (rr_cond procs) (Binary64.rr_step procs q) fuel (rr_init procs)
              = while_loop (rr_cond procs) (rr_step procs q) fuel (rr_init procs)).
    { intros fuel. by apply (rr_loop_exact procs q (latest_arrival ps)). }
    exists rounds, st_end. split_and!.
    + done.
    + apply (run_through_inv _ _ I (fun _ _ => True) _ _ _) in Hrounds as [Hall' _];
        [|by (intros s s' HI Hcond Hs; destruct (Hstep s HI Hcond) as (st'' & Hs' & ? & ?);
              rewrite Hs in Hs'; simplify_eq)|done].
      exact Hall'.
    + apply (run_through_agree _ _ (rr_step procs q) I); try done.
      * intros st HI Hcond. by apply (Hwithin st HI Hcond).
      * intros st st' HI Hcond Hs. destruct (Hstep st HI Hcond) as (st'' & Hs' & ? & _).
        rewrite Hs in Hs'. by simplify_eq.
    + unfold Binary64.rr_run. by rewrite Hexact, Hrun.
    + intros fuel Hfuel. rewrite Hexact.
      by apply (while_loop_more_fuel _ _ _ _ _ _ Hrun).
    + apply (run_through_inv _ _ I (rr_progress procs) _ _ _) in Hrounds as [_ ?];
        [done| |done].
      intros s s' HI Hcond Hs. destruct (Hstep s HI Hcond) as (st'' & Hs' & ? & ?).
      rewrite Hs in Hs'. by simplify_eq.
Qed.

Lemma rr_terminates_safe ps q :
  well_formed ps -> 1 <= q -> safe_times ps ->
  rr_terminates (sort_by (by_ arrival) ps) q (Binary64.scheduleRoundRobin ps q).
Proof.
  intros Hwf Hq Hsafe.
  destruct (rr_runs_safe ps q Hwf Hq Hsafe) as (rounds & st_end & _ & _ & ? & ? & ? & ?).
  by exists rounds, st_end.
Qed.


(** ** The loop of SJF and priority terminates on all numbers *)

Section NonPreemptiveTotal.
Variable cmp : Process -> Process -> Z.
Variable remaining : list Process.

(** A round does not fail, keeps the index within the array and lowers the
    variant, whatever the times are. *)
Lemma np_step_total st :
  (np_i st <= length remaining)%nat -> np_cond remaining st = true ->
  exists st',
    Binary64.np_step cmp remaining st = Continue st' /\
    (np_i st' <= length remaining)%nat /\
    (np_mu remaining st' < np_mu remaining st)%nat.
Proof.
  destruct st as [i ready time segs]. simpl. intros Hi Hcond.
  unfold Binary64.np_step, np_cond in *. simpl in *.
  destruct (enqueueArrivals_spec remaining time ready i)
    as (n & -> & Hlen & Harr & Hstop).
  pose proof (scanned_in_range _ _ _ Hi Hlen) as Hin.
  destruct (ready ++ take n (drop i remaining)) as [|x ready'] eqn:Hready.
  - apply app_eq_nil in Hready as [-> Hnil].
    rewrite Hnil in Hlen. simpl in Hlen. subst n. rewrite Nat.add_0_r in *.
    simpl in Hcond. rewrite orb_false_r in Hcond. apply Nat.ltb_lt in Hcond.
    destruct (lookup_lt_is_Some_2 remaining i Hcond) as [r Hr].
    rewrite Hr. specialize (Hstop r Hr).
    eexists. split; [reflexivity|]. unfold np_mu. simpl. rewrite Hr.
    destruct (Z.leb_spec (arrival r) time); [lia|].
    rewrite Z.leb_refl. lia.
  - assert (Hsort : sort_by cmp (x :: ready') ≡ₚ x :: ready') by apply sort_by_perm.
    destruct (sort_by cmp (x :: ready')) as [|p rest] eqn:Hs.
    { by apply Permutation_nil_cons in Hsort. }
    assert (Hlr : length (x :: ready') = S (length rest)).
    { by rewrite <- Hsort. }
    assert (Hlr' : (length ready + n = length (x :: ready'))%nat).
    { by rewrite <- Hready, length_app, Hlen. }
    eexists. split; [reflexivity|]. unfold np_mu. simpl. split; [lia|].
    destruct rest, ready; simpl in *;
      repeat match goal with |- context [match ?o with _ => _ end] => destruct o end; lia.
Qed.

(** The loop has a run, which the function returns the segments of; what a
    round keeps holds in every state of the run. *)
Lemma np_run_total (J : np_state -> Prop) :
  J np_init ->
  (forall st st', J st -> Binary64.np_step cmp remaining st = Continue st' -> J st') ->
  exists rounds st_end,
    run_through (np_cond remaining) (Binary64.np_step cmp remaining)
      np_init rounds st_end /\
    Binary64.np_run cmp remaining = Done (np_segments st_end) /\
    Forall J (rounds ++ [st_end]).
Proof.
  intros Hinit Hkeep.
  set (I := fun st => (np_i st <= length remaining)%nat /\ J st).
  destruct (while_loop_total (np_cond remaining) (Binary64.np_step cmp remaining)
              I (np_mu remaining)) with (fuel := np_fuel remaining) (st := np_init)
    as (st_end & Hrun & _ & _).
  - intros st [Hi HJ] Hcond. destruct (np_step_total st Hi Hcond) as (st' & Hs & ? & ?).
    exists st'. split; [done|]. split; [|done]. split; [done|]. by eapply Hkeep.
  - split; [simpl; lia|done].
  - apply np_init_mu.
  - destruct (while_loop_run _ _ _ _ _ Hrun) as [rounds Hrounds].
    exists rounds, st_end. split; [done|]. split.
    + unfold Binary64.np_run. by rewrite Hrun.
    + apply (run_through_inv _ _ J (fun _ _ => True) _ _ _) in Hrounds as [? _];
        [done| |done].
      intros s s' HJ _ Hs. split; [|done]. by eapply Hkeep.
Qed.
End NonPreemptiveTotal.

(** ** The number of a decimal *)













(** ** The properties of the engine *)

(** Well-formedness of a concrete process set, by evaluation. *)
Ltac concrete_well_formed :=
  split; [apply (bool_decide_unpack _); by vm_compute
         |repeat constructor; simpl; lia].

Lemma fcfs_length procs : forall t segs,
  (length (snd (foldl fcfs_body (t, segs) procs)) <= length segs + 2 * length procs)%nat.
Proof.
  induction procs as [|p procs IH]; intros t segs; simpl; [lia|].
  destruct (t <? arrival p).
  - etrans; [apply IH|]. rewrite !length_app. simpl. lia.
  - etrans; [apply IH|]. rewrite !length_app. simpl. lia.
Qed.

(** Safety of a concrete process set, by evaluation. *)
Ltac concrete_safe := by vm_compute.

(** The partition property of the schedules computed on integers. *)
Lemma timeline_on_integers (ps : list Process) (q : Z) :
  well_formed ps -> 1 <= q -> every_policy timeline_of ps q.
Proof.
  intros Hwf Hq. unfold every_policy, scheduleSJF, schedulePriority,
    scheduleRoundRobin, np_run, rr_run, deepClone.
  split_and!.
  - by apply fcfs_correct.
  - destruct (np_correct (by_ burst) ps Hwf) as (segs & Hrun & Ht & _).
    exists segs. split; [by apply Hrun|done].
  - destruct (np_correct cmp_priority ps Hwf) as (segs & Hrun & Ht & _).
    exists segs. split; [by apply Hrun|done].
  - destruct (rr_correct ps q Hwf Hq) as (segs & Hrun & Ht & _).
    exists segs. split; [by apply Hrun|done].
Qed.

(** Conservation in the schedules computed on integers. *)
Lemma conservation_on_integers (ps : list Process) (q : Z) :
  well_formed ps -> 1 <= q -> every_policy conserved_named ps q.
Proof.
  intros Hwf Hq. unfold every_policy, scheduleSJF, schedulePriority,
    scheduleRoundRobin, np_run, rr_run, deepClone, conserved_named.
  split_and!.
  - intros p Hp Hne. by apply fcfs_correct.
  - destruct (np_correct (by_ burst) ps Hwf) as (segs & Hrun & _ & Hacc).
    exists segs. split; [by apply Hrun|]. intros p Hp Hne. by apply Hacc.
  - destruct (np_correct cmp_priority ps Hwf) as (segs & Hrun & _ & Hacc).
    exists segs. split; [by apply Hrun|]. intros p Hp Hne. by apply Hacc.
  - destruct (rr_correct ps q Hwf Hq) as (segs & Hrun & _ & Hacc).
    exists segs. split; [by apply Hrun|done].
Qed.

(** No preemption in the schedules computed on integers. *)
Lemma non_preemption_on_integers (ps : list Process) :
  well_formed ps -> every_nonpreemptive unpreempted_named ps.
Proof.
  intros Hwf. unfold every_nonpreemptive, scheduleSJF, schedulePriority,
    np_run, deepClone, unpreempted_named.
  split_and!.
  - intros p Hp Hne. destruct (fcfs_correct ps Hwf) as [_ Hacc].
    destruct (Hacc p Hp Hne) as [Hd Ho]. split; [lia|by apply occ_one_single].
  - destruct (np_correct (by_ burst) ps Hwf) as (segs & Hrun & _ & Hacc).
    exists segs. split; [by apply Hrun|]. intros p Hp Hne.
    destruct (Hacc p Hp Hne) as [Hd Ho]. split; [lia|by apply occ_one_single].
  - destruct (np_correct cmp_priority ps Hwf) as (segs & Hrun & _ & Hacc).
    exists segs. split; [by apply Hrun|]. intros p Hp Hne.
    destruct (Hacc p Hp Hne) as [Hd Ho]. split; [lia|by apply occ_one_single].
Qed.

(** C1, as amended. For every well-formed process set whose latest arrival
    and bursts together stay within the largest safe integer, and every
    policy (round robin with a quantum of at least 1), the segment list
    computed on numbers is a contiguous partition of time: starts never
    decrease, each segment ends where the next one starts, every segment
    ends after it starts, the first segment of a non-empty set starts at 0,
    and every segment is the run of a process or an explicit IDLE
    segment. *)
Theorem segments_partition_time (ps : list Process) (q : Z) :
  well_formed ps -> 1 <= q -> safe_times ps ->
  Binary64Spec.every_policy timeline_of ps q.
Proof.
  intros Hwf Hq Hsafe. apply every_policy_numbers; try done.
  by apply timeline_on_integers.
Qed.

Lemma segments_partition_time_witness :
  well_formed demo /\ 1 <= 2 /\ safe_times demo /\
  Binary64Spec.every_policy timeline_of demo 2.
Proof.
  split_and!; [| | |apply (segments_partition_time demo 2)].
  - concrete_well_formed.
  - lia.
  - concrete_safe.
  - concrete_well_formed.
  - lia.
  - concrete_safe.
Defined.

(** C1, as stated, fails: when the bursts add up to more than the largest
    safe integer the time stops advancing, and first come, first served
    returns a segment that ends where it starts. *)
Lemma segments_partition_fails_beyond_safe_integers :
  well_formed beyond_safe /\
  Binary64.scheduleFCFS beyond_safe
  = [mkSegment "A" 0 (2 ^ 53); mkSegment "B" (2 ^ 53) (2 ^ 53)] /\
  ~ Binary64Spec.every_policy timeline_of beyond_safe 1.
Proof.
  split_and!.
  - concrete_well_formed.
  - by vm_compute.
  - intros [((_ & _ & Hpos & _) & _) _].
    assert (Hrun : Binary64.scheduleFCFS beyond_safe
                   = [mkSegment "A" 0 (2 ^ 53); mkSegment "B" (2 ^ 53) (2 ^ 53)])
      by by vm_compute.
    rewrite Hrun in Hpos. apply Forall_cons in Hpos as [_ Hpos].
    apply Forall_cons in Hpos as [Hpos _]. simpl in Hpos. lia.
Qed.

(** C3, as amended. For every well-formed process set whose latest arrival
    and bursts together stay within the largest safe integer, and every
    policy, the durations of the segments that bear the id of a process add
    up to its burst, for every process whose id is not the idle sentinel. *)
Theorem conservation (ps : list Process) (q : Z) :
  well_formed ps -> 1 <= q -> safe_times ps ->
  Binary64Spec.every_policy conserved_named ps q.
Proof.
  intros Hwf Hq Hsafe. apply every_policy_numbers; try done.
  by apply conservation_on_integers.
Qed.

Lemma conservation_witness :
  well_formed demo /\ 1 <= 2 /\ safe_times demo /\
  Binary64Spec.every_policy conserved_named demo 2.
Proof.
  split_and!; [| | |apply (conservation demo 2)].
  - concrete_well_formed.
  - lia.
  - concrete_safe.
  - concrete_well_formed.
  - lia.
  - concrete_safe.
Defined.

(** C3, as stated, fails twice.  A process whose id is the idle sentinel
    shares its id with the idle segment before its arrival, and the
    durations under that id add up to 2 for a burst of 1.  And when the
    bursts add up to more than the largest safe integer, the run of a
    process of burst 1 lasts 0 under first come, first served. *)
Lemma conservation_fails_for_idle_id_and_beyond_safe_integers :
  (well_formed idle_named /\
   Binary64.scheduleFCFS idle_named = [mkSegment "IDLE" 0 1; mkSegment "IDLE" 1 2] /\
   dur "IDLE" (Binary64.scheduleFCFS idle_named) = 2 /\
   ~ Binary64Spec.every_policy conserved idle_named 1) /\
  (well_formed beyond_safe /\
   dur "B" (Binary64.scheduleFCFS beyond_safe) = 0 /\
   ~ Binary64Spec.every_policy conserved beyond_safe 1 /\
   ~ Binary64Spec.every_policy conserved_named beyond_safe 1).
Proof.
  assert (Hin : P "B" 0 1 0 ∈ beyond_safe) by (right; by left).
  split; split_and!.
  - concrete_well_formed.
  - by vm_compute.
  - by vm_compute.
  - intros [Hfcfs _]. specialize (Hfcfs (mkProcess "IDLE" 1 1 0)).
    assert (Hidle : mkProcess "IDLE" 1 1 0 ∈ idle_named) by (by left).
    specialize (Hfcfs Hidle). vm_compute in Hfcfs. discriminate.
  - concrete_well_formed.
  - by vm_compute.
  - intros [Hfcfs _]. specialize (Hfcfs _ Hin). vm_compute in Hfcfs. discriminate.
  - intros [Hfcfs _]. specialize (Hfcfs _ Hin ltac:(done)).
    vm_compute in Hfcfs. discriminate.
Qed.

(** C4, as amended. For every well-formed process set whose latest arrival
    and bursts together stay within the largest safe integer, FCFS, SJF and
    priority give every process whose id is not the idle sentinel one
    segment, as long as its burst. *)
Theorem non_preemption (ps : list Process) :
  well_formed ps -> safe_times ps ->
  Binary64Spec.every_nonpreemptive unpreempted_named ps.
Proof.
  intros Hwf Hsafe. apply every_nonpreemptive_numbers; try done.
  by apply non_preemption_on_integers.
Qed.

Lemma non_preemption_witness :
  well_formed demo /\ safe_times demo /\
  Binary64Spec.every_nonpreemptive unpreempted_named demo.
Proof.
  split_and!; [| |apply (non_preemption demo)].
  - concrete_well_formed.
  - concrete_safe.
  - concrete_well_formed.
  - concrete_safe.
Defined.

(** C4, as stated, fails twice.  The id of a process that is the idle
    sentinel appears in two segments, the idle segment and the run.  And
    when the bursts add up to more than the largest safe integer, the one
    segment of a process of burst 1 lasts 0 under first come, first served:
    the process does not run its full burst. *)
Lemma non_preemption_fails_for_idle_id_and_beyond_safe_integers :
  (well_formed idle_named /\
   Binary64.scheduleFCFS idle_named = [mkSegment "IDLE" 0 1; mkSegment "IDLE" 1 2] /\
   occ "IDLE" (Binary64.scheduleFCFS idle_named) = 2%nat /\
   ~ Binary64Spec.every_nonpreemptive unpreempted idle_named) /\
  (well_formed beyond_safe /\
   segs_of "B" (Binary64.scheduleFCFS beyond_safe) = [mkSegment "B" (2 ^ 53) (2 ^ 53)] /\
   ~ single_run (P "B" 0 1 0) (Binary64.scheduleFCFS beyond_safe) /\
   ~ Binary64Spec.every_nonpreemptive unpreempted_named beyond_safe).
Proof.
  assert (Hin : P "B" 0 1 0 ∈ beyond_safe) by (right; by left).
  assert (Hsegs : segs_of "B" (Binary64.scheduleFCFS beyond_safe)
                  = [mkSegment "B" (2 ^ 53) (2 ^ 53)]) by by vm_compute.
  assert (Hno : ~ single_run (P "B" 0 1 0) (Binary64.scheduleFCFS beyond_safe)).
  { intros (s & Hs & Hd). simpl in Hs. rewrite Hsegs in Hs.
    injection Hs as <-. simpl in Hd. lia. }
  split; split_and!.
  - concrete_well_formed.
  - by vm_compute.
  - by vm_compute.
  - intros [Hfcfs _]. specialize (Hfcfs (mkProcess "IDLE" 1 1 0)).
    assert (Hidle : mkProcess "IDLE" 1 1 0 ∈ idle_named) by (by left).
    specialize (Hfcfs Hidle). vm_compute in Hfcfs. lia.
  - concrete_well_formed.
  - done.
  - done.
  - intros [Hfcfs _]. by destruct (Hfcfs _ Hin ltac:(done)) as [_ Hsingle].
Qed.

(** C6. On the empty process set every policy returns the empty segment
    list, and the metrics divide by 1 and return zero for both averages. *)
Theorem empty_process_set (q : Z) (segments : list Segment) :
  scheduleFCFS [] = [] /\
  scheduleSJF [] = Done [] /\
  schedulePriority [] = Done [] /\
  scheduleRoundRobin [] q = Done [] /\
  metrics_n [] = 1 /\
  computeMetrics [] segments = mkMetrics (S754_zero false) (S754_zero false).
Proof. by split_and!. Qed.

(** C8, as amended. On every well-formed process set whose latest arrival
    and bursts together stay within the largest safe integer, the four
    policies return a segment list: they neither throw nor run out of fuel,
    and more fuel does not change the result.  Every round of the run of a
    loop never moves the pending index back, moves the time forward and
    lowers the variant (the processes not yet done, and for round robin the
    burst left); FCFS is a single pass that emits a segment for every
    process and at most two. *)
Theorem policies_terminate (ps : list Process) (q : Z) :
  well_formed ps -> 1 <= q -> safe_times ps ->
  let procs := sort_by (by_ arrival) ps in
  (length ps <= length (Binary64.scheduleFCFS ps) <= 2 * length ps)%nat /\
  np_terminates (by_ burst) procs (Binary64.scheduleSJF ps) /\
  np_terminates cmp_priority procs (Binary64.schedulePriority ps) /\
  rr_terminates procs q (Binary64.scheduleRoundRobin ps q) /\
  (forall cmp, np_terminates cmp procs (Binary64.np_run cmp procs)).
Proof.
  intros Hwf Hq Hsafe procs.
  assert (Hnp : forall cmp, np_terminates cmp procs (Binary64.np_run cmp procs)).
  { intros cmp. by apply np_terminates_safe. }
  split_and!.
  - rewrite (proj1 (fcfs_exact ps Hwf Hsafe)).
    destruct (well_formed_sorted ps Hwf) as [_ Hb].
    destruct (fcfs_spec ps) as [_ Ha].
    { destruct Hwf as [_ Hall]. eapply Forall_impl; [exact Hall|]. by intros p [_ ?]. }
    apply accounts_length in Ha. unfold full_runs in Ha.
    rewrite length_fmap, sort_by_length in Ha. done.
  - rewrite (proj1 (fcfs_exact ps Hwf Hsafe)). unfold scheduleFCFS, deepClone.
    etrans; [apply fcfs_length|]. rewrite sort_by_length. simpl. lia.
  - apply Hnp.
  - apply Hnp.
  - by apply rr_terminates_safe.
  - done.
Qed.

Lemma policies_terminate_witness :
  well_formed demo /\ 1 <= 2 /\ safe_times demo /\
  exists segs, Binary64.scheduleRoundRobin demo 2 = Done segs.
Proof.
  split_and!.
  - concrete_well_formed.
  - lia.
  - concrete_safe.
  - assert (Hwf : well_formed demo).
    { concrete_well_formed. }
    assert (Hq : 1 <= 2) by lia.
    assert (Hsafe : safe_times demo).
    { concrete_safe. }
    destruct (policies_terminate demo 2 Hwf Hq Hsafe)
      as (_ & _ & _ & (rounds & st_end & _ & Hrun & _) & _).
    by eexists.
Defined.

(** C8, as stated, fails: when the bursts add up to more than the largest
    safe integer, shortest job first runs the second process in a round that
    emits its segment and leaves the time where it was. *)
Lemma policies_terminate_fails_beyond_safe_integers :
  well_formed beyond_safe_late /\
  Binary64.scheduleSJF beyond_safe_late
  = Done [mkSegment "A" 0 (2 ^ 53); mkSegment "B" (2 ^ 53) (2 ^ 53)] /\
  (exists st st',
     Binary64.np_step (by_ burst) (sort_by (by_ arrival) beyond_safe_late) st
     = Continue st' /\
     np_segments st' = np_segments st ++ [mkSegment "B" (2 ^ 53) (2 ^ 53)] /\
     np_time st' = np_time st) /\
  ~ np_terminates (by_ burst) (sort_by (by_ arrival) beyond_safe_late)
      (Binary64.scheduleSJF beyond_safe_late).
Proof.
  set (st1 := mkNp 1 [] (2 ^ 53) [mkSegment "A" 0 (2 ^ 53)]).
  set (st2 := mkNp 2 [] (2 ^ 53)
                [mkSegment "A" 0 (2 ^ 53); mkSegment "B" (2 ^ 53) (2 ^ 53)]).
  assert (H0 : Binary64.np_step (by_ burst) (sort_by (by_ arrival) beyond_safe_late) np_init
               = Continue st1) by by vm_compute.
  assert (H1 : Binary64.np_step (by_ burst) (sort_by (by_ arrival) beyond_safe_late) st1
               = Continue st2) by by vm_compute.
  split_and!.
  - concrete_well_formed.
  - by vm_compute.
  - exists st1, st2. by split_and!.
  - intros (rounds & st_end & Hrun & _ & _ & Hprog).
    inversion Hrun as [? Hc|? st1' rounds1 ? _ Hs1 Hrun1]; subst.
    { by vm_compute in Hc. }
    rewrite H0 in Hs1. injection Hs1 as <-.
    inversion Hrun1 as [? Hc|? st2' rounds2 ? _ Hs2 Hrun2]; subst.
    { by vm_compute in Hc. }
    rewrite H1 in Hs2. injection Hs2 as <-.
    destruct (Hprog st1 st2) as (_ & Ht & _).
    + exists 1%nat. split; [done|]. simpl.
      rewrite <- head_lookup. by eapply run_through_head.
    + simpl in Ht. lia.
Qed.



(** ** The tie-break of shortest job first *)

Section Stability.
Context (k : Process -> Z).

(** An element that nothing in the list precedes in the order goes first. *)
Lemma sort_insert_head x l :
  (forall y, y ∈ l -> k x <= k y) -> sort_insert (by_ k) x l = x :: l.
Proof.
  destruct l as [|y l]; [done|]. intros H. simpl.
  destruct (Z.leb_spec (by_ k x y) 0) as [_|Hgt]; [done|].
  pose proof (by_le k x y). pose proof (H y ltac:(by left)). lia.
Qed.

(** An element with a strictly smaller key stays ahead of an insertion. *)
Lemma sort_insert_after a x l :
  k x < k a -> sort_insert (by_ k) a (x :: l) = x :: sort_insert (by_ k) a l.
Proof.
  intros Hlt. simpl. destruct (Z.leb_spec (by_ k a x) 0) as [Hle|_]; [|done].
  apply by_le in Hle. lia.
Qed.

(** The sort moves the first element of minimal key to the front and keeps
    the others as the sort of the rest. *)
Lemma sort_by_first_min l1 x l2 :
  (forall y, y ∈ l1 -> k x < k y) -> (forall y, y ∈ l2 -> k x <= k y) ->
  sort_by (by_ k) (l1 ++ x :: l2) = x :: sort_by (by_ k) (l1 ++ l2).
Proof.
  intros H1 H2. induction l1 as [|a l1 IH]; simpl.
  - apply sort_insert_head. intros y Hy. apply H2. by rewrite <- (sort_by_perm (by_ k)).
  - rewrite IH by (intros y Hy; apply H1; by right).
    apply sort_insert_after. apply H1. by left.
Qed.

(** Every non-empty list has a first element of minimal key. *)
Lemma first_min_exists (l : list Process) :
  l <> [] ->
  exists l1 x l2, l = l1 ++ x :: l2 /\
    (forall y, y ∈ l1 -> k x < k y) /\ (forall y, y ∈ l2 -> k x <= k y).
Proof.
  induction l as [|a l IH]; [done|]. intros _.
  destruct l as [|b l].
  - exists [], a, []. split; [done|]. split; intros y Hy; by apply elem_of_nil in Hy.
  - destruct IH as (l1 & x & l2 & Heq & H1 & H2); [done|].
    destruct (Z.le_gt_cases (k a) (k x)) as [Hle|Hgt].
    + exists [], a, (b :: l). split; [done|].
      split; [intros y Hy; by apply elem_of_nil in Hy|].
      intros y Hy. rewrite Heq in Hy.
      apply elem_of_app in Hy as [Hy|Hy]; [specialize (H1 y Hy); lia|].
      apply elem_of_cons in Hy as [->|Hy]; [done|]. specialize (H2 y Hy). lia.
    + exists (a :: l1), x, l2. split; [by rewrite Heq|]. split; [|done].
      intros y Hy. apply elem_of_cons in Hy as [->|Hy]; [lia|by apply H1].
Qed.

(** Stability: the elements of equal key keep their order. *)
Lemma sort_insert_filter x l v :
  filter (fun p => k p = v) (sort_insert (by_ k) x l)
  = filter (fun p => k p = v) (x :: l).
Proof.
  induction l as [|y l IH]; [done|]. simpl.
  destruct (Z.leb_spec (by_ k x y) 0) as [Hle|Hgt]; [done|].
  assert (k y < k x) by (pose proof (by_le k x y); lia).
  rewrite (filter_cons _ y), IH, !filter_cons.
  destruct (decide (k y = v)), (decide (k x = v)); try done. lia.
Qed.

Lemma sort_by_stable l v :
  filter (fun p => k p = v) (sort_by (by_ k) l) = filter (fun p => k p = v) l.
Proof.
  induction l as [|x l IH]; [done|]. simpl.
  by rewrite sort_insert_filter, !filter_cons, IH.
Qed.
End Stability.

(** The scan keeps the ready processes of equal burst in array order. *)
Lemma scan_keeps_array_order remaining (st : np_state) ready (i : nat) b :
  equal_bursts_in_array_order remaining st ->
  enqueueArrivals remaining (np_time st) (np_ready st) (np_i st) = (ready, i) ->
  filter (fun p => burst p = b) ready
  `sublist_of` filter (fun p => burst p = b) (take i remaining).
Proof.
  intros HJ Hscan.
  destruct (enqueueArrivals_spec remaining (np_time st) (np_ready st) (np_i st))
    as (n & Hscan' & _).
  rewrite Hscan in Hscan'. injection Hscan' as -> ->.
  rewrite <- take_take_drop, !filter_app.
  apply sublist_app; [apply HJ|done].
Qed.

(** A round of SJF on numbers keeps them in array order. *)
Lemma sjf_round_keeps_array_order remaining st st' :
  equal_bursts_in_array_order remaining st ->
  Binary64.np_step (by_ burst) remaining st = Continue st' ->
  equal_bursts_in_array_order remaining st'.
Proof.
  intros HJ Hstep b. unfold Binary64.np_step in Hstep.
  destruct (enqueueArrivals remaining (np_time st) (np_ready st) (np_i st))
    as [ready i] eqn:Hscan.
  pose proof (scan_keeps_array_order remaining st ready i b HJ Hscan) as Hsub.
  destruct ready as [|r ready'].
  - destruct (remaining !! i); [|discriminate].
    injection Hstep as <-. simpl. apply sublist_nil_l.
  - destruct (sort_by (by_ burst) (r :: ready')) as [|p rest] eqn:Hsort; [discriminate|].
    injection Hstep as <-. simpl.
    rewrite <- (sort_by_stable burst (r :: ready') b), Hsort in Hsub.
    etrans; [|exact Hsub].
    rewrite (filter_cons _ p). destruct (decide (burst p = b)); [by apply sublist_cons|done].
Qed.

(** C7. [scheduleSJF] returns, for every process list, the segments of a run
    of its loop in which every non-empty ready list splits around its first
    element of minimal burst: the elements before it have a larger burst,
    the elements after it a burst at least as large.  The sort brings that
    element to the front, the round runs it for its whole burst and keeps
    the sort of the others as the ready list.  The ready processes of equal
    burst are in the order of the arrival-sorted array in every round, so
    the selected process is the first of them in that array.  The sort by
    burst keeps the order of the processes of equal burst, and the sort by
    arrival keeps the input order of the processes of equal arrival. *)
Theorem sjf_tie_break (ps : list Process) :
  let remaining := sort_by (by_ arrival) ps in
  (exists rounds st_end,
     run_through (np_cond remaining) (Binary64.np_step (by_ burst) remaining)
       np_init rounds st_end /\
     Binary64.scheduleSJF ps = Done (np_segments st_end) /\
     forall (j : nat) st ready (i : nat),
       rounds !! j = Some st ->
       enqueueArrivals remaining (np_time st) (np_ready st) (np_i st) = (ready, i) ->
       ready <> [] ->
       exists l1 x l2 later,
         ready = l1 ++ x :: l2 /\
         (forall y, y ∈ l1 -> burst x < burst y) /\
         (forall y, y ∈ l2 -> burst x <= burst y) /\
         sort_by (by_ burst) ready = x :: sort_by (by_ burst) (l1 ++ l2) /\
         (rounds ++ [st_end]) !! S j
         = Some (mkNp i (sort_by (by_ burst) (l1 ++ l2))
                   (num_add (np_time st) (burst x))
                   (np_segments st
                      ++ [run_seg x (np_time st) (num_add (np_time st) (burst x))])) /\
         filter (fun p => burst p = burst x) ready = x :: later /\
         x :: later
         `sublist_of` filter (fun p => burst p = burst x) (take i remaining)) /\
  (forall ready b, filter (fun p => burst p = b) (sort_by (by_ burst) ready)
                   = filter (fun p => burst p = b) ready) /\
  (forall a, filter (fun p => arrival p = a) remaining
             = filter (fun p => arrival p = a) ps).
Proof.
  intros remaining. split_and!.
  - destruct (np_run_total (by_ burst) remaining (equal_bursts_in_array_order remaining))
      as (rounds & st_end & Hrun & Hdone & Hall).
    { intros b. simpl. apply sublist_nil_l. }
    { apply sjf_round_keeps_array_order. }
    exists rounds, st_end. split; [done|]. split; [done|].
    intros j st ready i Hj Hscan Hne.
    destruct (run_through_states _ _ _ _ _ j st Hrun Hj) as (st' & Hj' & Hstep).
    assert (HJ : equal_bursts_in_array_order remaining st).
    { rewrite Forall_forall in Hall. apply Hall.
      eapply list_elem_of_lookup_2. by apply lookup_app_l_Some. }
    destruct (first_min_exists burst ready Hne) as (l1 & x & l2 & Heq & H1 & H2).
    assert (Hfilter : filter (fun p => burst p = burst x) ready
                      = x :: filter (fun p => burst p = burst x) l2).
    { rewrite Heq, filter_app, filter_cons.
      destruct (decide (burst x = burst x)); [|done].
      rewrite (filter_none _ l1); [done|].
      apply Forall_forall. intros y Hy. specialize (H1 y Hy). lia. }
    exists l1, x, l2, (filter (fun p => burst p = burst x) l2).
    split_and!; try done.
    + rewrite Heq. by apply sort_by_first_min.
    + rewrite Hj'. f_equal. unfold Binary64.np_step in Hstep. rewrite Hscan in Hstep.
      destruct ready as [|r ready']; [done|].
      rewrite Heq, (sort_by_first_min burst l1 x l2 H1 H2) in Hstep.
      by injection Hstep.
    + rewrite <- Hfilter. by apply (scan_keeps_array_order remaining st).
  - intros ready b. apply sort_by_stable.
  - intros a. apply sort_by_stable.
Qed.

Lemma sjf_tie_break_witness :
  exists segs,
    Binary64.scheduleSJF [P "A" 0 3 0; P "B" 0 2 0; P "C" 0 2 0] = Done segs /\
    head segs = Some (mkSegment "B" 0 2).
Proof.
  destruct (sjf_tie_break [P "A" 0 3 0; P "B" 0 2 0; P "C" 0 2 0])
    as ((rounds & st_end & _ & Hdone & _) & _).
  exists (np_segments st_end). split; [exact Hdone|].
  assert (H0 : Binary64.scheduleSJF [P "A" 0 3 0; P "B" 0 2 0; P "C" 0 2 0]
               = Done [mkSegment "B" 0 2; mkSegment "C" 2 4; mkSegment "A" 4 7])
    by by vm_compute.
  rewrite H0 in Hdone. by injection Hdone as <-.
Defined.

(** ** The tick expander *)

Lemma find_none_uncovered (t : Z) (segments : list Segment) :
  (forall s, s ∈ segments -> ~ (start s <= t < end_ s)) ->
  find (covers t) segments = None.
Proof.
  induction segments as [|s segments IH]; intros H; [done|]. simpl.
  destruct (covers t s) eqn:Hc.
  - exfalso. apply (H s); [by left|]. unfold covers in Hc.
    apply andb_true_iff in Hc as [H1 H2]. apply Z.leb_le in H1. apply Z.ltb_lt in H2. lia.
  - apply IH. intros s' Hs'. apply H. by right.
Qed.

Lemma find_first_covering (t : Z) (l1 : list Segment) (s : Segment) (l2 : list Segment) :
  (forall s', s' ∈ l1 -> ~ (start s' <= t < end_ s')) ->
  start s <= t < end_ s ->
  find (covers t) (l1 ++ s :: l2) = Some s.
Proof.
  induction l1 as [|s0 l1 IH]; intros H Hs; simpl.
  - unfold covers. destruct (Z.leb_spec (start s) t), (Z.ltb_spec t (end_ s)); simpl; [done|lia..].
  - destruct (covers t s0) eqn:Hc.
    + exfalso. apply (H s0); [by left|]. unfold covers in Hc.
      apply andb_true_iff in Hc as [H1 H2]. apply Z.leb_le in H1. apply Z.ltb_lt in H2. lia.
    + apply IH; [|done]. intros s' Hs'. apply H. by right.
Qed.

(** C10. For every segment list the tick sequence has as many entries as
    the end of the last segment says (none for an empty list); the entry of
    a tick that no segment covers is the idle sentinel, and the entry of a
    covered tick is the id of the first segment that covers it. *)
Theorem ticks_total (segments : list Segment) :
  length (segmentsToTicks segments) = Z.to_nat (end_from 0 segments) /\
  (segments = [] -> segmentsToTicks segments = []) /\
  (0 <= end_from 0 segments ->
   Z.of_nat (length (segmentsToTicks segments)) = end_from 0 segments) /\
  (forall t, 0 <= t < end_from 0 segments ->
     (forall s, s ∈ segments -> ~ (start s <= t < end_ s)) ->
     segmentsToTicks segments !! Z.to_nat t = Some IDLE) /\
  (forall t l1 s l2, 0 <= t < end_from 0 segments ->
     segments = l1 ++ s :: l2 ->
     (forall s', s' ∈ l1 -> ~ (start s' <= t < end_ s')) ->
     start s <= t < end_ s ->
     segmentsToTicks segments !! Z.to_nat t = Some (pid s)).
Proof.
  assert (Hlen : length (segmentsToTicks segments) = Z.to_nat (end_from 0 segments)).
  { unfold segmentsToTicks, end_from. by rewrite length_fmap, length_seqZ. }
  assert (Hlookup : forall t, 0 <= t < end_from 0 segments ->
            segmentsToTicks segments !! Z.to_nat t
            = Some (match find (covers t) segments with
                    | Some seg => pid seg
                    | None => IDLE
                    end)).
  { intros t Ht. unfold segmentsToTicks. fold (end_from 0 segments).
    rewrite list_lookup_fmap, lookup_seqZ_lt by lia. simpl.
    by replace (0 + Z.of_nat (Z.to_nat t)) with t by lia. }
  split_and!.
  - done.
  - by intros ->.
  - intros Hpos. rewrite Hlen. lia.
  - intros t Ht Hnone. by rewrite Hlookup, find_none_uncovered.
  - intros t l1 s l2 Ht -> Hbefore Hs. by rewrite Hlookup, find_first_covering.
Qed.

Lemma ticks_total_witness :
  segmentsToTicks [mkSegment "A" 0 1; mkSegment "B" 3 4] !! 1%nat = Some IDLE /\
  Z.of_nat (length (segmentsToTicks [mkSegment "A" 0 1; mkSegment "B" 3 4])) = 4.
Proof.
  destruct (ticks_total [mkSegment "A" 0 1; mkSegment "B" 3 4])
    as (_ & _ & Hlen & Hidle & _).
  split.
  - apply (Hidle 1); [by vm_compute|].
    intros s Hs.
    apply elem_of_cons in Hs as [->|Hs]; [simpl; lia|].
    apply list_elem_of_singleton in Hs as ->. simpl. lia.
  - apply Hlen. by vm_compute.
Defined.

(** ** The metrics *)

Lemma finish_map_snoc segments s :
  finish_map (segments ++ [s])
  = if bool_decide (pid s = IDLE) then finish_map segments
    else <[pid s := end_ s]> (finish_map segments).
Proof. unfold finish_map. by rewrite foldl_app. Qed.

(** The object [finish] holds, for every id, the end of the last segment of
    the list that bears the id and is not idle. *)
Lemma finish_map_lookup segments k :
  finish_map segments !! k = end_ <$> last (filter (finishes k) segments).
Proof.
  induction segments as [|s segments IH] using rev_ind; [done|].
  rewrite finish_map_snoc, filter_app, filter_cons, filter_nil.
  unfold finishes at 2. case_bool_decide as Hidle.
  - destruct (decide (pid s = k /\ pid s <> IDLE)) as [[_ ?]|_]; [done|].
    by rewrite app_nil_r.
  - destruct (decide (pid s = k /\ pid s <> IDLE)) as [[<- _]|Hno].
    + by rewrite lookup_insert_eq, last_snoc.
    + rewrite app_nil_r, lookup_insert_ne; [done|]. intros Heq. by apply Hno.
Qed.

Lemma finish_map_default segments k :
  default 0 (finish_map segments !! k) = finish_last k segments.
Proof.
  rewrite finish_map_lookup. unfold finish_last.
  by destruct (last (filter (finishes k) segments)).
Qed.

Lemma totals_fold finish processes : forall a b,
  foldl (totals_body finish) (a, b) processes
  = (a + Zsum ((fun p => default 0 (finish !! id p) - arrival p - burst p) <$> processes),
     b + Zsum ((fun p => default 0 (finish !! id p) - arrival p) <$> processes)).
Proof.
  induction processes as [|p processes IH]; intros a b.
  - unfold Zsum. simpl. f_equal; lia.
  - cbn [foldl totals_body]. rewrite IH, !fmap_cons, !Zsum_cons. f_equal; lia.
Qed.

Lemma metric_totals_spec processes segments :
  metric_totals processes segments
  = totals_with (fun k => finish_last k segments) processes.
Proof.
  unfold metric_totals, totals_with. rewrite totals_fold. f_equal.
  - rewrite Z.add_0_l. apply Zsum_fmap_ext. intros p _. by rewrite finish_map_default.
  - rewrite Z.add_0_l. apply Zsum_fmap_ext. intros p _. by rewrite finish_map_default.
Qed.

Lemma foldr_max_le (L e : Z) (es : list Z) :
  e <= L -> Forall (fun x => x <= L) es -> foldr Z.max e es <= L.
Proof. intros He. induction 1; simpl; lia. Qed.

Lemma foldr_max_eq (L e : Z) (es : list Z) :
  L ∈ e :: es -> Forall (fun x => x <= L) (e :: es) -> foldr Z.max e es = L.
Proof.
  intros Hin Hall. apply Forall_cons in Hall as [He Hes].
  induction es as [|a es IH]; simpl.
  - apply list_elem_of_singleton in Hin. done.
  - apply Forall_cons in Hes as [Ha Hes].
    pose proof (foldr_max_le L e es He Hes).
    apply elem_of_cons in Hin as [->|Hin].
    + specialize (IH ltac:(by left) Hes). lia.
    + apply elem_of_cons in Hin as [->|Hin]; [lia|].
      specialize (IH ltac:(by right) Hes). lia.
Qed.

(** When the ends never decrease along the list, the last segment of an id
    has its highest end. *)
Lemma finish_last_highest segments k :
  sorted_on end_ segments -> finish_last k segments = finish_highest k segments.
Proof.
  intros Hsorted. unfold finish_last, finish_highest.
  destruct (last (filter (finishes k) segments)) as [s|] eqn:Hlast.
  - pose proof Hlast as Hs. apply last_Some in Hs as [l' Hl'].
    destruct (last_filter_Some _ _ _ Hlast) as (l1 & l2 & Hsplit & Hno).
    assert (Hall : Forall (fun x => x <= end_ s) (end_ <$> filter (finishes k) segments)).
    { apply Forall_fmap, Forall_forall. intros s' Hs'. simpl.
      apply list_elem_of_filter in Hs' as [HP Hs'].
      rewrite Hsplit in Hs'. apply elem_of_app in Hs' as [Hs'|Hs'].
      - apply list_elem_of_lookup in Hs' as [j Hj].
        apply (Hsorted j (length l1) s' s).
        + apply lookup_lt_Some in Hj. lia.
        + rewrite Hsplit. by apply lookup_app_l_Some.
        + rewrite Hsplit. by rewrite list_lookup_middle.
      - apply elem_of_cons in Hs' as [->|Hs']; [lia|].
        rewrite Forall_forall in Hno. by destruct (Hno s' Hs'). }
    assert (Hin : end_ s ∈ end_ <$> filter (finishes k) segments).
    { apply list_elem_of_fmap_2. rewrite Hl'. apply elem_of_app. right. by left. }
    destruct (end_ <$> filter (finishes k) segments) as [|e es] eqn:Hends.
    + by apply elem_of_nil in Hin.
    + symmetry. by apply foldr_max_eq.
  - apply last_None in Hlast. by rewrite Hlast.
Qed.


(** ** The metrics on numbers *)

Lemma foldr_max_ge (x : Z) (l : list Z) : x ∈ l -> x <= foldr Z.max 0 l.
Proof.
  induction l as [|y l IH]; intros Hin.
  - by apply elem_of_nil in Hin.
  - cbn [foldr]. apply elem_of_cons in Hin as [->|Hin]; [lia|].
    specialize (IH Hin). lia.
Qed.

Lemma foldr_max_nonneg (l : list Z) : 0 <= foldr Z.max 0 l.
Proof. induction l; cbn [foldr]; lia. Qed.

Lemma magnitude_nonneg processes segments : 0 <= magnitude processes segments.
Proof. apply foldr_max_nonneg. Qed.

Lemma magnitude_end processes segments s :
  s ∈ segments -> Z.abs (end_ s) <= magnitude processes segments.
Proof.
  intros Hs. apply foldr_max_ge. apply list_elem_of_fmap_2.
  apply elem_of_app. left. by apply list_elem_of_fmap_2.
Qed.

Lemma magnitude_process processes segments p :
  p ∈ processes ->
  Z.abs (arrival p) <= magnitude processes segments /\
  Z.abs (burst p) <= magnitude processes segments.
Proof.
  intros Hp. split; apply foldr_max_ge; apply list_elem_of_fmap_2;
    apply elem_of_app; right; apply elem_of_app; [left|right];
    by apply list_elem_of_fmap_2.
Qed.

Lemma finish_last_magnitude processes segments k :
  Z.abs (finish_last k segments) <= magnitude processes segments.
Proof.
  unfold finish_last.
  destruct (last (filter (finishes k) segments)) as [s|] eqn:Hlast.
  - apply magnitude_end. apply last_Some in Hlast as [l' Hl'].
    assert (Hin : s ∈ filter (finishes k) segments).
    { rewrite Hl'. apply elem_of_app. right. by left. }
    by apply list_elem_of_filter in Hin as [_ ?].
  - simpl. apply magnitude_nonneg.
Qed.

Lemma finish_object_snoc segments s :
  Binary64.finish_object (segments ++ [s])
  = if bool_decide (pid s = IDLE) then Binary64.finish_object segments
    else Binary64.finish_write (Binary64.finish_object segments) (pid s) (end_ s).
Proof. unfold Binary64.finish_object. by rewrite foldl_app. Qed.

(** Under every name but [__proto__] the object [finish] holds the end of
    the last segment of that name; under [__proto__] it holds nothing of its
    own. *)
Lemma finish_object_lookup segments k :
  Binary64.finish_object segments !! k
  = if bool_decide (k = "__proto__"%string) then None else finish_map segments !! k.
Proof.
  induction segments as [|s segments IH] using rev_ind.
  - by case_bool_decide.
  - rewrite finish_object_snoc, finish_map_snoc.
    destruct (bool_decide (pid s = IDLE)); [done|].
    unfold Binary64.finish_write.
    destruct (decide (pid s = "__proto__"%string)) as [Hs|Hs].
    + rewrite (bool_decide_eq_true_2 _ Hs), IH. case_bool_decide as Hk; [done|].
      rewrite lookup_insert_ne; [done|]. congruence.
    + rewrite (bool_decide_eq_false_2 _ Hs).
      destruct (decide (pid s = k)) as [<-|Hne].
      * rewrite !lookup_insert_eq. by rewrite bool_decide_eq_false_2.
      * rewrite !lookup_insert_ne by done. apply IH.
Qed.

(** The finish time that the subtraction takes for a plain id. *)
Lemma finish_read_plain segments k :
  k ∉ prototype_names ->
  Binary64.finish_read (Binary64.finish_object segments) k
  = Z2F (finish_last k segments).
Proof.
  intros Hk. unfold Binary64.finish_read. rewrite finish_object_lookup.
  assert (Hne : k <> "__proto__"%string).
  { intros ->. apply Hk. by left. }
  rewrite bool_decide_eq_false_2 by done.
  rewrite <- finish_map_default.
  destruct (finish_map segments !! k); [done|].
  by rewrite bool_decide_eq_false_2.
Qed.

(** The totals on numbers are the exact totals when no partial sum passes
    the largest safe integer. *)
Lemma totals_fold_numbers finish (fz : string -> Z) (M : Z) processes : forall a b k,
  0 <= M -> 0 <= k ->
  Z.abs a <= 3 * M * k -> Z.abs b <= 3 * M * k ->
  3 * M * (k + Z.of_nat (length processes)) <= max_safe ->
  Forall (fun p => Binary64.finish_read finish (id p) = Z2F (fz (id p)) /\
                   Z.abs (fz (id p)) <= M /\
                   Z.abs (arrival p) <= M /\ Z.abs (burst p) <= M) processes ->
  foldl (Binary64.totals_body finish) (Z2F a, Z2F b) processes
  = (Z2F (a + Zsum ((fun p => fz (id p) - arrival p - burst p) <$> processes)),
     Z2F (b + Zsum ((fun p => fz (id p) - arrival p) <$> processes))).
Proof.
  induction processes as [|p processes IH]; intros a b k HM Hk Ha Hb Hsafe Hall.
  - unfold Zsum. simpl. by rewrite !Z.add_0_r.
  - apply Forall_cons in Hall as [(Hread & Hf & Harr & Hbur) Hall].
    rewrite length_cons in Hsafe.
    cbn [foldl Binary64.totals_body]. rewrite Hread.
    assert (HMk : 0 <= 3 * M * k) by nia.
    assert (Hone : 3 * M * k + 3 * M <= max_safe) by nia.
    rewrite SFsub_safe by lia. rewrite SFsub_safe by lia.
    rewrite !SFadd_safe by lia.
    rewrite (IH _ _ (k + 1)); [|done|lia|lia|lia|lia|done].
    rewrite !fmap_cons, !Zsum_cons. f_equal; f_equal; lia.
Qed.

(** For plain ids and safe metrics the totals of [computeMetrics] are the
    numbers of the exact totals. *)
Lemma metric_totals_numbers processes segments :
  plain_ids processes -> safe_metrics processes segments ->
  Binary64.metric_totals processes segments
  = (Z2F (fst (exact_totals processes segments)),
     Z2F (snd (exact_totals processes segments))).
Proof.
  intros Hplain Hsafe. unfold Binary64.metric_totals, exact_totals, totals_with.
  pose proof (magnitude_nonneg processes segments) as HM.
  rewrite (totals_fold_numbers _ (fun k => finish_last k segments)
             (magnitude processes segments) processes 0 0 0).
  - by rewrite !Z.add_0_l.
  - done.
  - done.
  - lia.
  - lia.
  - unfold safe_metrics in Hsafe. lia.
  - rewrite Forall_forall. intros p Hp. split_and!.
    + apply finish_read_plain. unfold plain_ids in Hplain.
      rewrite Forall_forall in Hplain. by apply Hplain.
    + apply finish_last_magnitude.
    + by apply magnitude_process.
    + by apply magnitude_process.
Qed.

(** Then [computeMetrics] on numbers is [computeMetrics] on integers. *)
Lemma computeMetrics_numbers processes segments :
  plain_ids processes -> safe_metrics processes segments ->
  Binary64.computeMetrics processes segments = computeMetrics processes segments.
Proof.
  intros Hplain Hsafe. unfold Binary64.computeMetrics, computeMetrics.
  rewrite metric_totals_numbers by done. unfold exact_totals.
  rewrite <- metric_totals_spec. by destruct (metric_totals processes segments).
Qed.

(** Plain ids and safe metrics of a concrete input, by evaluation. *)
Ltac concrete_plain := apply (bool_decide_unpack _); by vm_compute.

(** C5, as amended. For every process set in which no process bears a name
    that an object inherits, and every segment list, with numbers small
    enough for no total to pass the largest safe integer: the finish time of
    a process is the end of the last segment of the list that bears its id
    and is not idle, 0 when there is none; turnaround is finish minus
    arrival, waiting is turnaround minus burst, and the two totals are
    divided by the number of processes and rounded to 2 decimals.  When the
    ends of the segments never decrease along the list, the finish time is
    also the highest end.  For P1(0,4), P2(1,3) and [P1:0-4, P2:4-7] the
    averages are 1.5 and 5. *)
Theorem metrics_from_finish_times (processes : list Process) (segments : list Segment) :
  plain_ids processes -> safe_metrics processes segments ->
  (forall p, p ∈ processes ->
     Binary64.finish_read (Binary64.finish_object segments) (id p)
     = Z2F (finish_last (id p) segments)) /\
  Binary64.metric_totals processes segments
  = (Z2F (fst (totals_with (fun k => finish_last k segments) processes)),
     Z2F (snd (totals_with (fun k => finish_last k segments) processes))) /\
  Binary64.computeMetrics processes segments
  = mkMetrics
      (to_number (toFixed2
         (fdiv (Z2F (fst (totals_with (fun k => finish_last k segments) processes)))
               (Z2F (metrics_n processes)))))
      (to_number (toFixed2
         (fdiv (Z2F (snd (totals_with (fun k => finish_last k segments) processes)))
               (Z2F (metrics_n processes))))) /\
  (sorted_on end_ segments ->
   forall k, finish_last k segments = finish_highest k segments) /\
  (forall pr1 pr2,
     Binary64.computeMetrics [mkProcess "P1" 0 4 pr1; mkProcess "P2" 1 3 pr2]
       [mkSegment "P1" 0 4; mkSegment "P2" 4 7]
     = mkMetrics (fdiv (Z2F 3) (Z2F 2)) (Z2F 5)) /\
  (F2Q (fdiv (Z2F 3) (Z2F 2)) == 3 # 2)%Q /\ (F2Q (Z2F 5) == 5 # 1)%Q.
Proof.
  intros Hplain Hsafe. split_and!.
  - intros p Hp. apply finish_read_plain. unfold plain_ids in Hplain.
    rewrite Forall_forall in Hplain. by apply Hplain.
  - by apply metric_totals_numbers.
  - unfold Binary64.computeMetrics. by rewrite metric_totals_numbers.
  - intros Hsorted k. by apply finish_last_highest.
  - intros pr1 pr2. by vm_compute.
  - by vm_compute.
  - by vm_compute.
Qed.

Lemma metrics_from_finish_times_witness :
  plain_ids demo /\ safe_metrics demo (Binary64.scheduleFCFS demo) /\
  Binary64.metric_totals demo (Binary64.scheduleFCFS demo) = (Z2F 8, Z2F 21).
Proof.
  assert (Hplain : plain_ids demo).
  { concrete_plain. }
  assert (Hsafe : safe_metrics demo (Binary64.scheduleFCFS demo)) by by vm_compute.
  split; [exact Hplain|]. split; [exact Hsafe|].
  destruct (metrics_from_finish_times demo (Binary64.scheduleFCFS demo) Hplain Hsafe)
    as (_ & Htotals & _).
  rewrite Htotals. by vm_compute.
Defined.

(** C5, as stated, fails, in three ways.  For two overlapping segments of
    one process, in the order of their starts, the finish time taken is the
    end of the last segment, 2, and not the highest end, 5.  For a process
    without a segment whose id names a property that an object inherits,
    the finish time is not 0 but the inherited function, and both averages
    are NaN; a process named [__proto__] has no finish time of its own even
    with a segment.  And when the totals pass the largest safe integer they
    are not the sums of the waiting times. *)
Lemma finish_is_last_not_highest_and_no_number_for_inherited_names :
  (sorted_on start overlap_segments /\
   Binary64.finish_read (Binary64.finish_object overlap_segments) "P1" = Z2F 2 /\
   finish_last "P1" overlap_segments = 2 /\
   finish_highest "P1" overlap_segments = 5 /\
   Binary64.metric_totals overlap_set overlap_segments = (Z2F (-3), Z2F 2) /\
   totals_with (fun k => finish_highest k overlap_segments) overlap_set = (0, 5) /\
   Binary64.computeMetrics overlap_set overlap_segments = mkMetrics (Z2F (-3)) (Z2F 2)) /\
  (finish_last "toString" [] = 0 /\
   Binary64.finish_read (Binary64.finish_object []) "toString" = S754_nan /\
   Binary64.computeMetrics inherited_name [] = mkMetrics S754_nan S754_nan) /\
  (Binary64.scheduleFCFS proto_name = [mkSegment "__proto__" 0 4] /\
   finish_last "__proto__" (Binary64.scheduleFCFS proto_name) = 4 /\
   Binary64.finish_read (Binary64.finish_object (Binary64.scheduleFCFS proto_name))
     "__proto__" = S754_nan /\
   Binary64.computeMetrics proto_name (Binary64.scheduleFCFS proto_name)
   = mkMetrics S754_nan S754_nan) /\
  (totals_with (fun k => finish_last k []) beyond_safe_totals = (- 2 ^ 53 - 2, 0) /\
   Binary64.metric_totals beyond_safe_totals [] = (Z2F (- 2 ^ 53), Z2F 0) /\
   Z2F (- 2 ^ 53) <> Z2F (- 2 ^ 53 - 2)).
Proof.
  split_and!; try by vm_compute.
  intros i j a b Hij Hi Hj.
  destruct i as [|[|i]], j as [|[|j]]; simplify_eq/=; lia.
Qed.

(** ** The rounding of the metrics *)







(** * Further properties of the engine *)

(** ** No early start, and the slices of round robin *)

Lemma punctual_nil ps : punctual ps [].
Proof. intros s Hs. by apply elem_of_nil in Hs. Qed.

Lemma punctual_idle ps segs a b :
  punctual ps segs -> punctual ps (segs ++ [idle_seg a b]).
Proof.
  intros H s Hs Hne. apply elem_of_app in Hs as [Hs|Hs]; [by apply H|].
  apply list_elem_of_singleton in Hs as ->. by destruct Hne.
Qed.

Lemma punctual_run ps segs p a b :
  punctual ps segs -> p ∈ ps -> arrival p <= a ->
  punctual ps (segs ++ [run_seg p a b]).
Proof.
  intros H Hp Ha s Hs Hne. apply elem_of_app in Hs as [Hs|Hs]; [by apply H|].
  apply list_elem_of_singleton in Hs as ->. by exists p.
Qed.

Lemma punctual_perm ps ps' segs : ps ≡ₚ ps' -> punctual ps segs -> punctual ps' segs.
Proof.
  intros Hperm H s Hs Hne. destruct (H s Hs Hne) as (p & Hp & ?).
  exists p. by rewrite <- Hperm.
Qed.

Lemma sliced_idle q segs a b : sliced q segs -> sliced q (segs ++ [idle_seg a b]).
Proof.
  intros H s Hs Hne. apply elem_of_app in Hs as [Hs|Hs]; [by apply H|].
  apply list_elem_of_singleton in Hs as ->. by destruct Hne.
Qed.

Lemma sliced_run q segs p a d :
  sliced q segs -> 1 <= d <= q -> sliced q (segs ++ [run_seg p a (a + d)]).
Proof.
  intros H Hd s Hs Hne. apply elem_of_app in Hs as [Hs|Hs]; [by apply H|].
  apply list_elem_of_singleton in Hs as ->. simpl. lia.
Qed.

Lemma fcfs_fold_punctual ps procs : forall t segs,
  (forall p, p ∈ procs -> p ∈ ps) -> punctual ps segs ->
  punctual ps (snd (foldl fcfs_body (t, segs) procs)).
Proof.
  induction procs as [|p procs IH]; intros t segs Hin Hsegs; [done|].
  assert (Hp : p ∈ ps) by (apply Hin; by left).
  assert (Hin' : forall p', p' ∈ procs -> p' ∈ ps) by (intros p' ?; apply Hin; by right).
  simpl. destruct (Z.ltb_spec t (arrival p)) as [Hlt|Hge].
  - apply IH; [done|]. apply punctual_run; [by apply punctual_idle|done|lia].
  - apply IH; [done|]. by apply punctual_run.
Qed.

Lemma fcfs_punctual ps : punctual ps (scheduleFCFS ps).
Proof.
  unfold scheduleFCFS, deepClone. apply fcfs_fold_punctual; [|apply punctual_nil].
  intros p Hp. by rewrite sort_by_perm in Hp.
Qed.

Section NonPreemptiveArrivals.
Variable cmp : Process -> Process -> Z.
Variable remaining : list Process.
Hypothesis bursts : Forall (fun p => 1 <= burst p) remaining.

Lemma np_step_arrived st st' :
  np_arrived remaining st -> np_step cmp remaining st = Continue st' ->
  np_arrived remaining st'.
Proof.
  destruct st as [i ready time segs]. intros [Hready Hsegs] Hstep.
  unfold np_step in Hstep. cbn [np_i np_ready np_time np_segments] in *.
  destruct (enqueueArrivals_spec remaining time ready i)
    as (n & Hscan & Hlen & Harr & Hstop).
  rewrite Hscan in Hstep.
  assert (Hready' : forall p, p ∈ ready ++ take n (drop i remaining) ->
                      p ∈ remaining /\ arrival p <= time).
  { intros p Hp. apply elem_of_app in Hp as [Hp|Hp]; [by apply Hready|].
    split; [by eapply elem_of_take_drop|].
    rewrite Forall_forall in Harr. by apply Harr. }
  destruct (ready ++ take n (drop i remaining)) as [|x ready'] eqn:Hr.
  - destruct (remaining !! (i + n)%nat) as [r|] eqn:Hnext; [|discriminate].
    injection Hstep as <-. split; cbn [np_ready np_time np_segments].
    + intros p Hp. by apply elem_of_nil in Hp.
    + by apply punctual_idle.
  - pose proof (sort_by_perm cmp (x :: ready')) as Hperm.
    destruct (sort_by cmp (x :: ready')) as [|p rest]; [discriminate|].
    injection Hstep as <-.
    assert (Hp : p ∈ remaining /\ arrival p <= time).
    { apply Hready'. rewrite <- Hperm. by left. }
    assert (Hb : 1 <= burst p).
    { rewrite Forall_forall in bursts. apply bursts, Hp. }
    split; cbn [np_ready np_time np_segments].
    + intros p' Hp'. destruct (Hready' p') as [? ?]; [rewrite <- Hperm; by right|].
      split; [done|lia].
    + apply punctual_run; [done|apply Hp..].
Qed.

Lemma np_run_punctual :
  exists segs, np_run cmp remaining = Done segs /\ punctual remaining segs.
Proof.
  destruct (while_loop_total (np_cond remaining) (np_step cmp remaining)
              (fun st => np_inv remaining st /\ np_arrived remaining st)
              (np_mu remaining)) with
    (fuel := np_fuel remaining) (st := np_init)
    as (st' & Hrun & (_ & _ & Hp) & _).
  - intros st [HI HA] Hcond.
    destruct (np_step_spec cmp remaining bursts st HI Hcond) as (st' & Hstep & ? & ? & _).
    exists st'. split_and!; try done. by eapply np_step_arrived.
  - split; [apply np_init_inv|]. split; [|apply punctual_nil].
    intros p Hp. by apply elem_of_nil in Hp.
  - apply np_init_mu.
  - exists (np_segments st'). split; [|done]. unfold np_run. by rewrite Hrun.
Qed.
End NonPreemptiveArrivals.

Section RoundRobinArrivals.
Variable procs : list Process.
Variable q : Z.
Hypothesis quantum : 1 <= q.

Lemma rr_init_arrived : rr_arrived procs q (rr_init procs).
Proof.
  unfold rr_init.
  destruct (enqueueArrivals_spec procs 0 [] 0) as (n & -> & _ & Harr & _).
  split_and!; cbn [rr_queue rr_time rr_segments].
  - intros p Hp. rewrite Forall_forall in Harr. by apply Harr.
  - apply punctual_nil.
  - intros s Hs. by apply elem_of_nil in Hs.
Qed.

Lemma rr_step_arrived st st' :
  rr_inv procs st -> rr_arrived procs q st -> rr_cond procs st = true ->
  rr_step procs q st = Continue st' -> rr_arrived procs q st'.
Proof.
  intros Hinv (Hq & Hpunct & Hsl) Hcond Hstep.
  destruct (rr_queue st) as [|current rest] eqn:Hqueue.
  - unfold rr_cond in Hcond. rewrite Hqueue in Hcond. simpl in Hcond.
    apply Nat.ltb_lt in Hcond.
    destruct (rr_step_idle procs q st Hinv Hqueue Hcond)
      as (r & n & Hr & Hn & Hstep' & Hinv').
    rewrite Hstep in Hstep'. injection Hstep' as ->.
    destruct Hinv' as (_ & _ & _ & _ & Hpast & _).
    cbn [rr_i rr_time] in Hpast.
    split_and!; cbn [rr_queue rr_time rr_segments].
    + intros p Hp. rewrite <- take_take_drop in Hpast.
      apply Forall_app in Hpast as [_ Hpast]. rewrite Forall_forall in Hpast.
      by apply Hpast.
    + by apply punctual_idle.
    + by apply sliced_idle.
  - destruct (rr_step_run procs q quantum st current rest Hinv Hqueue)
      as (st1 & rem & n & Hrem & Hrem1 & Hstep' & Hinv' & Htime & Hidx & Hlen & _
          & Hq' & _ & Hsegs).
    rewrite Hstep in Hstep'. injection Hstep' as <-.
    destruct Hinv as (_ & _ & _ & _ & _ & Hin & _).
    destruct Hinv' as (_ & _ & _ & _ & Hpast & _).
    rewrite Hidx, <- take_take_drop in Hpast.
    apply Forall_app in Hpast as [_ Hpast]. rewrite Forall_forall in Hpast.
    assert (Hcur : current ∈ procs /\ arrival current <= rr_time st).
    { split; [apply Hin|apply Hq]; rewrite ?Hqueue; by left. }
    split_and!.
    + rewrite Hq'. intros p Hp.
      apply elem_of_app in Hp as [Hp|Hp].
      { assert (arrival p <= rr_time st) by (apply Hq; by right). lia. }
      apply elem_of_app in Hp as [Hp|Hp]; [by apply Hpast|].
      destruct (0 <? rem - Z.min q rem); [|by apply elem_of_nil in Hp].
      apply list_elem_of_singleton in Hp as ->. lia.
    + rewrite Hsegs. apply punctual_run; [done|apply Hcur..].
    + rewrite Hsegs. apply sliced_run; [done|lia].
Qed.

Lemma short_is_last_snoc segs s :
  short_is_last q segs ->
  (forall s0, s0 ∈ segs -> pid s0 <> IDLE -> end_ s0 - start s0 < q -> pid s <> pid s0) ->
  short_is_last q (segs ++ [s]).
Proof.
  intros Hold Hnew i j si sj Hij Hi Hj Hne Hshort.
  assert (Hjl : (j < length (segs ++ [s]))%nat) by (by eapply lookup_lt_Some).
  rewrite length_app in Hjl. simpl in Hjl.
  rewrite lookup_app_l in Hi by lia.
  destruct (decide (j < length segs)%nat) as [Hlt|Hge].
  - rewrite lookup_app_l in Hj by done.
    exact (Hold i j si sj Hij Hi Hj Hne Hshort).
  - assert (j = length segs) as -> by lia.
    rewrite list_lookup_middle in Hj by done. injection Hj as <-.
    apply Hnew; [by eapply list_elem_of_lookup_2|done..].
Qed.

Lemma rr_init_short_done : rr_short_done procs q (rr_init procs).
Proof.
  unfold rr_init.
  destruct (enqueueArrivals_spec procs 0 [] 0) as (n & -> & _).
  split; cbn [rr_segments].
  - intros i j si sj _ Hi. by rewrite lookup_nil in Hi.
  - intros s Hs. by apply elem_of_nil in Hs.
Qed.

Lemma rr_step_short_done st st' :
  rr_inv procs st -> rr_short_done procs q st -> rr_cond procs st = true ->
  rr_step procs q st = Continue st' -> rr_short_done procs q st'.
Proof.
  intros Hinv [Hlast Hdone] Hcond Hstep.
  destruct (rr_step_spec procs q quantum st Hinv Hcond)
    as (st1 & Hstep1 & Hinv' & _ & _ & _ & _ & Hsub).
  rewrite Hstep in Hstep1. injection Hstep1 as <-.
  destruct (rr_queue st) as [|current rest] eqn:Hqueue.
  - unfold rr_cond in Hcond. rewrite Hqueue in Hcond. simpl in Hcond.
    apply Nat.ltb_lt in Hcond.
    destruct (rr_step_idle procs q st Hinv Hqueue Hcond)
      as (r & n & Hr & Hn & Hstep' & _).
    rewrite Hstep in Hstep'. injection Hstep' as Heq.
    assert (Hsegs : rr_segments st'
                    = rr_segments st ++ [idle_seg (rr_time st) (arrival r)])
      by (by rewrite Heq).
    split.
    + rewrite Hsegs. apply short_is_last_snoc; [done|].
      intros s0 _ Hne _. simpl. congruence.
    + rewrite Hsegs. intros s Hs Hne Hshort Hin.
      apply elem_of_app in Hs as [Hs|Hs].
      * by apply (Hdone s Hs Hne Hshort), Hsub.
      * apply list_elem_of_singleton in Hs as ->. by destruct Hne.
  - destruct (rr_step_run procs q quantum st current rest Hinv Hqueue)
      as (st1 & rem & n & Hrem & Hrem1 & Hstep' & _ & _ & _ & _ & _ & _ & Hmap & Hsegs).
    rewrite Hstep in Hstep'. injection Hstep' as <-.
    assert (Hlive : id current ∈ id <$> rr_live procs st).
    { apply list_elem_of_fmap_2. unfold rr_live. rewrite Hqueue. by left. }
    split.
    + rewrite Hsegs. apply short_is_last_snoc; [done|].
      intros s0 Hs0 Hne Hshort Heq. apply (Hdone s0 Hs0 Hne Hshort).
      by rewrite <- Heq.
    + rewrite Hsegs. intros s Hs Hne Hshort Hin.
      apply elem_of_app in Hs as [Hs|Hs].
      * by apply (Hdone s Hs Hne Hshort), Hsub.
      * apply list_elem_of_singleton in Hs as ->. simpl in *.
        destruct Hinv' as (_ & _ & _ & _ & _ & _ & _ & Hdom & _).
        apply Hdom in Hin. rewrite Hmap in Hin.
        destruct (Z.ltb_spec 0 (rem - Z.min q rem)); [lia|].
        rewrite lookup_delete_eq in Hin. by destruct Hin.
Qed.

Hypothesis ids : NoDup (id <$> procs).
Hypothesis bursts : Forall (fun p => 1 <= burst p) procs.

Lemma rr_run_arrived :
  exists segs,
    rr_run procs q = Done segs /\
    punctual procs segs /\ sliced q segs /\ short_is_last q segs.
Proof.
  destruct (while_loop_total (rr_cond procs) (rr_step procs q)
              (fun st => rr_inv procs st /\ rr_arrived procs q st
                         /\ rr_short_done procs q st)
              (rr_mu procs)) with
    (fuel := rr_fuel procs) (st := rr_init procs)
    as (st' & Hrun & (_ & (_ & Hp & Hs) & Hl & _) & _).
  - intros st (HI & HA & HS) Hcond.
    destruct (rr_step_spec procs q quantum st HI Hcond) as (st' & Hstep & ? & ? & _).
    exists st'. split_and!; try done.
    + exact (rr_step_arrived st st' HI HA Hcond Hstep).
    + exact (rr_step_short_done st st' HI HS Hcond Hstep).
  - split_and!; [by apply rr_init_inv|apply rr_init_arrived|apply rr_init_short_done].
  - by apply rr_init_mu.
  - exists (rr_segments st'). split; [|done]. unfold rr_run. by rewrite Hrun.
Qed.
End RoundRobinArrivals.

(** ** The ticks of a schedule *)

Lemma find_app_l {A : Type} (f : A -> bool) (l1 l2 : list A) x :
  find f l1 = Some x -> find f (l1 ++ l2) = Some x.
Proof.
  induction l1 as [|y l1 IH]; [done|]. simpl. destruct (f y); [done|apply IH].
Qed.

Lemma find_app_r {A : Type} (f : A -> bool) (l1 l2 : list A) :
  find f l1 = None -> find f (l1 ++ l2) = find f l2.
Proof.
  induction l1 as [|y l1 IH]; [done|]. simpl. destruct (f y); [done|apply IH].
Qed.

Lemma fmap_constant {A B : Type} (f : A -> B) (c : B) (l : list A) :
  (forall x, x ∈ l -> f x = c) -> f <$> l = replicate (length l) c.
Proof.
  induction l as [|x l IH]; intros H; [done|]. simpl.
  rewrite (H x) by (by left). f_equal. apply IH. intros y Hy. apply H. by right.
Qed.

Lemma chain_snoc_inv t segs s :
  chain t (segs ++ [s]) ->
  chain t segs /\ start s = end_from t segs /\ start s < end_ s.
Proof.
  revert t. induction segs as [|s0 segs IH]; intros t Hc; simpl in Hc.
  - destruct Hc as (? & ? & _). rewrite end_from_nil. simpl. auto.
  - destruct Hc as (? & ? & Hc). destruct (IH _ Hc) as (? & ? & ?).
    rewrite end_from_cons. simpl. auto.
Qed.

Lemma chain_ends_le t segs s : chain t segs -> s ∈ segs -> end_ s <= end_from t segs.
Proof.
  revert t. induction segs as [|s0 segs IH]; intros t Hc Hs.
  - by apply elem_of_nil in Hs.
  - destruct Hc as (? & ? & Hc). rewrite end_from_cons.
    apply elem_of_cons in Hs as [->|Hs]; [by apply chain_end_ge|by apply IH].
Qed.

(** Every unit of a chain is covered by one of its segments. *)
Lemma chain_covered t segs x :
  chain t segs -> t <= x < end_from t segs -> is_Some (find (covers x) segs).
Proof.
  revert t. induction segs as [|s segs IH]; intros t Hc Hx.
  - rewrite end_from_nil in Hx. lia.
  - destruct Hc as (Hs & Hlt & Hc). rewrite end_from_cons in Hx. simpl.
    unfold covers at 1.
    destruct (Z.leb_spec (start s) x), (Z.ltb_spec x (end_ s)); simpl;
      try (by eexists); try lia.
    apply (IH (end_ s)); [done|lia].
Qed.

Lemma expand_snoc segs s :
  expand (segs ++ [s]) = expand segs ++ replicate (Z.to_nat (end_ s - start s)) (pid s).
Proof.
  induction segs as [|s0 segs IH]; simpl; [by rewrite app_nil_r|].
  by rewrite IH, app_assoc.
Qed.

(** The ticks of a chain from 0 are its expansion. *)
Lemma ticks_of_chain segs : chain 0 segs -> segmentsToTicks segs = expand segs.
Proof.
  induction segs as [|s segs IH] using rev_ind; intros Hc; [done|].
  destruct (chain_snoc_inv _ _ _ Hc) as (Hc' & Hs & Hlt).
  pose proof (chain_end_ge _ _ Hc') as Hge.
  rewrite expand_snoc, <- (IH Hc').
  unfold segmentsToTicks. rewrite last_snoc. fold (end_from 0 segs).
  replace (end_ s) with (end_from 0 segs + (end_ s - start s)) at 1 by lia.
  rewrite seqZ_app, fmap_app by lia. f_equal.
  - apply list_fmap_ext. intros i x Hx.
    apply list_elem_of_lookup_2, elem_of_seqZ in Hx.
    destruct (chain_covered 0 segs x Hc' ltac:(lia)) as [s' Hs'].
    by rewrite (find_app_l _ _ _ _ Hs'), Hs'.
  - rewrite (fmap_constant _ (pid s)); [by rewrite length_seqZ|].
    intros x Hx. apply elem_of_seqZ in Hx.
    rewrite find_app_r.
    + simpl. unfold covers.
      destruct (Z.leb_spec (start s) x), (Z.ltb_spec x (end_ s)); simpl; [done|lia..].
    + apply find_none_uncovered. intros s' Hs'.
      pose proof (chain_ends_le _ _ _ Hc' Hs'). lia.
Qed.

(** A contiguous partition is a chain from 0. *)
Lemma partition_chain segs : contiguous_partition segs -> chain 0 segs.
Proof.
  intros (_ & Hadj & Hpos & Hhead).
  assert (Hgen : forall t, (forall s, head segs = Some s -> start s = t) -> chain t segs).
  { clear Hhead. induction segs as [|s segs IH]; intros t Hh; [done|].
    apply Forall_cons in Hpos as [Hs Hpos]. simpl.
    split_and!; [by apply Hh|done|].
    apply IH; [|done|].
    - intros i s1 s2 H1 H2. by apply (Hadj (S i) s1 s2).
    - intros s' Hs'. destruct segs as [|s1 segs]; simplify_eq/=.
      symmetry. by apply (Hadj 0%nat s s'). }
  by apply Hgen.
Qed.




(** ** Round robin without a positive quantum *)

(** A loop whose body keeps a property under which the test holds uses up
    any fuel. *)
Lemma while_loop_diverges {St : Type} (cond : St -> bool) (body : St -> step_result St)
    (I : St -> Prop) :
  (forall st, I st -> cond st = true /\ exists st', body st = Continue st' /\ I st') ->
  forall fuel st, I st -> while_loop cond body fuel st = OutOfFuel.
Proof.
  intros Hstep fuel. induction fuel as [|fuel IH]; intros st HI;
    destruct (Hstep st HI) as (Hc & st' & Hb & HI'); simpl; rewrite Hc; [done|].
  rewrite Hb. by apply IH.
Qed.

Lemma rr_init_fed procs :
  procs <> [] -> Forall (fun p => 1 <= burst p) procs -> rr_fed procs (rr_init procs).
Proof.
  intros Hne Hb. unfold rr_init.
  destruct (enqueueArrivals_spec procs 0 [] 0) as (n & -> & Hlen & _).
  rewrite drop_0 in *. split.
  - unfold rr_cond. cbn [rr_queue rr_i]. simpl.
    destruct n as [|n].
    + by destruct procs.
    + by rewrite Hlen.
  - unfold rr_live. cbn [rr_queue rr_i rr_remainingBurst]. simpl.
    rewrite take_drop. intros p Hp.
    assert (Hsome : is_Some (rr_initial_map procs !! id p)).
    { apply rr_initial_map_dom. by apply list_elem_of_fmap_2. }
    destruct Hsome as [r Hr]. exists r. split; [done|].
    by eapply rr_initial_map_positive.
Qed.

Lemma rr_step_fed procs q st :
  q <= 0 -> rr_fed procs st ->
  rr_cond procs st = true /\
  exists st', rr_step procs q st = Continue st' /\ rr_fed procs st'.
Proof.
  intros Hq [Hcond Hfed]. split; [done|].
  destruct st as [queue i time rem segs].
  unfold rr_fed, rr_live, rr_cond, rr_step in *.
  cbn [rr_queue rr_i rr_time rr_remainingBurst rr_segments] in *.
  destruct queue as [|current rest].
  - simpl in Hcond. apply Nat.ltb_lt in Hcond.
    destruct (lookup_lt_is_Some_2 procs i Hcond) as [r Hr]. rewrite Hr.
    destruct (enqueueArrivals_spec procs (arrival r) [] i)
      as (n & -> & Hlen & _ & Hstop).
    assert (Hn : (1 <= n)%nat).
    { destruct n; [|lia]. rewrite Nat.add_0_r in Hstop. specialize (Hstop r Hr). lia. }
    eexists. split; [reflexivity|].
    cbn [rr_queue rr_i rr_time rr_remainingBurst rr_segments]. simpl app at 1 2.
    split.
    + rewrite Hlen. apply orb_true_iff. left. apply Nat.ltb_lt. lia.
    + intros p Hp. apply Hfed. simpl. by rewrite (drop_take_drop procs i n).
  - destruct (Hfed current) as (r & Hr & Hr1); [by left|]. rewrite Hr.
    destruct (enqueueArrivals_spec procs (time + Z.min q r) rest i)
      as (n & -> & _).
    assert (Hnew : 0 < r - Z.min q r) by lia.
    apply Z.ltb_lt in Hnew. rewrite Hnew.
    eexists. split; [reflexivity|].
    cbn [rr_queue rr_i rr_time rr_remainingBurst rr_segments].
    split.
    + rewrite !length_app. simpl. apply orb_true_iff. left. apply Nat.ltb_lt. lia.
    + intros p Hp.
      assert (Hold : p ∈ (current :: rest) ++ drop i procs).
      { rewrite (drop_take_drop procs i n).
        rewrite !elem_of_app in Hp. rewrite elem_of_app, elem_of_cons, !elem_of_app.
        rewrite list_elem_of_singleton in Hp. tauto. }
      destruct (Hfed p Hold) as (r' & Hr' & Hr'1).
      destruct (decide (id current = id p)) as [Heq|Hne].
      * exists (r - Z.min q r). rewrite <- Heq, lookup_insert_eq.
        apply Z.ltb_lt in Hnew. split; [done|lia].
      * exists r'. by rewrite lookup_insert_ne.
Qed.

(** ** What the four policies have in common *)

Lemma every_policy_impl (R R' : list Process -> list Segment -> Prop) ps q :
  (forall segs, R ps segs -> R' ps segs) -> every_policy R ps q -> every_policy R' ps q.
Proof.
  intros Himpl (H1 & (s2 & ? & ?) & (s3 & ? & ?) & (s4 & ? & ?)).
  split_and!; [by apply Himpl|exists s2|exists s3|exists s4]; split; try done; by apply Himpl.
Qed.

Lemma np_schedule cmp ps :
  well_formed ps ->
  exists segs, np_run cmp (sort_by (by_ arrival) ps) = Done segs /\ schedule_of ps segs.
Proof.
  intros Hwf. destruct (well_formed_sorted ps Hwf) as [_ Hb].
  destruct (np_correct cmp ps Hwf) as (segs & Hrun & Ht & Hacc).
  destruct (np_run_punctual cmp _ Hb) as (segs' & Hrun' & Hp).
  specialize (Hrun _ (Nat.le_refl _)). unfold np_run in Hrun'.
  rewrite Hrun in Hrun'. injection Hrun' as <-.
  exists segs. split; [done|]. split_and!.
  - apply partition_chain, Ht.
  - done.
  - intros p Hin Hne. by apply Hacc.
  - eapply punctual_perm; [apply sort_by_perm|done].
Qed.

Lemma rr_schedule ps q :
  well_formed ps -> 1 <= q ->
  exists segs,
    scheduleRoundRobin ps q = Done segs /\
    schedule_of ps segs /\ sliced q segs /\ short_is_last q segs.
Proof.
  intros Hwf Hq. destruct (well_formed_sorted ps Hwf) as [Hnd Hb].
  destruct (rr_correct ps q Hwf Hq) as (segs & Hrun & Ht & Hacc).
  destruct (rr_run_arrived _ q Hq Hnd Hb) as (segs' & Hrun' & Hp & Hs & Hl).
  specialize (Hrun _ (Nat.le_refl _)). unfold rr_run in Hrun'.
  rewrite Hrun in Hrun'. injection Hrun' as <-.
  exists segs. split; [done|]. split; [|done]. split_and!; try done.
  - apply partition_chain, Ht.
  - eapply punctual_perm; [apply sort_by_perm|done].
Qed.

Lemma policies_schedule ps q :
  well_formed ps -> 1 <= q -> every_policy schedule_of ps q.
Proof.
  intros Hwf Hq. split_and!.
  - destruct (fcfs_correct ps Hwf) as [Ht Hacc]. split_and!.
    + apply partition_chain, Ht.
    + done.
    + intros p Hp Hne. by apply Hacc.
    + apply fcfs_punctual.
  - by apply np_schedule.
  - by apply np_schedule.
  - destruct (rr_schedule ps q Hwf Hq) as (segs & ? & ? & _). by exists segs.
Qed.

(** ** Finish times *)

Lemma finishes_segs_of k segs :
  k <> IDLE -> filter (finishes k) segs = segs_of k segs.
Proof.
  intros Hk. unfold segs_of. apply list_filter_iff. intros s. unfold finishes.
  split; [by intros [? _]|]. intros <-. done.
Qed.

Lemma same_id_same_process (ps : list Process) p p' :
  NoDup (id <$> ps) -> p ∈ ps -> p' ∈ ps -> id p = id p' -> p = p'.
Proof.
  intros Hnd Hp Hp' Heq.
  apply list_elem_of_lookup in Hp as [i Hi]. apply list_elem_of_lookup in Hp' as [j Hj].
  assert (i = j) as ->.
  { eapply NoDup_lookup; [exact Hnd| |].
    - by rewrite list_lookup_fmap, Hi.
    - rewrite list_lookup_fmap, Hj. simpl. by rewrite Heq. }
  congruence.
Qed.

(** In a chain from [t], the segments of an id that all start at [a] or
    later fit between [a] and the end of the last of them. *)
Lemma chain_dur_bound k a segs : forall t sl,
  chain t segs -> (forall s, s ∈ segs -> pid s = k -> a <= start s) ->
  last (segs_of k segs) = Some sl ->
  Z.max a t + dur k segs <= end_ sl.
Proof.
  induction segs as [|s segs IH]; intros t sl Hc Ha Hlast; [done|].
  destruct Hc as (Hst & Hpos & Hc).
  assert (Ha' : forall s', s' ∈ segs -> pid s' = k -> a <= start s')
    by (intros s' Hs'; apply Ha; by right).
  unfold dur, segs_of in *. rewrite filter_cons in *.
  destruct (decide (pid s = k)) as [Hk|Hk].
  - pose proof (Ha s ltac:(by left) Hk) as Has.
    rewrite fmap_cons, Zsum_cons.
    destruct (filter (fun s0 => pid s0 = k) segs) as [|s1 l] eqn:Hf.
    + simpl in Hlast. injection Hlast as <-. unfold Zsum. simpl. lia.
    + rewrite last_cons_cons in Hlast.
      specialize (IH (end_ s) sl Hc Ha' Hlast). lia.
  - specialize (IH (end_ s) sl Hc Ha' Hlast). lia.
Qed.

Lemma schedule_finishes ps segs :
  well_formed ps -> schedule_of ps segs -> finishes_after_work ps segs.
Proof.
  intros [Hnd Hall] (Hc & _ & Hdur & Hpun) p Hp Hne.
  rewrite Forall_forall in Hall. destruct (Hall p Hp) as [Harr Hb].
  specialize (Hdur p Hp Hne).
  unfold finish_last. rewrite finishes_segs_of by done.
  destruct (last (segs_of (id p) segs)) as [sl|] eqn:Hlast.
  - split.
    + pose proof (chain_dur_bound (id p) (arrival p) segs 0 sl Hc) as Hbound.
      rewrite Hdur in Hbound. etrans; [|apply Hbound; [|done]]; [lia|].
      intros s Hs Hk. destruct (Hpun s Hs) as (p' & Hp' & Hid & Hle); [congruence|].
      assert (p' = p) as -> by (eapply same_id_same_process; [done..|congruence]).
      done.
    + change (makespan segs) with (end_from 0 segs). apply chain_ends_le; [done|].
      apply last_Some_elem_of in Hlast. unfold segs_of in Hlast.
      by apply list_elem_of_filter in Hlast as [_ ?].
  - apply last_None in Hlast. unfold dur in Hdur. rewrite Hlast in Hdur.
    unfold Zsum in Hdur. simpl in Hdur. lia.
Qed.

(** ** The totals of [computeMetrics] *)

Lemma totals_gap processes segments :
  snd (metric_totals processes segments)
  = fst (metric_totals processes segments) + Zsum (burst <$> processes).
Proof.
  rewrite metric_totals_spec. unfold totals_with. simpl.
  induction processes as [|p processes IH]; [done|].
  rewrite !fmap_cons, !Zsum_cons, IH. lia.
Qed.

(** ** The selection of the priority policy *)

Lemma cmp_priority_le a b : cmp_priority a b <= 0 <-> not_after a b.
Proof.
  unfold cmp_priority, not_after, before, rank.
  destruct (Z.eqb_spec (priority a - priority b) 0),
           (Z.eqb_spec (arrival a - arrival b) 0); simpl;
    (split; [intros ?|intros [?|[=]]]);
    try lia;
    try (destruct (Z.eq_dec (burst a) (burst b)); [right; f_equal; [f_equal|]; lia|left; lia]);
    try (left; lia).
Qed.

Lemma cmp_priority_gt a b : 0 < cmp_priority a b <-> before b a.
Proof.
  unfold cmp_priority, before.
  destruct (Z.eqb_spec (priority a - priority b) 0),
           (Z.eqb_spec (arrival a - arrival b) 0); simpl; lia.
Qed.

Section FirstOfSort.
Context {A : Type} (cmp : A -> A -> Z).

Lemma sort_insert_first x l :
  (forall y, y ∈ l -> cmp x y <= 0) -> sort_insert cmp x l = x :: l.
Proof.
  destruct l as [|y l]; [done|]. intros H. simpl.
  destruct (Z.leb_spec (cmp x y) 0) as [_|Hgt]; [done|].
  pose proof (H y ltac:(by left)). lia.
Qed.

Lemma sort_insert_behind a x l :
  0 < cmp a x -> sort_insert cmp a (x :: l) = x :: sort_insert cmp a l.
Proof. intros Hlt. simpl. destruct (Z.leb_spec (cmp a x) 0); [lia|done]. Qed.

(** An element that compares lower than those before it and no higher than
    those after it comes first in the sorted list. *)
Lemma sort_by_first l1 x l2 :
  (forall y, y ∈ l1 -> 0 < cmp y x) -> (forall y, y ∈ l2 -> cmp x y <= 0) ->
  sort_by cmp (l1 ++ x :: l2) = x :: sort_by cmp (l1 ++ l2).
Proof.
  intros H1 H2. induction l1 as [|a l1 IH]; simpl.
  - apply sort_insert_first. intros y Hy. apply H2. by rewrite <- (sort_by_perm cmp).
  - rewrite IH by (intros y Hy; apply H1; by right).
    apply sort_insert_behind. apply H1. by left.
Qed.
End FirstOfSort.

(** Every non-empty list has a first element of lowest rank. *)
Lemma first_of_rank (l : list Process) :
  l <> [] ->
  exists l1 x l2, l = l1 ++ x :: l2 /\
    (forall y, y ∈ l1 -> before x y) /\ (forall y, y ∈ l2 -> not_after x y).
Proof.
  induction l as [|a l IH]; [done|]. intros _.
  destruct l as [|b l].
  - exists [], a, []. split; [done|]. split; intros y Hy; by apply elem_of_nil in Hy.
  - destruct IH as (l1 & x & l2 & Heq & H1 & H2); [done|].
    destruct (Z.le_gt_cases (cmp_priority a x) 0) as [Hle|Hgt].
    + apply cmp_priority_le in Hle.
      exists [], a, (b :: l). split; [done|].
      split; [intros y Hy; by apply elem_of_nil in Hy|].
      intros y Hy. rewrite Heq in Hy.
      assert (Hxy : not_after x y).
      { apply elem_of_app in Hy as [Hy|Hy]; [left; by apply H1|].
        apply elem_of_cons in Hy as [->|Hy]; [by right|by apply H2]. }
      clear -Hle Hxy. unfold not_after, before, rank in *.
      destruct Hle as [?|[=]], Hxy as [?|[=]]; [left; lia..|right; congruence].
    + apply cmp_priority_gt in Hgt.
      exists (a :: l1), x, l2. split; [by rewrite Heq|]. split; [|done].
      intros y Hy. apply elem_of_cons in Hy as [->|Hy]; [done|by apply H1].
Qed.

(** The sort of the ready list keeps the order of the processes of equal
    rank. *)
Lemma sort_insert_rank x l v :
  filter (fun p => rank p = v) (sort_insert cmp_priority x l)
  = filter (fun p => rank p = v) (x :: l).
Proof.
  induction l as [|y l IH]; [done|]. simpl.
  destruct (Z.leb_spec (cmp_priority x y) 0) as [Hle|Hgt]; [done|].
  apply cmp_priority_gt in Hgt.
  rewrite (filter_cons _ y), IH, !filter_cons.
  destruct (decide (rank y = v)) as [Hy|], (decide (rank x = v)) as [Hx|]; try done.
  exfalso. rewrite <- Hx in Hy. unfold rank, before in *. injection Hy as ? ? ?. lia.
Qed.

Lemma sort_by_rank l v :
  filter (fun p => rank p = v) (sort_by cmp_priority l) = filter (fun p => rank p = v) l.
Proof.
  induction l as [|x l IH]; [done|]. simpl.
  by rewrite sort_insert_rank, !filter_cons, IH.
Qed.

Lemma scan_keeps_rank_order remaining (st : np_state) ready (i : nat) v :
  equal_ranks_in_array_order remaining st ->
  enqueueArrivals remaining (np_time st) (np_ready st) (np_i st) = (ready, i) ->
  filter (fun p => rank p = v) ready
  `sublist_of` filter (fun p => rank p = v) (take i remaining).
Proof.
  intros HJ Hscan.
  destruct (enqueueArrivals_spec remaining (np_time st) (np_ready st) (np_i st))
    as (n & Hscan' & _).
  rewrite Hscan in Hscan'. injection Hscan' as -> ->.
  rewrite <- take_take_drop, !filter_app.
  apply sublist_app; [apply HJ|done].
Qed.

(** ** The orchestrator *)

Lemma mergeSamePid_same l : mergeSamePid l = l.
Proof.
  unfold mergeSamePid. induction l as [|p l IH]; [done|].
  rewrite fmap_cons, IH. by destruct p.
Qed.

Lemma chain_expand_length segs : forall t,
  chain t segs -> Z.of_nat (length (expand segs)) = end_from t segs - t.
Proof.
  induction segs as [|s segs IH]; intros t Hc.
  - rewrite end_from_nil. simpl. lia.
  - destruct Hc as (Hs & Hlt & Hc). simpl.
    rewrite length_app, length_replicate, Nat2Z.inj_add, (IH _ Hc), end_from_cons. lia.
Qed.

Lemma chain_built segs :
  chain 0 segs ->
  built_from segs (mkBuild segs (segmentsToTicks segs) 0 false).
Proof.
  intros Hc. split.
  - by rewrite ticks_of_chain.
  - rewrite (chain_expand_length segs 0 Hc). unfold makespan, end_from. lia.
Qed.

Lemma run_policy_spec algo quantum ps :
  well_formed ps ->
  exists segs,
    run_policy algo quantum ps = Done segs /\
    if known_policy algo
    then schedule_of ps segs /\
         (algo = "RR"%string ->
          sliced (Z.max 1 quantum) segs /\ short_is_last (Z.max 1 quantum) segs)
    else segs = [].
Proof.
  intros Hwf.
  destruct (policies_schedule ps 1 Hwf ltac:(lia))
    as (Hf & (s2 & Hr2 & H2) & (s3 & Hr3 & H3) & _).
  destruct (rr_schedule ps (Z.max 1 quantum) Hwf ltac:(lia)) as (s4 & Hr4 & H4 & Hs4).
  unfold run_policy, known_policy.
  destruct (String.eqb_spec algo "FCFS") as [->|_].
  { eexists. split; [done|]. simpl. split; [done|]. discriminate. }
  destruct (String.eqb_spec algo "SJF") as [->|_].
  { exists s2. split; [done|]. simpl. split; [done|]. discriminate. }
  destruct (String.eqb_spec algo "PRIORITY") as [->|_].
  { exists s3. split; [done|]. simpl. split; [done|]. discriminate. }
  destruct (String.eqb_spec algo "RR") as [->|_].
  { exists s4. split; [done|]. simpl. split; [done|]. done. }
  by exists [].
Qed.

Lemma schedule_of_nil : schedule_of [] [].
Proof.
  unfold schedule_of, timeline_of, contiguous_partition, conserved_named, punctual.
  split_and!; try done; intros;
    match goal with
    | H : _ ∈ [] |- _ => by apply elem_of_nil in H
    | H : [] !! _ = Some _ |- _ => by rewrite lookup_nil in H
    end.
Qed.

Lemma build_spec algo quantum ps :
  well_formed ps ->
  exists segs b,
    buildSchedule algo quantum ps = Done b /\ built_from segs b /\
    if known_policy algo
    then schedule_of ps segs /\
         (algo = "RR"%string ->
          sliced (Z.max 1 quantum) segs /\ short_is_last (Z.max 1 quantum) segs)
    else segs = [].
Proof.
  intros Hwf. unfold buildSchedule. rewrite mergeSamePid_same.
  destruct ps as [|p ps].
  - exists [], (mkBuild [] [] 0 false). split; [done|]. split; [done|].
    destruct (known_policy algo); [|done]. split; [apply schedule_of_nil|].
    intros _. split.
    + intros s Hs. by apply elem_of_nil in Hs.
    + intros i j si sj _ Hi. by rewrite lookup_nil in Hi.
  - destruct (run_policy_spec algo quantum (p :: ps) Hwf) as (segs & Hrun & Hspec).
    exists segs, (mkBuild segs (segmentsToTicks segs) 0 false).
    cbn [length Nat.eqb]. rewrite Hrun. split; [done|]. split; [|done].
    apply chain_built. destruct (known_policy algo).
    + apply Hspec.
    + by rewrite Hspec.
Qed.

(** ** The makespan *)

(** The segments of a chain last, together, from its start to its end. *)
Lemma chain_total segs : forall t,
  chain t segs -> Zsum ((fun s => end_ s - start s) <$> segs) = end_from t segs - t.
Proof.
  induction segs as [|s segs IH]; intros t Hc.
  - rewrite end_from_nil. unfold Zsum. simpl. lia.
  - destruct Hc as (Hs & Hlt & Hc).
    rewrite fmap_cons, Zsum_cons, (IH _ Hc), end_from_cons. lia.
Qed.

Lemma dur_cons k s segs :
  dur k (s :: segs) = (if decide (pid s = k) then end_ s - start s else 0) + dur k segs.
Proof.
  unfold dur, segs_of. rewrite filter_cons.
  destruct (decide (pid s = k)); [by rewrite fmap_cons, Zsum_cons|lia].
Qed.

Lemma Zsum_indicator (ks : list string) (k : string) (d : Z) :
  NoDup ks -> k ∈ ks ->
  Zsum ((fun k' => if decide (k = k') then d else 0) <$> ks) = d.
Proof.
  induction 1 as [|k0 ks Hnot _ IH]; intros Hin; [by apply elem_of_nil in Hin|].
  rewrite fmap_cons, Zsum_cons. destruct (decide (k = k0)) as [->|Hne].
  - rewrite (Zsum_fmap_ext _ (fun _ => 0)).
    + clear. induction ks; [unfold Zsum; simpl; lia|].
      rewrite fmap_cons, Zsum_cons. lia.
    + intros k' Hk'. destruct (decide (k0 = k')) as [<-|]; done.
  - apply elem_of_cons in Hin as [?|Hin]; [done|]. rewrite IH by done. lia.
Qed.

(** The durations of all segments are those of the ids, added up, when the
    ids are distinct and every segment bears one of them. *)
Lemma total_by_id (ks : list string) segs :
  NoDup ks -> (forall s, s ∈ segs -> pid s ∈ ks) ->
  Zsum ((fun s => end_ s - start s) <$> segs) = Zsum ((fun k => dur k segs) <$> ks).
Proof.
  intros Hnd. induction segs as [|s segs IH]; intros Hin.
  - symmetry. clear. induction ks; [done|]. rewrite fmap_cons, Zsum_cons.
    unfold dur at 1. simpl. unfold Zsum in *. simpl in *. lia.
  - rewrite fmap_cons, Zsum_cons, IH by (intros s' Hs'; apply Hin; by right).
    rewrite (Zsum_fmap_ext (fun k => dur k (s :: segs))
               (fun k => (if decide (pid s = k) then end_ s - start s else 0)
                         + dur k segs))
      by (intros k _; apply dur_cons).
    rewrite <- (Zsum_indicator ks (pid s) (end_ s - start s) Hnd) at 1
      by (apply Hin; by left).
    clear. induction ks; [unfold Zsum; simpl; lia|].
    rewrite !fmap_cons, !Zsum_cons. lia.
Qed.

Lemma makespan_of_schedule ps segs :
  well_formed ps -> Forall (fun p => id p <> IDLE) ps -> schedule_of ps segs ->
  makespan segs = Zsum (burst <$> ps) + dur IDLE segs.
Proof.
  intros [Hnd _] Hnames (Hc & (_ & _ & Hpid) & Hdur & _).
  change (makespan segs) with (end_from 0 segs).
  pose proof (chain_total segs 0 Hc) as Htot.
  rewrite (total_by_id (IDLE :: (id <$> ps))) in Htot.
  - rewrite fmap_cons, Zsum_cons in Htot.
    rewrite <- list_fmap_compose in Htot.
    rewrite (Zsum_fmap_ext _ burst) in Htot; [lia|].
    intros p Hp. simpl. apply Hdur; [done|].
    rewrite Forall_forall in Hnames. by apply Hnames.
  - apply NoDup_cons. split; [|done]. intros Hin.
    apply list_elem_of_fmap in Hin as (p & Heq & Hp).
    rewrite Forall_forall in Hnames. by apply (Hnames p Hp).
  - intros s Hs. destruct (Hpid s Hs) as [->|(p & Hp & ->)]; [by left|].
    right. by apply list_elem_of_fmap_2.
Qed.

(** ** The order of service *)

Lemma service_order_snoc segs s :
  service_order (segs ++ [s])
  = service_order segs ++ (if decide (pid s <> IDLE) then [pid s] else []).
Proof.
  unfold service_order. rewrite filter_app, fmap_app, filter_cons, filter_nil.
  by destruct (decide (pid s <> IDLE)).
Qed.

Lemma accounts_service_order runs segs :
  accounts runs segs -> Forall (fun r => id (fst r) <> IDLE) runs ->
  service_order segs = (fun r => id (fst r)) <$> runs.
Proof.
  induction 1 as [|runs segs a b _ IH|runs segs p a d _ IH]; intros Hn; [done| |].
  - rewrite service_order_snoc, IH by done. unfold idle_seg. cbn [pid].
    destruct (decide (IDLE <> IDLE)); [done|by rewrite app_nil_r].
  - apply Forall_app in Hn as [Hn Hp]. rewrite Forall_singleton in Hp. simpl in Hp.
    rewrite service_order_snoc, IH, fmap_app by done. unfold run_seg. cbn [pid].
    destruct (decide (id p <> IDLE)) as [_|Hno]; [done|by destruct Hno].
Qed.

(** * The page *)

(** ** The number fields *)

Lemma clampInt_bounds v min max :
  min <= max -> min <= clampInt v min max <= max.
Proof. intros Hle. destruct v as [|[]|q]; simpl; lia. Qed.

Lemma clampInt_floor q min max :
  min <= Qfloor q <= max -> clampInt (JFin q) min max = Qfloor q.
Proof. intros H. simpl. lia. Qed.

(** ** The handlers of the process list *)

Lemma id_taken processes p :
  existsb (fun x => String.eqb (id x) (id p)) processes = true
  <-> id p ∈ id <$> processes.
Proof.
  rewrite existsb_exists. split.
  - intros (x & Hx & Heq). apply String.eqb_eq in Heq. rewrite <- Heq.
    apply list_elem_of_fmap_2. by apply list_elem_of_In.
  - intros Hin. apply list_elem_of_fmap in Hin as (x & Heq & Hx).
    exists x. split; [by apply list_elem_of_In|]. by apply String.eqb_eq.
Qed.

Lemma onAddProcess_new processes p :
  id p ∉ id <$> processes -> onAddProcess processes p = (processes ++ [p], false).
Proof.
  intros Hnew. unfold onAddProcess.
  destruct (existsb _ processes) eqn:Hex; [|done].
  by apply id_taken in Hex.
Qed.

Lemma onAddProcess_taken processes p :
  id p ∈ id <$> processes -> onAddProcess processes p = (processes, true).
Proof. intros Hin. unfold onAddProcess. apply id_taken in Hin. by rewrite Hin. Qed.

Lemma onRemoveProcess_ids processes pid :
  id <$> onRemoveProcess processes pid = filter (fun k => k <> pid) (id <$> processes).
Proof.
  unfold onRemoveProcess. induction processes as [|p l IH]; [done|].
  rewrite fmap_cons, !filter_cons.
  destruct (decide (id p <> pid)); [by rewrite fmap_cons, IH|done].
Qed.

Lemma onRemoveProcess_absent processes pid :
  pid ∉ id <$> processes -> onRemoveProcess processes pid = processes.
Proof.
  intros Hnot. apply filter_all, Forall_forall. intros p Hp Heq.
  apply Hnot. rewrite <- Heq. by apply list_elem_of_fmap_2.
Qed.

(** ** The invariant of the page *)

Lemma demo_ok : page_ok app_initial.
Proof.
  split_and!.
  - apply (bool_decide_unpack _). by vm_compute.
  - unfold app_initial, demo, P. cbn [a_processes].
    repeat (apply Forall_cons; split); [..|apply Forall_nil];
      unfold in_bounds; cbn [id arrival burst priority]; repeat split; (done || lia).
  - unfold form_ok. simpl. lia.
Qed.

Section PageFacts.
Variable trim : string -> string.

Lemma handle_ok a e : page_ok a -> page_ok (handle trim a e).
Proof.
  intros (Hnd & Hall & Ha & Hb & Hp).
  destruct e as [text|v|v|v| |k| |]; unfold page_ok, form_ok; cbn [handle a_processes a_form
    f_id f_arrival f_burst f_priority].
  - done.
  - pose proof (clampInt_bounds v 0 9999 ltac:(lia)). split_and!; (done || lia).
  - pose proof (clampInt_bounds v 1 9999 ltac:(lia)). split_and!; (done || lia).
  - pose proof (clampInt_bounds v 1 9999 ltac:(lia)). split_and!; (done || lia).
  - destruct (canAdd trim (a_form a)) eqn:Hcan; [|done].
    cbn [a_processes a_form form_initial f_arrival f_burst f_priority].
    split_and!; try lia.
    + unfold onAddProcess.
      destruct (existsb _ (a_processes a)) eqn:Hex; [done|]. cbn [fst].
      rewrite fmap_app. apply NoDup_app. split_and!; [done| |apply NoDup_singleton].
      intros x Hx Hx'. apply list_elem_of_singleton in Hx'. simpl in Hx'. subst x.
      assert (Htaken : existsb
                (fun x => String.eqb (id x)
                   (id (mkProcess (trim (f_id (a_form a))) (f_arrival (a_form a))
                          (f_burst (a_form a)) (f_priority (a_form a)))))
                (a_processes a) = true) by (by apply id_taken).
      congruence.
    + unfold onAddProcess.
      destruct (existsb _ (a_processes a)); [done|]. cbn [fst].
      apply Forall_app. split; [done|]. apply Forall_singleton.
      unfold canAdd in Hcan. apply andb_true_iff in Hcan as [Hid _].
      split_and!; cbn [id arrival burst priority]; try lia.
      intros Heq. by rewrite Heq in Hid.
  - split_and!; try lia.
    + rewrite onRemoveProcess_ids. by apply NoDup_filter.
    + unfold onRemoveProcess. rewrite Forall_forall in Hall. apply Forall_forall.
      intros p Hin. apply list_elem_of_filter in Hin as [_ Hin]. by apply Hall.
  - split_and!; try lia; [apply NoDup_nil_2|apply Forall_nil_2].
  - split_and!; try lia.
    + apply (bool_decide_unpack _). by vm_compute.
    + unfold onLoadDemo.
      repeat (apply Forall_cons; split); [..|apply Forall_nil];
        unfold in_bounds; cbn [id arrival burst priority]; repeat split; (done || lia).
Qed.

Lemma page_after_ok events : page_ok (page_after trim events).
Proof.
  unfold page_after. generalize demo_ok. generalize app_initial.
  induction events as [|e events IH]; intros a Ha; [done|].
  simpl. apply IH. by apply handle_ok.
Qed.
End PageFacts.

Lemma page_ok_well_formed a : page_ok a -> well_formed (a_processes a).
Proof.
  intros (Hnd & Hall & _). split; [done|].
  eapply Forall_impl; [exact Hall|]. intros p (_ & ? & ? & _). lia.
Qed.

(** ** The playback cursor *)

Lemma onStep_min ticks t :
  0 <= t <= Z.of_nat (length ticks) ->
  onStep ticks t = Z.min (t + 1) (Z.of_nat (length ticks)).
Proof.
  intros Ht. unfold onStep. destruct (length ticks) eqn:Hlen; simpl; [lia|done].
Qed.

Lemma timer_tick_min ticks t :
  timer_tick ticks t
  = (Z.min (t + 1) (Z.of_nat (length ticks)), Z.of_nat (length ticks) <=? t + 1).
Proof.
  unfold timer_tick. destruct (Z.leb_spec (Z.of_nat (length ticks)) (t + 1)); f_equal; lia.
Qed.

Lemma steps_min ticks (n : nat) : forall t,
  0 <= t <= Z.of_nat (length ticks) ->
  Nat.iter n (onStep ticks) t = Z.min (t + Z.of_nat n) (Z.of_nat (length ticks)).
Proof.
  induction n as [|n IH]; intros t Ht; [simpl; lia|].
  rewrite Nat.iter_succ, IH, onStep_min by lia. lia.
Qed.

(** In a chain, the segment that covers a unit is the one the search
    finds. *)
Lemma chain_find t0 segs s t :
  chain t0 segs -> s ∈ segs -> start s <= t < end_ s ->
  find (covers t) segs = Some s.
Proof.
  revert t0. induction segs as [|s0 segs IH]; intros t0 Hc Hs Ht.
  - by apply elem_of_nil in Hs.
  - destruct Hc as (Hst & Hlt & Hc). simpl. unfold covers at 1.
    destruct (Z.leb_spec (start s0) t), (Z.ltb_spec t (end_ s0)); simpl.
    + apply elem_of_cons in Hs as [->|Hs]; [done|].
      apply list_elem_of_lookup in Hs as [j Hj].
      pose proof (chain_start_ge _ _ _ _ Hc Hj). lia.
    + apply elem_of_cons in Hs as [->|Hs]; [lia|]. by apply (IH (end_ s0)).
    + apply elem_of_cons in Hs as [->|Hs]; [lia|]. by apply (IH (end_ s0)).
    + apply elem_of_cons in Hs as [->|Hs]; [lia|]. by apply (IH (end_ s0)).
Qed.

Lemma ticks_lookup segments t :
  0 <= t < makespan segments ->
  segmentsToTicks segments !! Z.to_nat t
  = Some (match find (covers t) segments with
          | Some seg => pid seg
          | None => IDLE
          end).
Proof.
  intros Ht. unfold segmentsToTicks, makespan in *.
  rewrite list_lookup_fmap, lookup_seqZ_lt by lia. simpl.
  by replace (0 + Z.of_nat (Z.to_nat t)) with t by lia.
Qed.

Lemma ticks_length segments :
  length (segmentsToTicks segments) = Z.to_nat (makespan segments).
Proof. unfold segmentsToTicks, makespan. by rewrite length_fmap, length_seqZ. Qed.

(** ** The colours *)

Lemma colour_index (h : Z) :
  exists c, COLORS !! Z.to_nat (Z.abs h mod Z.of_nat (length COLORS)) = Some c /\ c ∈ COLORS.
Proof.
  assert (Hlt : (Z.to_nat (Z.abs h mod Z.of_nat (length COLORS)) < length COLORS)%nat).
  { pose proof (Z.mod_pos_bound (Z.abs h) (Z.of_nat (length COLORS)) ltac:(simpl; lia)). lia. }
  apply lookup_lt_is_Some in Hlt as [c Hc]. exists c. split; [done|].
  by eapply list_elem_of_lookup_2.
Qed.

(** ** The controls *)

Lemma control_ok c e : controls_ok c -> controls_ok (control c e).
Proof.
  intros (Hk & Hq & Hs). destruct e as [o|v|v]; unfold controls_ok; simpl.
  - split; [by destruct o|done].
  - pose proof (clampInt_bounds v 1 1000 ltac:(lia)). split_and!; (done || lia).
  - pose proof (clampInt_bounds v 50 2000 ltac:(lia)). split_and!; (done || lia).
Qed.

Lemma controls_after_ok events : controls_ok (controls_after events).
Proof.
  unfold controls_after.
  assert (H0 : controls_ok controls_initial) by (split; [done|simpl; lia]).
  revert H0. generalize controls_initial.
  induction events as [|e events IH]; intros c Hc; [done|].
  simpl. apply IH. by apply control_ok.
Qed.

(** ** Whether the playback has something to play *)

Lemma schedule_not_empty ps segs :
  schedule_of ps segs -> ps <> [] -> segs <> [] /\ expand segs <> [].
Proof.
  intros (Hc & (_ & Hhead & _) & _) Hne. destruct (Hhead Hne) as (s & Hs & _).
  destruct segs as [|s0 segs]; [done|]. split; [done|].
  destruct Hc as (_ & Hlt & _). simpl.
  destruct (Z.to_nat (end_ s0 - start s0)) eqn:Hn; [lia|done].
Qed.

Lemma build_can_play algo quantum ps b :
  well_formed ps -> known_policy algo = true ->
  buildSchedule algo quantum ps = Done b ->
  (canPlay b = true <-> ps <> []).
Proof.
  intros Hwf Hk Hb.
  destruct (build_spec algo quantum ps Hwf) as (segs & b' & Hb' & [-> _] & Hs).
  rewrite Hb in Hb'. injection Hb' as ->. rewrite Hk in Hs. destruct Hs as [Hs _].
  destruct ps as [|p ps].
  - unfold buildSchedule in Hb. simpl in Hb. injection Hb as <- _. by split.
  - destruct (schedule_not_empty _ _ Hs ltac:(done)) as [H1 H2].
    unfold canPlay. cbn [b_segments b_ticks]. split; [done|]. intros _.
    destruct segs; [done|]. destruct (expand _); [done|]. done.
Qed.

(** ** The number of slices of round robin *)

Lemma short_is_last_tail q s segs : short_is_last q (s :: segs) -> short_is_last q segs.
Proof. intros H i j si sj Hij Hi Hj. apply (H (S i) (S j)); [lia|done..]. Qed.

Lemma short_head_alone q s segs :
  short_is_last q (s :: segs) -> pid s <> IDLE -> end_ s - start s < q ->
  segs_of (pid s) segs = [].
Proof.
  intros H Hne Hshort. apply filter_none, Forall_forall. intros s' Hs'.
  apply list_elem_of_lookup in Hs' as [j Hj].
  apply (H 0%nat (S j) s s'); [lia|done..].
Qed.

(** When every run lasts at most the quantum and only the last run of an id
    is shorter, an id has as many runs as quanta are needed for its time. *)
Lemma slice_count q k segs :
  1 <= q -> k <> IDLE -> sliced q segs -> short_is_last q segs ->
  Z.of_nat (occ k segs) = (dur k segs + q - 1) / q.
Proof.
  intros Hq Hk. induction segs as [|s segs IH]; intros Hsl Hlast.
  - unfold occ, dur, Zsum. simpl. symmetry. apply Z.div_small. lia.
  - assert (Hsl' : sliced q segs) by (intros s' Hs'; apply Hsl; by right).
    specialize (IH Hsl' (short_is_last_tail _ _ _ Hlast)).
    rewrite dur_cons. unfold occ, segs_of in *. rewrite filter_cons.
    destruct (decide (pid s = k)) as [Heq|Hne]; [|by rewrite IH].
    assert (Hd : 1 <= end_ s - start s <= q).
    { apply Hsl; [by left|congruence]. }
    destruct (decide (end_ s - start s < q)) as [Hshort|Hfull].
    + pose proof (short_head_alone q s segs Hlast ltac:(congruence) Hshort) as Hnone.
      rewrite Heq in Hnone. unfold segs_of in Hnone.
      unfold dur, segs_of. rewrite Hnone. unfold Zsum. simpl.
      apply Z.div_unique with (r := end_ s - start s - 1); lia.
    + assert (Hfull' : end_ s - start s = q) by lia. rewrite Hfull'.
      cbn [length]. rewrite Nat2Z.inj_succ, IH.
      replace (q + dur k segs + q - 1) with (dur k segs + q - 1 + 1 * q) by lia.
      rewrite Z.div_add by lia. lia.
Qed.

(** ** Round robin with a quantum that no burst exceeds *)

Lemma fcfs_after_S procs (m : nat) p :
  procs !! m = Some p -> fcfs_after procs (S m) = fcfs_body (fcfs_after procs m) p.
Proof.
  intros Hm. unfold fcfs_after. by rewrite (take_S_r _ _ _ Hm), foldl_app.
Qed.

Section LargeQuantum.
Variable procs : list Process.
Variable q : Z.
Hypothesis quantum : 1 <= q.
Hypothesis ids : NoDup (id <$> procs).
Hypothesis bursts : Forall (fun p => 1 <= burst p) procs.
Hypothesis large : Forall (fun p => burst p <= q) procs.

Lemma rr_init_as_fcfs : rr_as_fcfs procs (rr_init procs).
Proof.
  unfold rr_init.
  destruct (enqueueArrivals_spec procs 0 [] 0) as (n & -> & _).
  rewrite drop_0. simpl. exists 0%nat. unfold rr_live.
  cbn [rr_queue rr_i rr_time rr_remainingBurst rr_segments].
  split_and!; [lia|by rewrite drop_0| |by left].
  intros p Hp. apply rr_initial_map_lookup; [done|].
  rewrite take_drop in Hp. done.
Qed.

Lemma rr_step_as_fcfs st st' :
  rr_inv procs st -> rr_as_fcfs procs st -> rr_cond procs st = true ->
  rr_step procs q st = Continue st' -> rr_as_fcfs procs st'.
Proof.
  intros Hinv (m & Hm & Hqueue & Hmap & Hpace) Hcond Hstep.
  pose proof Hinv as (Hi & _ & _ & Hnext & Hpast & Hin & Hnd & _).
  destruct (rr_queue st) as [|current rest] eqn:Hq.
  - (* the idle jump *)
    unfold rr_cond in Hcond. rewrite Hq in Hcond. simpl in Hcond.
    apply Nat.ltb_lt in Hcond.
    destruct (rr_step_idle procs q st Hinv Hq Hcond) as (r & n & Hr & Hn & Hstep' & _).
    rewrite Hstep in Hstep'. injection Hstep' as ->.
    assert (m = rr_i st) as ->.
    { apply (f_equal length) in Hqueue. rewrite length_drop, length_take in Hqueue.
      simpl in Hqueue. lia. }
    specialize (Hnext r Hr).
    exists (rr_i st). unfold rr_live in *.
    cbn [rr_queue rr_i rr_time rr_remainingBurst rr_segments].
    split_and!.
    + lia.
    + by rewrite take_drop_commute.
    + intros p Hp. apply Hmap. rewrite Hq. simpl.
      by rewrite (drop_take_drop procs (rr_i st) n).
    + right. exists r. destruct Hpace as [Hpace|(r' & Hr' & _ & Ht & _)].
      * rewrite <- Hpace. by simpl.
      * rewrite Hr in Hr'. injection Hr' as <-. lia.
  - (* a run, which is the whole burst *)
    destruct (rr_step_run procs q quantum st current rest Hinv Hq)
      as (st1 & rem & n & Hrem & _ & Hstep' & _ & Htime & Hidx & Hlen & _
          & Hq' & Hmap' & Hsegs).
    rewrite Hstep in Hstep'. injection Hstep' as <-.
    assert (Hcur : current ∈ procs) by (apply Hin; by left).
    assert (Hfull : rem = burst current).
    { rewrite (Hmap current) in Hrem; [by injection Hrem|].
      unfold rr_live. rewrite Hq. by left. }
    assert (Hle : burst current <= q).
    { rewrite Forall_forall in large. by apply large. }
    subst rem. rewrite Z.min_r in * by lia.
    rewrite Z.sub_diag in Hq', Hmap'. simpl in Hq', Hmap'. rewrite app_nil_r in Hq'.
    assert (Htake : take (rr_i st) procs !! m = Some current).
    { rewrite <- (Nat.add_0_r m), <- lookup_drop, <- Hqueue. done. }
    assert (Hmi : (m < rr_i st)%nat).
    { apply lookup_lt_Some in Htake. rewrite length_take in Htake. lia. }
    assert (Hpm : procs !! m = Some current).
    { by rewrite lookup_take_lt in Htake. }
    assert (Hrest : rest = drop (S m) (take (rr_i st) procs)).
    { rewrite (drop_S _ _ _ Htake) in Hqueue. by injection Hqueue. }
    assert (Harr : arrival current <= rr_time st).
    { rewrite Forall_forall in Hpast. apply Hpast. by eapply list_elem_of_lookup_2. }
    exists (S m). split_and!.
    + lia.
    + rewrite Hq', Hidx, Hrest, <- take_take_drop.
      rewrite drop_app_le; [done|]. rewrite length_take. lia.
    + intros p Hp. unfold rr_live in Hp. rewrite Hq', Hidx, <- app_assoc in Hp.
      rewrite <- (drop_take_drop procs (rr_i st) n) in Hp.
      rewrite Hmap', lookup_delete_ne.
      * apply Hmap. unfold rr_live. rewrite Hq. by right.
      * unfold rr_live in Hnd. rewrite Hq, <- app_comm_cons, fmap_cons in Hnd.
        apply NoDup_cons in Hnd as [Hfresh _]. intros Heq. apply Hfresh.
        rewrite Heq. by apply list_elem_of_fmap_2.
    + left. rewrite (fcfs_after_S _ _ _ Hpm), Htime, Hsegs.
      destruct Hpace as [<-|(r & Hr & Hlt & Ht & Hs)].
      * simpl. destruct (Z.ltb_spec (rr_time st) (arrival current)); [lia|done].
      * rewrite Hpm in Hr. injection Hr as <-.
        destruct (fcfs_after procs m) as [t0 s0]. simpl in *.
        destruct (Z.ltb_spec t0 (arrival current)); [|lia].
        by rewrite Ht, Hs.
Qed.

Lemma rr_run_as_fcfs :
  rr_run procs q = Done (snd (fcfs_after procs (length procs))).
Proof.
  destruct (while_loop_total (rr_cond procs) (rr_step procs q)
              (fun st => rr_inv procs st /\ rr_as_fcfs procs st)
              (rr_mu procs)) with
    (fuel := rr_fuel procs) (st := rr_init procs)
    as (st' & Hrun & (Hinv & m & Hm & Hqueue & _ & Hpace) & Hcond).
  - intros st [HI HJ] Hcond.
    destruct (rr_step_spec procs q quantum st HI Hcond) as (st' & Hstep & ? & ? & _).
    exists st'. split_and!; try done.
    exact (rr_step_as_fcfs st st' HI HJ Hcond Hstep).
  - split; [by apply rr_init_inv|apply rr_init_as_fcfs].
  - by apply rr_init_mu.
  - unfold rr_run. rewrite Hrun. simpl. f_equal.
    destruct Hinv as (Hi & _).
    unfold rr_cond in Hcond. apply orb_false_elim in Hcond as [H1 H2].
    apply Nat.ltb_ge in H1, H2.
    assert (m = length procs) as ->.
    { apply (f_equal length) in Hqueue. rewrite length_drop, length_take in Hqueue. lia. }
    destruct Hpace as [Hpace|(r & Hr & _)].
    + by rewrite <- Hpace.
    + apply lookup_lt_Some in Hr. lia.
Qed.
End LargeQuantum.

(** ** The input order *)

Lemma sorted_on_tail {A : Type} (k : A -> Z) x l : sorted_on k (x :: l) -> sorted_on k l.
Proof. intros H i j a b Hij Hi Hj. apply (H (S i) (S j)); [lia|done..]. Qed.

(** Two lists in order of arrival that hold the same processes are equal
    when no two arrivals are. *)
Lemma sorted_perm_eq (l1 : list Process) : forall l2,
  sorted_on arrival l1 -> sorted_on arrival l2 -> l1 ≡ₚ l2 ->
  NoDup (arrival <$> l1) -> l1 = l2.
Proof.
  induction l1 as [|x l1 IH]; intros l2 H1 H2 Hperm Hnd.
  - by apply Permutation_nil_l in Hperm.
  - destruct l2 as [|y l2]; [by apply Permutation_nil_r in Hperm|].
    rewrite fmap_cons in Hnd. apply NoDup_cons in Hnd as [Hfresh Hnd].
    assert (x = y) as <-.
    { assert (Hy : y ∈ x :: l1) by (rewrite Hperm; by left).
      assert (Hx : x ∈ y :: l2) by (rewrite <- Hperm; by left).
      apply elem_of_cons in Hy as [->|Hy]; [done|].
      apply elem_of_cons in Hx as [->|Hx]; [done|].
      apply list_elem_of_lookup in Hy as [j Hj]. apply list_elem_of_lookup in Hx as [j' Hj'].
      pose proof (H1 0%nat (S j) x y ltac:(lia) eq_refl Hj).
      pose proof (H2 0%nat (S j') y x ltac:(lia) eq_refl Hj').
      exfalso. apply Hfresh. replace (arrival x) with (arrival y) by lia.
      apply list_elem_of_fmap_2. by eapply list_elem_of_lookup_2. }
    f_equal. apply IH; [by eapply sorted_on_tail|by eapply sorted_on_tail| |done].
    by apply Permutation_cons_inv in Hperm.
Qed.

Lemma sort_by_arrival_perm ps ps' :
  ps ≡ₚ ps' -> NoDup (arrival <$> ps) ->
  sort_by (by_ arrival) ps = sort_by (by_ arrival) ps'.
Proof.
  intros Hperm Hnd. apply sorted_perm_eq.
  - apply sort_by_sorted_on.
  - apply sort_by_sorted_on.
  - by rewrite !sort_by_perm.
  - by rewrite sort_by_perm.
Qed.

(** ** The schedules on numbers *)

Lemma every_policy_conj (R R' : list Process -> list Segment -> Prop) ps q :
  every_policy R ps q -> every_policy R' ps q ->
  every_policy (fun ps segs => R ps segs /\ R' ps segs) ps q.
Proof.
  intros (H1 & (s2 & E2 & H2) & (s3 & E3 & H3) & (s4 & E4 & H4))
         (H1' & (s2' & E2' & H2') & (s3' & E3' & H3') & (s4' & E4' & H4')).
  rewrite E2 in E2'. rewrite E3 in E3'. rewrite E4 in E4'. simplify_eq.
  unfold every_policy. split; [done|]. split; [by exists s2'|].
  split; [by exists s3'|by exists s4'].
Qed.

Lemma every_policy_numbers_impl (R R' : list Process -> list Segment -> Prop) ps q :
  (forall segs, R ps segs -> R' ps segs) ->
  Binary64Spec.every_policy R ps q -> Binary64Spec.every_policy R' ps q.
Proof.
  intros Himpl (H1 & (s2 & ? & ?) & (s3 & ? & ?) & (s4 & ? & ?)).
  unfold Binary64Spec.every_policy.
  split_and!; [by apply Himpl|exists s2|exists s3|exists s4]; split; try done; by apply Himpl.
Qed.

(** The makespan of every schedule of a safe set is within the latest
    arrival and all the bursts together. *)
Lemma np_makespan_within cmp ps :
  well_formed ps -> safe_times ps ->
  exists segs,
    np_run cmp (sort_by (by_ arrival) ps) = Done segs /\
    makespan segs <= latest_arrival ps + Zsum (burst <$> ps).
Proof.
  intros Hwf Hsafe. destruct (safe_sorted ps Hwf Hsafe) as [Hall Hsum].
  destruct (np_runs_safe cmp ps Hwf Hsafe)
    as (rounds & st_end & _ & Hinv & _ & Hdone & _).
  rewrite np_policy_exact in Hdone by done.
  exists (np_segments st_end). split; [done|].
  rewrite Forall_forall in Hinv.
  destruct (Hinv st_end) as [(_ & _ & Hend & _) (Hready & _ & Hle)].
  { apply elem_of_app. right. by left. }
  change (makespan (np_segments st_end)) with (end_from 0 (np_segments st_end)).
  rewrite Hend.
  rewrite (Zsum_perm _ _ (fmap_Permutation burst _ _ (sort_by_perm _ ps))) in Hle.
  assert (0 <= Zsum (burst <$> (np_ready st_end
                                ++ drop (np_i st_end) (sort_by (by_ arrival) ps))));
    [|lia].
  apply Zsum_bursts_nonneg, Forall_app. split; [done|].
  by apply (np_pending_nonneg _ (latest_arrival ps)).
Qed.

Lemma rr_makespan_within ps q :
  well_formed ps -> 1 <= q -> safe_times ps ->
  exists segs,
    scheduleRoundRobin ps q = Done segs /\
    makespan segs <= latest_arrival ps + Zsum (burst <$> ps).
Proof.
  intros Hwf Hq Hsafe.
  destruct (rr_runs_safe ps q Hwf Hq Hsafe)
    as (rounds & st_end & _ & Hinv & _ & Hdone & _).
  pose proof (rr_policy_exact ps q Hwf Hq Hsafe) as Heq.
  unfold Binary64.scheduleRoundRobin, deepClone in Heq. rewrite Heq in Hdone.
  exists (rr_segments st_end). split; [done|].
  rewrite Forall_forall in Hinv.
  destruct (Hinv st_end) as [Hrr (_ & _ & Hle)].
  { apply elem_of_app. right. by left. }
  pose proof (rr_left_nonneg _ _ Hrr) as Hnn.
  destruct Hrr as (_ & _ & Hend & _).
  change (makespan (rr_segments st_end)) with (end_from 0 (rr_segments st_end)).
  rewrite Hend.
  rewrite (Zsum_perm _ _ (fmap_Permutation burst _ _ (sort_by_perm _ ps))) in Hle.
  lia.
Qed.

Lemma policies_within ps q :
  well_formed ps -> 1 <= q -> safe_times ps ->
  every_policy
    (fun ps segs => makespan segs <= latest_arrival ps + Zsum (burst <$> ps)) ps q.
Proof.
  intros Hwf Hq Hsafe. split_and!.
  - apply (fcfs_exact ps Hwf Hsafe).
  - by apply np_makespan_within.
  - by apply np_makespan_within.
  - by apply rr_makespan_within.
Qed.

(** Safe totals are safe times, and make the metrics of every schedule
    safe. *)
Lemma safe_totals_times ps : well_formed ps -> safe_totals ps -> safe_times ps.
Proof.
  intros [_ Hall] Hsafe. unfold safe_totals, safe_times in *.
  pose proof (latest_arrival_nonneg ps).
  assert (0 <= Zsum (burst <$> ps)).
  { apply Zsum_bursts_nonneg. eapply Forall_impl; [exact Hall|].
    intros p [_ ?]. simpl. lia. }
  nia.
Qed.

Lemma chain_ends_within t segs s :
  chain t segs -> s ∈ segs -> t <= end_ s <= end_from t segs.
Proof.
  revert t. induction segs as [|x segs IH]; intros t Hc Hs.
  - by apply elem_of_nil in Hs.
  - destruct Hc as (Hst & Hpos & Hc). rewrite end_from_cons.
    pose proof (chain_end_ge _ _ Hc).
    apply elem_of_cons in Hs as [->|Hs]; [lia|].
    specialize (IH _ Hc Hs). lia.
Qed.

Lemma foldr_max_bound (L : Z) (l : list Z) :
  0 <= L -> Forall (fun x => x <= L) l -> foldr Z.max 0 l <= L.
Proof. intros HL. induction 1; cbn [foldr]; lia. Qed.

Lemma schedule_safe_metrics ps segs :
  well_formed ps -> safe_totals ps -> chain 0 segs ->
  makespan segs <= latest_arrival ps + Zsum (burst <$> ps) ->
  safe_metrics ps segs.
Proof.
  intros [Hnd Hall] Hsafe Hc Hle. unfold safe_metrics, safe_totals in *.
  pose proof (latest_arrival_nonneg ps) as HA.
  assert (Hb : Forall (fun p => 0 <= burst p) ps).
  { eapply Forall_impl; [exact Hall|]. intros p [_ ?]. simpl. lia. }
  pose proof (Zsum_bursts_nonneg _ Hb) as HB.
  assert (Hmag : magnitude ps segs <= latest_arrival ps + Zsum (burst <$> ps)).
  { apply foldr_max_bound; [lia|]. apply Forall_fmap.
    rewrite !Forall_app, !Forall_fmap. rewrite Forall_forall in Hall. split_and!.
    - apply Forall_forall. intros s Hs. simpl.
      pose proof (chain_ends_within 0 segs s Hc Hs).
      change (makespan segs) with (end_from 0 segs) in Hle. lia.
    - apply Forall_forall. intros p Hp. simpl. destruct (Hall p Hp).
      pose proof (latest_arrival_ge ps p Hp). lia.
    - apply Forall_forall. intros p Hp. simpl. destruct (Hall p Hp).
      pose proof (Zsum_elem_le burst ps p Hb Hp). lia. }
  pose proof (magnitude_nonneg ps segs). nia.
Qed.

(** ** The order of the input *)

Lemma foldr_max_perm (l l' : list Z) : l ≡ₚ l' -> foldr Z.max 0 l = foldr Z.max 0 l'.
Proof. induction 1; cbn [foldr]; lia. Qed.

Lemma magnitude_perm ps ps' segs : ps ≡ₚ ps' -> magnitude ps segs = magnitude ps' segs.
Proof.
  intros Hperm. unfold magnitude. apply foldr_max_perm.
  by rewrite Hperm.
Qed.

Lemma safe_metrics_perm ps ps' segs :
  ps ≡ₚ ps' -> safe_metrics ps segs -> safe_metrics ps' segs.
Proof.
  intros Hperm. unfold safe_metrics.
  by rewrite (magnitude_perm _ _ _ Hperm), (Permutation_length Hperm).
Qed.

Lemma computeMetrics_perm ps ps' segments :
  ps ≡ₚ ps' -> computeMetrics ps segments = computeMetrics ps' segments.
Proof.
  intros Hperm. unfold computeMetrics.
  assert (Ht : metric_totals ps segments = metric_totals ps' segments).
  { rewrite !metric_totals_spec. unfold totals_with.
    f_equal; apply Zsum_perm; by rewrite Hperm. }
  assert (Hn : metrics_n ps = metrics_n ps').
  { unfold metrics_n. by rewrite (Permutation_length Hperm). }
  by rewrite Ht, Hn.
Qed.

(** ** The orchestrator on numbers *)

Lemma run_policy_exact algo quantum ps :
  well_formed ps -> safe_times ps ->
  Binary64.run_policy algo quantum ps = run_policy algo quantum ps.
Proof.
  intros Hwf Hsafe. unfold Binary64.run_policy, run_policy,
    Binary64.scheduleSJF, Binary64.schedulePriority, scheduleSJF, schedulePriority,
    deepClone.
  rewrite (proj1 (fcfs_exact ps Hwf Hsafe)), !np_policy_exact by done.
  rewrite rr_policy_exact by (done || lia). done.
Qed.

Lemma buildSchedule_exact algo quantum ps :
  well_formed ps -> safe_times ps ->
  Binary64.buildSchedule algo quantum ps = buildSchedule algo quantum ps.
Proof.
  intros Hwf Hsafe. unfold Binary64.buildSchedule, buildSchedule.
  rewrite mergeSamePid_same. by rewrite run_policy_exact.
Qed.

(** ** The selection of the priority policy on numbers *)

Lemma priority_round_keeps_rank_order remaining st st' :
  equal_ranks_in_array_order remaining st ->
  Binary64.np_step cmp_priority remaining st = Continue st' ->
  equal_ranks_in_array_order remaining st'.
Proof.
  intros HJ Hstep v. unfold Binary64.np_step in Hstep.
  destruct (enqueueArrivals remaining (np_time st) (np_ready st) (np_i st))
    as [ready i] eqn:Hscan.
  pose proof (scan_keeps_rank_order remaining st ready i v HJ Hscan) as Hsub.
  destruct ready as [|r ready'].
  - destruct (remaining !! i); [|discriminate].
    injection Hstep as <-. simpl. apply sublist_nil_l.
  - destruct (sort_by cmp_priority (r :: ready')) as [|p rest] eqn:Hsort; [discriminate|].
    injection Hstep as <-. simpl.
    rewrite <- (sort_by_rank (r :: ready') v), Hsort in Hsub.
    etrans; [|exact Hsub].
    rewrite (filter_cons _ p). destruct (decide (rank p = v)); [by apply sublist_cons|done].
Qed.

(** ** Idle time *)

Lemma idle_when_empty_nil ps : idle_when_empty ps [].
Proof. intros j s Hj. by rewrite lookup_nil in Hj. Qed.

Lemma idle_when_empty_perm ps ps' segs :
  ps ≡ₚ ps' -> idle_when_empty ps segs -> idle_when_empty ps' segs.
Proof.
  intros Hperm H j s Hj Hs. destruct (H j s Hj Hs) as [(p & Hp & Ha) Hdone]. split.
  - exists p. by rewrite <- Hperm.
  - intros p' Hp'. apply Hdone. by rewrite Hperm.
Qed.

Lemma idle_when_empty_snoc ps segs s :
  idle_when_empty ps segs ->
  (pid s = IDLE ->
   (exists p, p ∈ ps /\ arrival p = end_ s) /\
   forall p, p ∈ ps -> arrival p < end_ s -> dur (id p) segs = burst p) ->
  idle_when_empty ps (segs ++ [s]).
Proof.
  intros Hold Hnew j s' Hj Hs'.
  assert (Hjl : (j < length (segs ++ [s]))%nat) by (by eapply lookup_lt_Some).
  rewrite length_app in Hjl. simpl in Hjl.
  rewrite take_app_le by lia.
  destruct (decide (j < length segs)%nat) as [Hlt|Hge].
  - rewrite lookup_app_l in Hj by done. by apply Hold.
  - assert (j = length segs) as -> by lia.
    rewrite list_lookup_middle in Hj by done. injection Hj as <-.
    rewrite firstn_all. by apply Hnew.
Qed.

Lemma idle_when_empty_run ps segs p a b :
  idle_when_empty ps segs -> id p <> IDLE ->
  idle_when_empty ps (segs ++ [run_seg p a b]).
Proof. intros Hold Hne. apply idle_when_empty_snoc; [done|]. by intros ?. Qed.

(** In a list sorted by arrival, what arrives before the process at an
    index stands before the index. *)
Lemma sorted_before (L : list Process) (i : nat) r p :
  sorted_on arrival L -> L !! i = Some r -> p ∈ L -> arrival p < arrival r ->
  p ∈ take i L.
Proof.
  intros Hsorted Hi Hp Hlt. rewrite <- (take_drop i L) in Hp.
  apply elem_of_app in Hp as [Hp|Hp]; [done|].
  apply list_elem_of_lookup in Hp as [j Hj]. rewrite lookup_drop in Hj.
  pose proof (Hsorted i (i + j)%nat r p ltac:(lia) Hi Hj). lia.
Qed.

(** The processes that the log runs in full have segments as long as their
    bursts. *)
Lemma served_dur (served : list Process) segs p :
  NoDup (id <$> served) -> accounts (full_runs served) segs ->
  p ∈ served -> id p <> IDLE -> dur (id p) segs = burst p.
Proof.
  intros Hnd Ha Hp Hne.
  destruct (full_runs_account served served segs p Hnd (Permutation_refl _) Ha Hp Hne)
    as [Hd _].
  exact Hd.
Qed.

Section IdleTime.
Variable procs : list Process.
Hypothesis sorted : sorted_on arrival procs.
Hypothesis ids : NoDup (id <$> procs).
Hypothesis names : Forall (fun p => id p <> IDLE) procs.

Lemma name_of p : p ∈ procs -> id p <> IDLE.
Proof. intros Hp. rewrite Forall_forall in names. by apply names. Qed.

(** First come, first served. *)
Lemma fcfs_fold_idle rest : forall t segs served,
  served ++ rest = procs -> accounts (full_runs served) segs ->
  idle_when_empty procs segs ->
  idle_when_empty procs (snd (foldl fcfs_body (t, segs) rest)).
Proof.
  induction rest as [|p rest IH]; intros t segs served Heq Ha Hw; [done|].
  assert (Hp : p ∈ procs) by (rewrite <- Heq; apply elem_of_app; right; by left).
  assert (Heq' : (served ++ [p]) ++ rest = procs) by (by rewrite <- app_assoc).
  simpl. destruct (Z.ltb_spec t (arrival p)) as [Hlt|Hge].
  - apply (IH _ _ (served ++ [p])); [done| |].
    + rewrite full_runs_snoc. apply accounts_run. by apply accounts_idle.
    + apply idle_when_empty_run; [|by apply name_of].
      apply idle_when_empty_snoc; [done|]. intros _. simpl. split; [by exists p|].
      intros p' Hp' Hbefore.
      assert (Hi : procs !! length served = Some p)
        by (by rewrite <- Heq, list_lookup_middle).
      pose proof (sorted_before procs _ p p' sorted Hi Hp' Hbefore) as Hin.
      rewrite <- Heq, take_app_length in Hin.
      apply (served_dur served); [|done|done|by apply name_of].
      rewrite <- Heq, fmap_app in ids. by apply NoDup_app in ids as [? _].
  - apply (IH _ _ (served ++ [p])); [done| |].
    + rewrite full_runs_snoc. by apply accounts_run.
    + apply idle_when_empty_run; [done|by apply name_of].
Qed.

(** Shortest job first and priority. *)
Lemma np_step_idle_when_empty cmp st st' :
  np_inv procs st -> idle_when_empty procs (np_segments st) ->
  np_step cmp procs st = Continue st' ->
  idle_when_empty procs (np_segments st').
Proof.
  destruct st as [i ready time segs].
  intros (Hi & _ & _ & served & Ha & Hperm) Hw Hstep.
  unfold np_step in Hstep. cbn [np_i np_ready np_time np_segments] in *.
  destruct (enqueueArrivals_spec procs time ready i) as (n & Hscan & Hlen & _ & _).
  rewrite Hscan in Hstep.
  destruct (ready ++ take n (drop i procs)) as [|x ready'] eqn:Hr.
  - apply app_eq_nil in Hr as [-> Hnil].
    rewrite Hnil in Hlen. simpl in Hlen. subst n. rewrite Nat.add_0_r in Hstep.
    destruct (procs !! i) as [r|] eqn:Hnext; [|discriminate].
    injection Hstep as <-. cbn [np_segments].
    apply idle_when_empty_snoc; [done|]. intros _. simpl.
    split; [exists r; split; [by eapply list_elem_of_lookup_2|done]|].
    intros p Hp Hbefore.
    pose proof (sorted_before procs i r p sorted Hnext Hp Hbefore) as Hin.
    simpl in Hperm. rewrite <- (take_drop i procs) in Hperm at 2.
    apply Permutation_app_inv_r in Hperm.
    apply (served_dur served); [|done| |by apply name_of].
    + rewrite Hperm. rewrite <- (take_drop i procs), fmap_app in ids.
      by apply NoDup_app in ids as [? _].
    + by rewrite Hperm.
  - pose proof (sort_by_perm cmp (x :: ready')) as Hsort.
    destruct (sort_by cmp (x :: ready')) as [|p rest]; [discriminate|].
    injection Hstep as <-. cbn [np_segments].
    apply idle_when_empty_run; [done|]. apply name_of.
    assert (Hin : p ∈ x :: ready') by (rewrite <- Hsort; by left).
    rewrite <- Hr in Hin. rewrite <- Hperm.
    apply elem_of_app. right.
    apply elem_of_app in Hin as [Hin|Hin]; [apply elem_of_app; by left|].
    apply elem_of_app. right. apply elem_of_take in Hin as (j & Hj & _).
    by eapply list_elem_of_lookup_2.
Qed.

Hypothesis bursts : Forall (fun p => 1 <= burst p) procs.

Lemma np_run_idle_when_empty cmp :
  exists segs, np_run cmp procs = Done segs /\ idle_when_empty procs segs.
Proof.
  destruct (while_loop_total (np_cond procs) (np_step cmp procs)
              (fun st => np_inv procs st /\ idle_when_empty procs (np_segments st))
              (np_mu procs)) with
    (fuel := np_fuel procs) (st := np_init)
    as (st' & Hrun & (_ & Hw) & _).
  - intros st [HI HW] Hcond.
    destruct (np_step_spec cmp procs bursts st HI Hcond) as (st' & Hstep & ? & ? & _).
    exists st'. split_and!; try done.
    exact (np_step_idle_when_empty cmp st st' HI HW Hstep).
  - split; [apply np_init_inv|apply idle_when_empty_nil].
  - apply np_init_mu.
  - exists (np_segments st'). split; [|done]. unfold np_run. by rewrite Hrun.
Qed.

(** Round robin. *)
Lemma rr_step_idle_when_empty q st st' :
  1 <= q -> rr_inv procs st -> idle_when_empty procs (rr_segments st) ->
  rr_cond procs st = true -> rr_step procs q st = Continue st' ->
  idle_when_empty procs (rr_segments st').
Proof.
  intros Hq Hinv Hw Hcond Hstep.
  destruct (rr_queue st) as [|current rest] eqn:Hqueue.
  - unfold rr_cond in Hcond. rewrite Hqueue in Hcond. simpl in Hcond.
    apply Nat.ltb_lt in Hcond.
    destruct (rr_step_idle procs q st Hinv Hqueue Hcond)
      as (r & n & Hr & Hn & Hstep' & _).
    rewrite Hstep in Hstep'. injection Hstep' as ->. cbn [rr_segments].
    apply idle_when_empty_snoc; [done|]. intros _. simpl.
    split; [exists r; split; [by eapply list_elem_of_lookup_2|done]|].
    intros p Hp Hbefore.
    pose proof (sorted_before procs _ r p sorted Hr Hp Hbefore) as Hin.
    destruct Hinv as (_ & _ & _ & _ & _ & _ & _ & Hdom & _ & runs & Ha & _ & Hsum).
    rewrite (accounts_dur _ _ _ Ha (name_of p Hp)).
    specialize (Hsum p Hp).
    destruct (rr_remainingBurst st !! id p) as [v|] eqn:Hv; [|simpl in Hsum; lia].
    exfalso. assert (Hlive : id p ∈ id <$> rr_live procs st) by (by apply Hdom).
    unfold rr_live in Hlive. rewrite Hqueue in Hlive. simpl in Hlive.
    apply list_elem_of_fmap in Hlive as (p' & Hid & Hp').
    assert (p = p') as <-.
    { apply (same_id_same_process procs); [done..| |done].
      apply list_elem_of_lookup in Hp' as [j Hj]. rewrite lookup_drop in Hj.
      by eapply list_elem_of_lookup_2. }
    rewrite <- (take_drop (rr_i st) procs), fmap_app in ids.
    apply NoDup_app in ids as (_ & Hdisj & _).
    apply (Hdisj (id p)); by apply list_elem_of_fmap_2.
  - destruct (rr_step_run procs q Hq st current rest Hinv Hqueue)
      as (st1 & rem & n & _ & _ & Hstep' & _ & _ & _ & _ & _ & _ & _ & Hsegs).
    rewrite Hstep in Hstep'. injection Hstep' as <-. rewrite Hsegs.
    apply idle_when_empty_run; [done|]. apply name_of.
    destruct Hinv as (_ & _ & _ & _ & _ & Hin & _). apply Hin. rewrite Hqueue. by left.
Qed.

Lemma rr_run_idle_when_empty q :
  1 <= q ->
  exists segs, rr_run procs q = Done segs /\ idle_when_empty procs segs.
Proof.
  intros Hq.
  destruct (while_loop_total (rr_cond procs) (rr_step procs q)
              (fun st => rr_inv procs st /\ idle_when_empty procs (rr_segments st))
              (rr_mu procs)) with
    (fuel := rr_fuel procs) (st := rr_init procs)
    as (st' & Hrun & (_ & Hw) & _).
  - intros st [HI HW] Hcond.
    destruct (rr_step_spec procs q Hq st HI Hcond) as (st' & Hstep & ? & ? & _).
    exists st'. split_and!; try done.
    exact (rr_step_idle_when_empty q st st' Hq HI HW Hcond Hstep).
  - split; [by apply rr_init_inv|].
    unfold rr_init. destruct (enqueueArrivals procs 0 [] 0). apply idle_when_empty_nil.
  - by apply rr_init_mu.
  - exists (rr_segments st'). split; [|done]. unfold rr_run. by rewrite Hrun.
Qed.
End IdleTime.

(** * Further properties, by function *)



(** X2. Round robin with a quantum of at least 1 on a well-formed set
    whose times stay within the safe integers returns the timeline of the
    set, which conserves the burst of every process that is not named as
    the idle sentinel, and in which every run lasts between one unit and the
    quantum and a run shorter than the quantum is the last run of its
    process. *)
Theorem round_robin_slices (ps : list Process) (q : Z) :
  well_formed ps -> 1 <= q -> safe_times ps ->
  exists segs,
    Binary64.scheduleRoundRobin ps q = Done segs /\
    schedule_of ps segs /\ sliced q segs /\ short_is_last q segs.
Proof.
  intros Hwf Hq Hsafe. rewrite rr_policy_exact by done.
  by apply rr_schedule.
Qed.

Lemma round_robin_slices_witness :
  well_formed demo /\ 1 <= 2 /\ safe_times demo /\
  exists segs,
    Binary64.scheduleRoundRobin demo 2 = Done segs /\
    schedule_of demo segs /\ sliced 2 segs /\ short_is_last 2 segs.
Proof.
  split_and!; [| | |apply (round_robin_slices demo 2)].
  - concrete_well_formed.
  - lia.
  - concrete_safe.
  - concrete_well_formed.
  - lia.
  - concrete_safe.
Defined.

(** X3. Round robin called with a quantum of 0 or less on a non-empty set
    of processes with a burst of at least 1 never returns: whatever the
    number of rounds allowed, the loop is still running when they are used
    up. *)
Theorem round_robin_needs_positive_quantum (ps : list Process) (q : Z) :
  ps <> [] -> Forall (fun p => 1 <= burst p) ps -> q <= 0 ->
  scheduleRoundRobin ps q = OutOfFuel /\
  forall fuel,
    while_loop (rr_cond (sort_by (by_ arrival) ps))
      (rr_step (sort_by (by_ arrival) ps) q) fuel
      (rr_init (sort_by (by_ arrival) ps)) = OutOfFuel.
Proof.
  intros Hne Hb Hq.
  assert (Hloop : forall fuel,
    while_loop (rr_cond (sort_by (by_ arrival) ps))
      (rr_step (sort_by (by_ arrival) ps) q) fuel
      (rr_init (sort_by (by_ arrival) ps)) = OutOfFuel).
  { intros fuel.
    apply (while_loop_diverges _ _ (rr_fed (sort_by (by_ arrival) ps))).
    - intros st Hfed. by apply rr_step_fed.
    - apply rr_init_fed.
      + intros Hnil. by apply sort_by_nil_inv in Hnil.
      + by rewrite sort_by_perm. }
  split; [|done].
  unfold scheduleRoundRobin, rr_run, deepClone. by rewrite Hloop.
Qed.

Lemma round_robin_needs_positive_quantum_witness :
  scheduleRoundRobin demo 0 = OutOfFuel.
Proof.
  apply (round_robin_needs_positive_quantum demo 0).
  - discriminate.
  - repeat constructor; simpl; lia.
  - lia.
Defined.

(** X4. The ticks of a contiguous partition are its expansion: the id of
    every segment, in order, as many times as the segment lasts. *)
Theorem ticks_are_expansion (segs : list Segment) :
  contiguous_partition segs -> segmentsToTicks segs = expand segs.
Proof. intros Hp. by apply ticks_of_chain, partition_chain. Qed.

Lemma ticks_are_expansion_witness :
  segmentsToTicks [mkSegment "A" 0 2; mkSegment "IDLE" 2 3; mkSegment "B" 3 4]
  = ["A"; "A"; "IDLE"; "B"]%string.
Proof.
  rewrite (ticks_are_expansion
             [mkSegment "A" 0 2; mkSegment "IDLE" 2 3; mkSegment "B" 3 4]);
    [reflexivity|].
  apply chain_partition. simpl. lia.
Defined.



(** X6. On a well-formed process set whose times stay within the safe
    integers and in which no process bears a name that an object inherits,
    and under every policy, the finish time that the metrics read for a
    process is the number of an integer that is at least its arrival plus
    its burst, so that no waiting time is negative, and at most the
    makespan; this for every process whose id is not the idle sentinel. *)
Theorem finish_after_arrival_and_burst (ps : list Process) (q : Z) :
  well_formed ps -> plain_ids ps -> 1 <= q -> safe_times ps ->
  Binary64Spec.every_policy Binary64Spec.finishes_after_work ps q.
Proof.
  intros Hwf Hplain Hq Hsafe. apply every_policy_numbers; try done.
  eapply every_policy_impl; [|by apply policies_schedule].
  intros segs Hs p Hp Hne. exists (finish_last (id p) segs). split.
  - apply finish_read_plain. unfold plain_ids in Hplain.
    rewrite Forall_forall in Hplain. by apply Hplain.
  - exact (schedule_finishes ps segs Hwf Hs p Hp Hne).
Qed.

Lemma finish_after_arrival_and_burst_witness :
  well_formed demo /\ plain_ids demo /\ 1 <= 2 /\ safe_times demo /\
  Binary64Spec.every_policy Binary64Spec.finishes_after_work demo 2.
Proof.
  split_and!; [| | | |apply (finish_after_arrival_and_burst demo 2)].
  - concrete_well_formed.
  - concrete_plain.
  - lia.
  - concrete_safe.
  - concrete_well_formed.
  - concrete_plain.
  - lia.
  - concrete_safe.
Defined.

(** X7. On a well-formed process set without a process named as the idle
    sentinel or by a name that an object inherits, with numbers small enough
    for no total to pass the largest safe integer, and under every policy,
    the total waiting time that [computeMetrics] adds up is not negative, and
    the total turnaround time is the total waiting time plus the bursts. *)
Theorem totals_on_schedules (ps : list Process) (q : Z) :
  well_formed ps -> Forall (fun p => id p <> IDLE) ps -> plain_ids ps ->
  1 <= q -> safe_totals ps ->
  Binary64Spec.every_policy Binary64Spec.totals_of_work ps q.
Proof.
  intros Hwf Hnames Hplain Hq Hsafe.
  pose proof (safe_totals_times ps Hwf Hsafe) as Htimes.
  apply every_policy_numbers; try done.
  eapply every_policy_impl;
    [|exact (every_policy_conj _ _ ps q (policies_schedule ps q Hwf Hq)
               (policies_within ps q Hwf Hq Htimes))].
  intros segs [Hs Hle].
  assert (Hm : safe_metrics ps segs).
  { apply schedule_safe_metrics; try done. apply Hs. }
  exists (fst (metric_totals ps segs)), (snd (metric_totals ps segs)).
  assert (Hwt : 0 <= fst (metric_totals ps segs)).
  { rewrite metric_totals_spec. unfold totals_with. cbn [fst].
    apply Zsum_fmap_nonneg. intros p Hp.
    rewrite Forall_forall in Hnames.
    pose proof (schedule_finishes ps segs Hwf Hs p Hp (Hnames p Hp)). lia. }
  split_and!.
  - rewrite metric_totals_numbers by done. unfold exact_totals.
    by rewrite <- metric_totals_spec.
  - done.
  - apply totals_gap.
  - rewrite metric_totals_spec. unfold totals_with. cbn [snd].
    pose proof (magnitude_nonneg ps segs) as HM.
    unfold safe_metrics in Hm.
    assert (Hbound : forall l : list Process, (forall p, p ∈ l -> p ∈ ps) ->
              Zsum ((fun p => finish_last (id p) segs - arrival p) <$> l)
              <= 3 * magnitude ps segs * Z.of_nat (length l)).
    { induction l as [|p l IH]; intros Hsub; [unfold Zsum; simpl; lia|].
      rewrite fmap_cons, Zsum_cons, length_cons.
      pose proof (finish_last_magnitude ps segs (id p)).
      destruct (magnitude_process ps segs p) as [Ha _]; [apply Hsub; by left|].
      assert (Zsum ((fun p => finish_last (id p) segs - arrival p) <$> l)
              <= 3 * magnitude ps segs * Z.of_nat (length l)).
      { apply IH. intros x Hx. apply Hsub. by right. }
      lia. }
    etrans; [by apply Hbound|done].
Qed.

Lemma totals_on_schedules_witness :
  well_formed demo /\ Forall (fun p => id p <> IDLE) demo /\ plain_ids demo /\
  1 <= 2 /\ safe_totals demo /\
  Binary64Spec.every_policy Binary64Spec.totals_of_work demo 2.
Proof.
  assert (Hwf : well_formed demo) by concrete_well_formed.
  assert (Hn : Forall (fun p => id p <> IDLE) demo) by (by repeat constructor).
  assert (Hplain : plain_ids demo).
  { concrete_plain. }
  assert (Hsafe : safe_totals demo) by by vm_compute.
  split; [exact Hwf|]. split; [exact Hn|]. split; [exact Hplain|]. split; [lia|].
  split; [exact Hsafe|].
  apply (totals_on_schedules demo 2 Hwf Hn Hplain); [lia|exact Hsafe].
Defined.

(** X8. On a well-formed process set without a process named as the idle
    sentinel, whose times stay within the safe integers, and under every
    policy, the makespan is the sum of the bursts plus the time of the idle
    segments. *)
Theorem makespan_is_work_and_idle (ps : list Process) (q : Z) :
  well_formed ps -> Forall (fun p => id p <> IDLE) ps -> 1 <= q -> safe_times ps ->
  Binary64Spec.every_policy work_and_idle ps q.
Proof.
  intros Hwf Hnames Hq Hsafe. apply every_policy_numbers; try done.
  eapply every_policy_impl; [|by apply policies_schedule].
  intros segs Hs. by apply makespan_of_schedule.
Qed.

Lemma makespan_is_work_and_idle_witness :
  well_formed demo /\ Forall (fun p => id p <> IDLE) demo /\ 1 <= 2 /\
  safe_times demo /\ Binary64Spec.every_policy work_and_idle demo 2.
Proof.
  assert (Hwf : well_formed demo) by concrete_well_formed.
  assert (Hn : Forall (fun p => id p <> IDLE) demo) by (by repeat constructor).
  assert (Hsafe : safe_times demo).
  { concrete_safe. }
  split; [exact Hwf|]. split; [exact Hn|]. split; [lia|]. split; [exact Hsafe|].
  apply (makespan_is_work_and_idle demo 2 Hwf Hn); [lia|exact Hsafe].
Defined.

(** X9. [schedulePriority] returns, for every process list, the segments
    of a run of its loop in which every non-empty ready list splits around
    its first process of lowest rank (priority number, then arrival, then
    burst): the processes before it rank strictly higher, the processes
    after it no lower.  The round runs that process for its whole burst
    from the current time and keeps the sort of the others as the ready
    list.  The ready processes of equal rank are in the order of the
    arrival-sorted array in every round, so the process selected is the
    first of them in that array. *)
Theorem priority_selection (ps : list Process) :
  let remaining := sort_by (by_ arrival) ps in
  exists rounds st_end,
    run_through (np_cond remaining) (Binary64.np_step cmp_priority remaining)
      np_init rounds st_end /\
    Binary64.schedulePriority ps = Done (np_segments st_end) /\
    forall (j : nat) st ready (i : nat),
      rounds !! j = Some st ->
      enqueueArrivals remaining (np_time st) (np_ready st) (np_i st) = (ready, i) ->
      ready <> [] ->
      exists l1 x l2 later,
        ready = l1 ++ x :: l2 /\
        (forall y, y ∈ l1 -> before x y) /\
        (forall y, y ∈ l2 -> not_after x y) /\
        (rounds ++ [st_end]) !! S j
        = Some (mkNp i (sort_by cmp_priority (l1 ++ l2))
                  (num_add (np_time st) (burst x))
                  (np_segments st
                     ++ [run_seg x (np_time st) (num_add (np_time st) (burst x))])) /\
        filter (fun p => rank p = rank x) ready = x :: later /\
        x :: later
        `sublist_of` filter (fun p => rank p = rank x) (take i remaining).
Proof.
  intros remaining.
  destruct (np_run_total cmp_priority remaining (equal_ranks_in_array_order remaining))
    as (rounds & st_end & Hrun & Hdone & Hall).
  { intros v. simpl. apply sublist_nil_l. }
  { apply priority_round_keeps_rank_order. }
  exists rounds, st_end. split; [done|]. split; [done|].
  intros j st ready i Hj Hscan Hne.
  destruct (run_through_states _ _ _ _ _ j st Hrun Hj) as (st' & Hj' & Hstep).
  assert (HJ : equal_ranks_in_array_order remaining st).
  { rewrite Forall_forall in Hall. apply Hall.
    eapply list_elem_of_lookup_2. by apply lookup_app_l_Some. }
  destruct (first_of_rank ready Hne) as (l1 & x & l2 & Heq & H1 & H2).
  assert (Hsort : sort_by cmp_priority (l1 ++ x :: l2)
                  = x :: sort_by cmp_priority (l1 ++ l2)).
  { apply sort_by_first.
    - intros y Hy. by apply cmp_priority_gt, H1.
    - intros y Hy. by apply cmp_priority_le, H2. }
  assert (Hfilter : filter (fun p => rank p = rank x) ready
                    = x :: filter (fun p => rank p = rank x) l2).
  { rewrite Heq, filter_app, filter_cons.
    destruct (decide (rank x = rank x)); [|done].
    rewrite (filter_none _ l1); [done|].
    apply Forall_forall. intros y Hy Hrank. specialize (H1 y Hy).
    unfold before, rank in *. injection Hrank as ? ? ?. lia. }
  exists l1, x, l2, (filter (fun p => rank p = rank x) l2).
  split_and!; try done.
  - rewrite Hj'. f_equal. unfold Binary64.np_step in Hstep. rewrite Hscan in Hstep.
    destruct ready as [|r ready']; [done|].
    rewrite Heq, Hsort in Hstep. by injection Hstep.
  - rewrite <- Hfilter. by apply (scan_keeps_rank_order remaining st).
Qed.

Lemma priority_selection_witness :
  exists segs,
    Binary64.schedulePriority [P "A" 0 3 2; P "B" 0 2 1; P "C" 0 2 1] = Done segs /\
    head segs = Some (mkSegment "B" 0 2).
Proof.
  destruct (priority_selection [P "A" 0 3 2; P "B" 0 2 1; P "C" 0 2 1])
    as (rounds & st_end & _ & Hdone & _).
  exists (np_segments st_end). split; [exact Hdone|].
  assert (H0 : Binary64.schedulePriority [P "A" 0 3 2; P "B" 0 2 1; P "C" 0 2 1]
               = Done [mkSegment "B" 0 2; mkSegment "C" 2 4; mkSegment "A" 4 7])
    by by vm_compute.
  rewrite H0 in Hdone. by injection Hdone as <-.
Defined.

(** X10. First come, first served runs the processes in the order of the
    rows of the process table: for processes with a burst of at least 1,
    none of them named as the idle sentinel, the ids of the segments that
    are not idle are the ids of the rows, in order. *)
Theorem fcfs_serves_in_table_order (ps : list Process) :
  Forall (fun p => 1 <= burst p) ps -> Forall (fun p => id p <> IDLE) ps ->
  service_order (scheduleFCFS ps) = id <$> table_rows ps.
Proof.
  intros Hb Hnames. destruct (fcfs_spec ps Hb) as [_ Ha].
  rewrite (accounts_service_order _ _ Ha).
  - unfold full_runs, table_rows. by rewrite <- list_fmap_compose.
  - unfold full_runs. apply Forall_fmap, Forall_forall. intros p Hp. simpl.
    rewrite Forall_forall in Hnames. apply Hnames. by rewrite sort_by_perm in Hp.
Qed.

Lemma fcfs_serves_in_table_order_witness :
  service_order (scheduleFCFS [P "B" 5 1 0; P "A" 0 2 0; P "C" 5 1 0])
  = ["A"; "B"; "C"]%string.
Proof.
  rewrite (fcfs_serves_in_table_order [P "B" 5 1 0; P "A" 0 2 0; P "C" 5 1 0]).
  - reflexivity.
  - repeat constructor; simpl; lia.
  - by repeat constructor.
Defined.

(** X11. The rows of the process table are the processes, each once, in
    non-decreasing order of arrival, the processes of equal arrival in the
    order of the list. *)
Theorem table_rows_by_arrival (processes : list Process) :
  table_rows processes ≡ₚ processes /\
  sorted_on arrival (table_rows processes) /\
  forall a, filter (fun p => arrival p = a) (table_rows processes)
            = filter (fun p => arrival p = a) processes.
Proof.
  unfold table_rows. split_and!.
  - apply sort_by_perm.
  - apply sort_by_sorted_on.
  - intros a. apply sort_by_stable.
Qed.

(** X12. [buildSchedule] on a well-formed process set whose times stay
    within the safe integers returns for every policy name and every
    quantum: it stores a segment list, its expansion as the ticks (one per
    unit of the makespan), the cursor 0 and the stopped playback.  For one
    of the four names the segments are the timeline of the set, conserve the
    burst of every process that is not named as the idle sentinel and start
    no process early, and round robin runs with the quantum raised to 1 when
    it is lower; for any other name there is no segment. *)
Theorem build_schedule_returns (algo : string) (quantum : Z) (ps : list Process) :
  well_formed ps -> safe_times ps ->
  exists segs b,
    Binary64.buildSchedule algo quantum ps = Done b /\ built_from segs b /\
    if known_policy algo
    then schedule_of ps segs /\
         (algo = "RR"%string ->
          sliced (Z.max 1 quantum) segs /\ short_is_last (Z.max 1 quantum) segs)
    else segs = [].
Proof.
  intros Hwf Hsafe. rewrite buildSchedule_exact by done. by apply build_spec.
Qed.

Lemma build_schedule_returns_witness :
  well_formed demo /\ safe_times demo /\
  exists segs b,
    Binary64.buildSchedule "RR" 0 demo = Done b /\ built_from segs b /\
    schedule_of demo segs /\ sliced 1 segs.
Proof.
  assert (Hwf : well_formed demo) by concrete_well_formed.
  assert (Hsafe : safe_times demo).
  { concrete_safe. }
  split; [exact Hwf|]. split; [exact Hsafe|].
  destruct (build_schedule_returns "RR" 0 demo Hwf Hsafe)
    as (segs & b & Hb & Hbuilt & Hs & Hrr).
  exists segs, b. split; [exact Hb|]. split; [exact Hbuilt|]. split; [exact Hs|].
  exact (proj1 (Hrr eq_refl)).
Defined.

(** X13. Whatever the user does to the form and the process list, and
    whatever [trim] does to a string, the page keeps its invariant: the ids
    of the processes are distinct and not empty, every arrival is within 0
    and 9999, every burst and priority within 1 and 9999, and so are the
    numbers of the form. *)
Theorem page_invariant (trim : string -> string) (events : list event) :
  page_ok (page_after trim events).
Proof. apply page_after_ok. Qed.

(** X14. Whatever the user has done to the form, the process list and
    the controls, a click on Build returns: the ticks are the expansion of
    the segments, the segments are the timeline of the processes of the
    page, conserve the burst of every process that is not named as the idle
    sentinel and start no process early, under round robin no run is longer
    than the quantum of the controls, and the playback has something to play
    exactly when there is a process. *)
Theorem page_build_returns (trim : string -> string) (events : list event)
    (settings : list control_event) :
  exists segs b,
    buildSchedule (c_algo (controls_after settings)) (c_quantum (controls_after settings))
      (a_processes (page_after trim events)) = Done b /\
    built_from segs b /\
    schedule_of (a_processes (page_after trim events)) segs /\
    (c_algo (controls_after settings) = "RR"%string ->
     sliced (c_quantum (controls_after settings)) segs) /\
    (canPlay b = true <-> a_processes (page_after trim events) <> []).
Proof.
  pose proof (page_ok_well_formed _ (page_after_ok trim events)) as Hwf.
  destruct (controls_after_ok settings) as (Hk & Hq & _).
  destruct (build_spec (c_algo (controls_after settings))
              (c_quantum (controls_after settings)) _ Hwf)
    as (segs & b & Hb & Hbuilt & Hs).
  exists segs, b. rewrite Hk in Hs. destruct Hs as [Hs Hrr].
  split_and!; try done.
  - intros Halgo. destruct (Hrr Halgo) as [Hsl _].
    by rewrite Z.max_r in Hsl by lia.
  - by apply (build_can_play _ _ _ _ Hwf Hk Hb).
Qed.

(** X15. [onAddProcess] refuses, with an alert, a process whose id is
    taken and leaves the list as it is; it puts any other process at the
    end of the list, and removing that id afterwards gives the list back. *)
Theorem add_and_remove (processes : list Process) (p : Process) :
  (id p ∈ id <$> processes -> onAddProcess processes p = (processes, true)) /\
  (id p ∉ id <$> processes ->
   onAddProcess processes p = (processes ++ [p], false) /\
   onRemoveProcess (fst (onAddProcess processes p)) (id p) = processes).
Proof.
  split; [apply onAddProcess_taken|]. intros Hnew.
  rewrite onAddProcess_new by done. split; [done|]. cbn [fst].
  unfold onRemoveProcess. rewrite filter_app, filter_cons, filter_nil.
  destruct (decide (id p <> id p)); [done|].
  rewrite app_nil_r. by apply onRemoveProcess_absent.
Qed.

Lemma add_and_remove_witness :
  onAddProcess demo (P "P2" 9 9 9) = (demo, true) /\
  onRemoveProcess (fst (onAddProcess demo (P "P4" 9 9 9))) "P4" = demo.
Proof.
  destruct (add_and_remove demo (P "P2" 9 9 9)) as [Htaken _].
  destruct (add_and_remove demo (P "P4" 9 9 9)) as [_ Hnew].
  split.
  - apply Htaken. apply (bool_decide_unpack _). by vm_compute.
  - apply Hnew. apply (bool_decide_unpack _). by vm_compute.
Defined.

(** X16. [clampInt] with bounds in order returns a value within the
    bounds, whatever number the text of the field makes; it returns the
    floor of a finite number whose floor is within the bounds, so an integer
    within the bounds is kept. *)
Theorem clamp_int_within_bounds (v : jsnum) (min max : Z) :
  min <= max ->
  min <= clampInt v min max <= max /\
  (forall q, min <= Qfloor q <= max -> clampInt (JFin q) min max = Qfloor q) /\
  (forall z, min <= z <= max -> clampInt (JFin (inject_Z z)) min max = z).
Proof.
  intros Hle. split; [by apply clampInt_bounds|]. split.
  - intros q. apply clampInt_floor.
  - intros z Hz. rewrite clampInt_floor; rewrite Qfloor_Z; done.
Qed.

Lemma clamp_int_within_bounds_witness :
  1 <= clampInt JNaN 1 9999 <= 9999 /\ clampInt (JFin (7 # 2)) 1 9999 = 3.
Proof.
  destruct (clamp_int_within_bounds JNaN 1 9999) as (Hb & Hfloor & _); [lia|].
  split; [exact Hb|]. apply (Hfloor (7 # 2)%Q). vm_compute. split; discriminate.
Defined.

(** X17. The cursor of the playback: from a position within the ticks, n
    clicks on Step move it n units forward, up to the number of ticks; a
    tick of the timer moves it as a click on Step does, and stops the timer
    exactly when the cursor reaches the number of ticks. *)
Theorem playback_cursor (ticks : list string) (t : Z) (n : nat) :
  0 <= t <= Z.of_nat (length ticks) ->
  Nat.iter n (onStep ticks) t = Z.min (t + Z.of_nat n) (Z.of_nat (length ticks)) /\
  fst (timer_tick ticks t) = onStep ticks t /\
  (snd (timer_tick ticks t) = true <-> fst (timer_tick ticks t) = Z.of_nat (length ticks)).
Proof.
  intros Ht. split_and!.
  - by apply steps_min.
  - by rewrite timer_tick_min, onStep_min.
  - rewrite timer_tick_min. cbn [fst snd]. rewrite Z.leb_le. lia.
Qed.

Lemma playback_cursor_witness :
  Nat.iter 5 (onStep ["A"; "A"; "B"]%string) 1 = 3 /\
  timer_tick ["A"; "A"; "B"]%string 2 = (3, true).
Proof.
  destruct (playback_cursor ["A"; "A"; "B"]%string 1 5) as (Hsteps & _); [simpl; lia|].
  split; [exact Hsteps|reflexivity].
Defined.

(** X18. The process shown as running: on the ticks of a contiguous
    partition, the entry under a cursor that a segment covers is the id of
    that segment; there is no entry under a cursor at the makespan, or
    before 0. *)
Theorem now_running (segs : list Segment) :
  contiguous_partition segs ->
  (forall s t, s ∈ segs -> start s <= t < end_ s ->
     nowPid (segmentsToTicks segs) t = Some (pid s)) /\
  nowPid (segmentsToTicks segs) (makespan segs) = None /\
  (forall t, t < 0 -> nowPid (segmentsToTicks segs) t = None).
Proof.
  intros Hp. pose proof (partition_chain segs Hp) as Hc. split_and!.
  - intros s t Hs Ht.
    assert (Hlo : 0 <= t).
    { apply list_elem_of_lookup in Hs as [j Hj].
      pose proof (chain_start_ge _ _ _ _ Hc Hj). lia. }
    assert (Hhi : t < makespan segs).
    { pose proof (chain_ends_le _ _ _ Hc Hs). change (makespan segs) with (end_from 0 segs). lia. }
    unfold nowPid. destruct (Z.ltb_spec t 0); [lia|].
    by rewrite ticks_lookup, (chain_find 0 segs s t).
  - unfold nowPid. destruct (Z.ltb_spec (makespan segs) 0); [done|].
    apply lookup_ge_None. rewrite ticks_length. lia.
  - intros t Ht. unfold nowPid. by destruct (Z.ltb_spec t 0); [|lia].
Qed.

Lemma now_running_witness :
  nowPid (segmentsToTicks [mkSegment "A" 0 2; mkSegment "B" 2 3]) 2 = Some "B"%string.
Proof.
  destruct (now_running [mkSegment "A" 0 2; mkSegment "B" 2 3]) as (Hcov & _).
  - apply chain_partition. simpl. lia.
  - apply (Hcov (mkSegment "B" 2 3) 2).
    + apply (bool_decide_unpack _). by vm_compute.
    + simpl. lia.
Defined.

(** X19. [colorForPid] returns a colour for every id: the grey of the
    idle sentinel for that id and for no other, and one of the fifteen
    colours of the palette for every other id. *)
Theorem colour_of_pid (pid : string) :
  exists c,
    colorForPid pid = Some c /\
    (pid = IDLE <-> c = idle_colour) /\
    (pid <> IDLE -> c ∈ COLORS).
Proof.
  unfold colorForPid. destruct (String.eqb_spec pid "IDLE") as [->|Hne].
  - exists idle_colour. by split_and!.
  - destruct (colour_index (hash_from 0 pid)) as (c & Hc & Hin).
    exists c. split; [done|]. split; [|done]. split; [done|].
    intros ->. exfalso. revert Hin. apply (bool_decide_unpack _). by vm_compute.
Qed.

(** X20. On a well-formed process set without a process named as the idle
    sentinel, whose times stay within the safe integers, and under every
    policy, the segments are the timeline of the set and the processor
    idles only when there is nothing to run: every idle segment ends at the
    arrival of a process, and every process that arrives before that end has
    run its whole burst before the segment starts. *)
Theorem idle_only_when_nothing_to_run (ps : list Process) (q : Z) :
  well_formed ps -> Forall (fun p => id p <> IDLE) ps -> 1 <= q -> safe_times ps ->
  Binary64Spec.every_policy
    (fun ps segs => schedule_of ps segs /\ idle_when_empty ps segs) ps q.
Proof.
  intros Hwf Hnames Hq Hsafe. apply every_policy_numbers; try done.
  apply every_policy_conj; [by apply policies_schedule|].
  destruct (well_formed_sorted ps Hwf) as [Hnd Hb].
  pose proof (sort_by_sorted_on arrival ps) as Hsorted.
  assert (Hn : Forall (fun p => id p <> IDLE) (sort_by (by_ arrival) ps))
    by (by rewrite sort_by_perm).
  unfold every_policy, scheduleFCFS, scheduleSJF, schedulePriority,
    scheduleRoundRobin, deepClone.
  split_and!.
  - eapply idle_when_empty_perm; [apply sort_by_perm|].
    apply (fcfs_fold_idle _ Hsorted Hnd Hn _ 0 [] []);
      [done|constructor|apply idle_when_empty_nil].
  - destruct (np_run_idle_when_empty _ Hsorted Hnd Hn Hb (by_ burst)) as (segs & ? & ?).
    exists segs. split; [done|]. by eapply idle_when_empty_perm; [apply sort_by_perm|].
  - destruct (np_run_idle_when_empty _ Hsorted Hnd Hn Hb cmp_priority) as (segs & ? & ?).
    exists segs. split; [done|]. by eapply idle_when_empty_perm; [apply sort_by_perm|].
  - destruct (rr_run_idle_when_empty _ Hsorted Hnd Hn Hb q Hq) as (segs & ? & ?).
    exists segs. split; [done|]. by eapply idle_when_empty_perm; [apply sort_by_perm|].
Qed.

Lemma idle_only_when_nothing_to_run_witness :
  well_formed [P "A" 0 2 1; P "B" 5 1 1] /\ safe_times [P "A" 0 2 1; P "B" 5 1 1] /\
  Binary64Spec.every_policy
    (fun ps segs => schedule_of ps segs /\ idle_when_empty ps segs)
    [P "A" 0 2 1; P "B" 5 1 1] 2.
Proof.
  assert (Hwf : well_formed [P "A" 0 2 1; P "B" 5 1 1]) by concrete_well_formed.
  assert (Hsafe : safe_times [P "A" 0 2 1; P "B" 5 1 1]).
  { concrete_safe. }
  split; [exact Hwf|]. split; [exact Hsafe|].
  apply (idle_only_when_nothing_to_run [P "A" 0 2 1; P "B" 5 1 1] 2 Hwf).
  - by repeat constructor.
  - lia.
  - exact Hsafe.
Defined.

(** X21. Whatever the user does to the controls, one of the four policies
    is selected, the quantum is within 1 and 1000 and the speed within 50
    and 2000; so the guards [Math.max(1, quantum)] of [buildSchedule] and
    [Math.max(50, speed)] of the timer change nothing, and the branch of
    [buildSchedule] for an unknown policy is never taken. *)
Theorem controls_invariant (settings : list control_event) :
  controls_ok (controls_after settings) /\
  Z.max 1 (c_quantum (controls_after settings)) = c_quantum (controls_after settings) /\
  timer_period (c_speed (controls_after settings)) = c_speed (controls_after settings).
Proof.
  pose proof (controls_after_ok settings) as Hok. split; [done|].
  destruct Hok as (_ & Hq & Hs). unfold timer_period. lia.
Qed.

(** X22. Round robin with a quantum q of at least 1 on a well-formed set
    whose times stay within the safe integers gives every process whose id
    is not the idle sentinel as many runs as quanta are needed for its
    burst: the burst divided by q, rounded up. *)
Theorem round_robin_slice_count (ps : list Process) (q : Z) :
  well_formed ps -> 1 <= q -> safe_times ps ->
  exists segs,
    Binary64.scheduleRoundRobin ps q = Done segs /\ slices_counted q ps segs.
Proof.
  intros Hwf Hq Hsafe. rewrite rr_policy_exact by done.
  destruct (rr_schedule ps q Hwf Hq) as (segs & Hrun & (_ & _ & Hdur & _) & Hs & Hl).
  exists segs. split; [done|]. intros p Hp Hne.
  rewrite (slice_count q (id p) segs Hq Hne Hs Hl). by rewrite (Hdur p Hp Hne).
Qed.

Lemma round_robin_slice_count_witness :
  well_formed demo /\ 1 <= 2 /\ safe_times demo /\
  exists segs,
    Binary64.scheduleRoundRobin demo 2 = Done segs /\ slices_counted 2 demo segs.
Proof.
  split_and!; [| | |apply (round_robin_slice_count demo 2)].
  - concrete_well_formed.
  - lia.
  - concrete_safe.
  - concrete_well_formed.
  - lia.
  - concrete_safe.
Defined.

(** X23. Round robin with a quantum that no burst exceeds is first come,
    first served: on a well-formed process set it returns the segment list
    of [scheduleFCFS]. *)
Theorem round_robin_with_large_quantum_is_fcfs (ps : list Process) (q : Z) :
  well_formed ps -> Forall (fun p => burst p <= q) ps ->
  scheduleRoundRobin ps q = Done (scheduleFCFS ps).
Proof.
  intros Hwf Hlarge. destruct ps as [|p0 ps]; [done|].
  destruct (well_formed_sorted _ Hwf) as [Hnd Hb].
  assert (Hq : 1 <= q).
  { destruct Hwf as [_ Hall]. apply Forall_cons in Hall as [[_ ?] _].
    apply Forall_cons in Hlarge as [? _]. lia. }
  assert (Hl : Forall (fun p => burst p <= q) (sort_by (by_ arrival) (p0 :: ps)))
    by (by rewrite sort_by_perm).
  unfold scheduleRoundRobin, scheduleFCFS, deepClone.
  rewrite (rr_run_as_fcfs _ q Hq Hnd Hb Hl). unfold fcfs_after.
  by rewrite firstn_all.
Qed.

Lemma round_robin_with_large_quantum_is_fcfs_witness :
  scheduleRoundRobin demo 6 = Done (scheduleFCFS demo).
Proof.
  apply (round_robin_with_large_quantum_is_fcfs demo 6).
  - concrete_well_formed.
  - repeat constructor; simpl; lia.
Defined.

(** X24. The order of the input matters only for processes of equal
    arrival: two lists that hold the same processes, no two of which arrive
    together, get the same rows in the table and the same segments from
    every policy; the metrics do not depend on the order of the list when
    no process bears a name that an object inherits and the numbers are
    small enough for no total to pass the largest safe integer. *)
Theorem input_order_matters_only_for_ties (ps ps' : list Process) (q : Z)
    (segments : list Segment) :
  ps ≡ₚ ps' ->
  (plain_ids ps -> safe_metrics ps segments ->
   Binary64.computeMetrics ps segments = Binary64.computeMetrics ps' segments) /\
  (NoDup (arrival <$> ps) ->
   table_rows ps = table_rows ps' /\
   Binary64.scheduleFCFS ps = Binary64.scheduleFCFS ps' /\
   Binary64.scheduleSJF ps = Binary64.scheduleSJF ps' /\
   Binary64.schedulePriority ps = Binary64.schedulePriority ps' /\
   Binary64.scheduleRoundRobin ps q = Binary64.scheduleRoundRobin ps' q).
Proof.
  intros Hperm. split.
  - intros Hplain Hsafe.
    assert (Hplain' : plain_ids ps') by (unfold plain_ids; by rewrite <- Hperm).
    pose proof (safe_metrics_perm _ _ _ Hperm Hsafe) as Hsafe'.
    rewrite !computeMetrics_numbers by done. by apply computeMetrics_perm.
  - intros Hnd. pose proof (sort_by_arrival_perm ps ps' Hperm Hnd) as Heq.
    unfold table_rows, Binary64.scheduleFCFS, Binary64.scheduleSJF,
      Binary64.schedulePriority, Binary64.scheduleRoundRobin, deepClone.
    by rewrite Heq.
Qed.

Lemma input_order_matters_only_for_ties_witness :
  Binary64.scheduleSJF [P "B" 3 2 1; P "A" 0 4 1]
  = Binary64.scheduleSJF [P "A" 0 4 1; P "B" 3 2 1].
Proof.
  destruct (input_order_matters_only_for_ties
              [P "B" 3 2 1; P "A" 0 4 1] [P "A" 0 4 1; P "B" 3 2 1] 1 [])
    as [_ Hsame].
  - apply Permutation_swap.
  - destruct Hsame as (_ & _ & Hsjf & _); [|exact Hsjf].
    apply (bool_decide_unpack _). by vm_compute.
Defined.
